(** * The associative memory store of [memory_system.py]

    A shallow embedding of [MemoryTrace], [MemoryQuery] and [MemoryNetwork]
    and of the operations that store, link, evict and retrieve records,
    followed by the properties of the store.

    Conventions of the embedding:
    - Python [float] values are idealised as rationals ([Q]); every float
      expression of the source is transcribed operator by operator.
    - Python [str] values are [string]s of characters; [lower] is
      [str.lower] on ASCII text, and a property that depends on the case
      folding is stated for ASCII text.
    - A Python exception is an [outcome] carrying the exception, paired with
      the store as the partial run left it (Python does not roll back).
    - [self.memories] is a [dict]: an association list in insertion order
      with unique keys.  The index dictionaries are [defaultdict(set)]:
      finite maps to finite sets where reading a missing key creates it.
    - [datetime.now()] is an argument of the operation that reads the clock.
    - Every record passed to [store_memory] is a freshly built object that
      the caller neither stores a second time nor mutates afterwards. *)

From Stdlib Require Import ZArith QArith Qround Qabs Qminmax Lqa.
From Stdlib Require Import String Ascii List Lia Permutation.
From Stdlib Require Import Sorting.Sorted.
From stdpp Require Import gmap strings list fin_maps pretty.

Local Open Scope Z_scope.

(** ** Exceptions and outcomes *)

Inductive exn : Type :=
| ValueError (msg : string)
| KeyError
| ZeroDivisionError.

Inductive outcome (A : Type) : Type :=
| Ok (a : A)
| Raise (e : exn).

Arguments Ok {A} a.
Arguments Raise {A} e.

Definition is_ok {A} (o : outcome A) : bool :=
  match o with Ok _ => true | Raise _ => false end.

(** ** Python numbers *)

(** [a / b] on numbers: true division, raising on a zero divisor. *)
Definition py_div (a b : Q) : outcome Q :=
  if Qeq_bool b 0 then Raise ZeroDivisionError else Ok (a / b)%Q.

(** [round(x)] with one argument: the nearest integer, halves to even. *)
Definition py_round (x : Q) : Z :=
  let f := Qfloor x in
  let d := (x - inject_Z f)%Q in
  match (d ?= 1 # 2)%Q with
  | Lt => f
  | Gt => f + 1
  | Eq => if Z.even f then f else f + 1
  end.

(** [np.arange(start, stop, step)]: [ceil((stop - start) / step)] values
    [start + i * step]. *)
Definition np_arange (start stop step : Q) : list Q :=
  map (fun i : nat => (start + inject_Z (Z.of_nat i) * step)%Q)
      (seq 0 (Z.to_nat (Qceiling ((stop - start) / step)))).

(** ** Python strings *)

Definition lower_ascii (c : ascii) : ascii :=
  let n := nat_of_ascii c in
  if ((65 <=? n)%nat && (n <=? 90)%nat)%bool then ascii_of_nat (n + 32) else c.

(** [s.lower()] on ASCII text: the letters [A] to [Z] are folded, every
    other character is kept.  ([str.lower] also folds letters outside
    ASCII; those are outside the text this model covers.) *)
Fixpoint lower (s : string) : string :=
  match s with
  | EmptyString => EmptyString
  | String c s' => String (lower_ascii c) (lower s')
  end.

Fixpoint is_prefix (p s : string) : bool :=
  match p, s with
  | EmptyString, _ => true
  | String a p', String b s' => if Ascii.eqb a b then is_prefix p' s' else false
  | String _ _, EmptyString => false
  end.

(** [sub in s] on strings. *)
Fixpoint py_in_str (sub s : string) : bool :=
  if is_prefix sub s then true
  else match s with
       | EmptyString => false
       | String _ s' => py_in_str sub s'
       end.

(** ** [datetime] *)

Record datetime : Type := mk_datetime {
  year : Z; month : Z; day : Z;
  hour : Z; minute : Z; second : Z; microsecond : Z
}.

Definition is_leap (y : Z) : bool :=
  (y mod 4 =? 0) && (negb (y mod 100 =? 0) || (y mod 400 =? 0)).

Definition days_before_year (y : Z) : Z :=
  let y1 := y - 1 in y1 * 365 + y1 / 4 - y1 / 100 + y1 / 400.

Definition days_before_month (y m : Z) : Z :=
  nth (Z.to_nat m) [0; 0; 31; 59; 90; 120; 151; 181; 212; 243; 273; 304; 334] 0
  + (if (2 <? m) && is_leap y then 1 else 0).

(** [d.toordinal()]. *)
Definition toordinal (d : datetime) : Z :=
  days_before_year (year d) + days_before_month (year d) (month d) + day d.

(** Microseconds since the start of the proleptic calendar. *)
Definition to_microseconds (d : datetime) : Z :=
  (((toordinal d * 24 + hour d) * 60 + minute d) * 60 + second d) * 1000000
  + microsecond d.

(** [(a - b).total_seconds()]. *)
Definition total_seconds_between (a b : datetime) : Q :=
  (to_microseconds a - to_microseconds b) # 1000000.

Definition datetime_fields (d : datetime) : list Z :=
  [year d; month d; day d; hour d; minute d; second d; microsecond d].

Fixpoint lex_leb (a b : list Z) : bool :=
  match a, b with
  | [], _ => true
  | _ :: _, [] => false
  | x :: a', y :: b' => (x <? y) || ((x =? y) && lex_leb a' b')
  end.

(** [a <= b] on naive datetimes: the fields compared in order. *)
Definition datetime_leb (a b : datetime) : bool :=
  lex_leb (datetime_fields a) (datetime_fields b).

(** [d.replace(hour=h)]: the constructor re-validates the field. *)
Definition replace_hour (d : datetime) (h : Z) : outcome datetime :=
  if (0 <=? h) && (h <=? 23) then
    Ok (mk_datetime (year d) (month d) (day d) h (minute d) (second d)
                    (microsecond d))
  else Raise (ValueError "hour must be in 0..23").

Definition zero_pad (width : nat) (n : Z) : string :=
  let s := pretty (Z.to_N n) in
  String.concat "" (repeat "0"%string (width - String.length s)) +:+ s.

(** [d.strftime("%Y%m%d%H")]. *)
Definition hour_key (d : datetime) : string :=
  zero_pad 4 (year d) +:+ zero_pad 2 (month d) +:+ zero_pad 2 (day d)
  +:+ zero_pad 2 (hour d).

(** ** Python containers *)

(** A [dict] with string keys, in insertion order. *)
Fixpoint dict_get {V} (k : string) (d : list (string * V)) : option V :=
  match d with
  | [] => None
  | (k', v) :: d' => if String.eqb k k' then Some v else dict_get k d'
  end.

(** [d[k] = v]: an existing key keeps its position, a new key goes last. *)
Fixpoint dict_set {V} (k : string) (v : V) (d : list (string * V))
  : list (string * V) :=
  match d with
  | [] => [(k, v)]
  | (k', v') :: d' =>
      if String.eqb k k' then (k', v) :: d' else (k', v') :: dict_set k v d'
  end.

(** [del d[k]] for a key that is present. *)
Fixpoint dict_del {V} (k : string) (d : list (string * V))
  : list (string * V) :=
  match d with
  | [] => []
  | (k', v') :: d' =>
      if String.eqb k k' then d' else (k', v') :: dict_del k d'
  end.

(** A method call that mutates the object stored under [k]; the dictionary
    itself is not assigned to. *)
Fixpoint dict_update {V} (k : string) (f : V -> V) (d : list (string * V))
  : list (string * V) :=
  match d with
  | [] => []
  | (k', v') :: d' =>
      if String.eqb k k' then (k', f v') :: d' else (k', v') :: dict_update k f d'
  end.

Definition dict_keys {V} (d : list (string * V)) : list string := map fst d.

(** [len(d)] *)
Definition dict_len {V} (d : list (string * V)) : Z := Z.of_nat (length d).

(** [l.remove(x)]: drops the first occurrence, fails when there is none. *)
Fixpoint list_remove (x : string) (l : list string) : option (list string) :=
  match l with
  | [] => None
  | y :: l' =>
      if String.eqb x y then Some l'
      else match list_remove x l' with
           | Some r => Some (y :: r)
           | None => None
           end
  end.

(** [defaultdict(set)]: reading [idx[k]] gives the bucket (empty when the
    key is new) and leaves the key in the dictionary. *)
Section Defaultdict.
Context {K : Type} `{Countable K}.

Definition dd_bucket (k : K) (idx : gmap K (gset string)) : gset string :=
  default ∅ (idx !! k).

Definition dd_touch (k : K) (idx : gmap K (gset string))
  : gmap K (gset string) :=
  <[k := dd_bucket k idx]> idx.

(** [idx[k].add(x)] *)
Definition dd_add (k : K) (x : string) (idx : gmap K (gset string))
  : gmap K (gset string) :=
  <[k := dd_bucket k idx ∪ {[x]}]> idx.

(** [idx[k].discard(x)] *)
Definition dd_discard (k : K) (x : string) (idx : gmap K (gset string))
  : gmap K (gset string) :=
  <[k := dd_bucket k idx ∖ {[x]}]> idx.

(** [for k in ks: acc.update(idx[k])]: the union of the buckets, and the
    dictionary with every key read. *)
Fixpoint dd_union (ks : list K) (acc : gset string)
         (idx : gmap K (gset string))
  : gset string * gmap K (gset string) :=
  match ks with
  | [] => (acc, idx)
  | k :: ks' => dd_union ks' (acc ∪ dd_bucket k idx) (dd_touch k idx)
  end.
End Defaultdict.

(** [hash(s)] on strings: fixed within one interpreter run, equal on equal
    strings, otherwise unspecified. *)
Class StringHash : Type := { py_hash : string -> Z }.

(** Iteration over a Python [set] visits its elements in an order fixed by
    the interpreter's hash table, not by the program. *)
Class SetIteration : Type := {
  set_iter : gset string -> list string;
  set_iter_perm : forall s, set_iter s ≡ₚ elements s
}.

(** [list.sort(key=...)] and [sorted(..., key=...)]: the stable sort, here
    by insertion from the right; [leb a b] says [key a <= key b]. *)
Section StableSort.
Context {A : Type} (leb : A -> A -> bool).

Fixpoint sort_insert (x : A) (l : list A) : list A :=
  match l with
  | [] => [x]
  | y :: l' => if leb x y then x :: y :: l' else y :: sort_insert x l'
  end.

Definition stable_sort (l : list A) : list A := foldr sort_insert [] l.
End StableSort.

(** ** Records and queries *)

Record MemoryTrace : Type := mk_trace {
  content : string;
  timestamp : datetime;
  importance : Q;
  emotional_valence : Q;
  context : gmap string string;
  tags : gset string;
  retrieval_count : Z;
  last_accessed : option datetime;
  associations : list string  (* [None] is read as the empty list *)
}.

Definition set_associations (l : list string) (m : MemoryTrace) : MemoryTrace :=
  mk_trace (content m) (timestamp m) (importance m) (emotional_valence m)
           (context m) (tags m) (retrieval_count m) (last_accessed m) l.

Definition mark_retrieved (now : datetime) (m : MemoryTrace) : MemoryTrace :=
  mk_trace (content m) (timestamp m) (importance m) (emotional_valence m)
           (context m) (tags m) (retrieval_count m + 1) (Some now)
           (associations m).

(** [MemoryTrace.__post_init__]: the checks on values, in source order (the
    [isinstance] checks hold by typing). *)
Definition MemoryTrace_post_init (m : MemoryTrace) : outcome MemoryTrace :=
  if String.eqb (content m) "" then
    Raise (ValueError "Content must be a non-empty string")
  else if negb (Qle_bool 0 (importance m) && Qle_bool (importance m) 1) then
    Raise (ValueError "Importance must be a float between 0 and 1")
  else if negb (Qle_bool (-1) (emotional_valence m)
                && Qle_bool (emotional_valence m) 1) then
    Raise (ValueError "Emotional valence must be a float between -1 and 1")
  else if retrieval_count m <? 0 then
    Raise (ValueError "Retrieval count cannot be negative")
  else Ok m.

Record MemoryQuery : Type := mk_query {
  q_content : option string;
  q_context : option (gmap string string);
  q_time_range : option (datetime * datetime);
  q_tags : option (gset string);
  q_emotional_range : option (Q * Q);
  q_importance_threshold : option Q
}.

Record MemoryNetwork : Type := mk_network {
  memories : list (string * MemoryTrace);
  capacity : Z;
  context_index : gmap string (gset string);
  temporal_index : gmap string (gset string);
  emotional_index : gmap Z (gset string);  (* key [k] stands for [k / 10] *)
  tag_index : gmap string (gset string);
  importance_threshold : Q;
  association_strength : gmap (string * string) Q
}.

(** [MemoryNetwork(capacity)] *)
Definition MemoryNetwork_init (capacity : Z) : MemoryNetwork :=
  mk_network [] capacity ∅ ∅ ∅ ∅ (3 # 10) ∅.

Definition set_memories (ms : list (string * MemoryTrace)) (n : MemoryNetwork) :=
  mk_network ms (capacity n) (context_index n) (temporal_index n)
             (emotional_index n) (tag_index n) (importance_threshold n)
             (association_strength n).

Definition set_context_index (i : gmap string (gset string)) (n : MemoryNetwork) :=
  mk_network (memories n) (capacity n) i (temporal_index n)
             (emotional_index n) (tag_index n) (importance_threshold n)
             (association_strength n).

Definition set_temporal_index (i : gmap string (gset string)) (n : MemoryNetwork) :=
  mk_network (memories n) (capacity n) (context_index n) i
             (emotional_index n) (tag_index n) (importance_threshold n)
             (association_strength n).

Definition set_emotional_index (i : gmap Z (gset string)) (n : MemoryNetwork) :=
  mk_network (memories n) (capacity n) (context_index n) (temporal_index n)
             i (tag_index n) (importance_threshold n)
             (association_strength n).

Definition set_tag_index (i : gmap string (gset string)) (n : MemoryNetwork) :=
  mk_network (memories n) (capacity n) (context_index n) (temporal_index n)
             (emotional_index n) i (importance_threshold n)
             (association_strength n).

Definition set_association_strength (a : gmap (string * string) Q)
           (n : MemoryNetwork) :=
  mk_network (memories n) (capacity n) (context_index n) (temporal_index n)
             (emotional_index n) (tag_index n) (importance_threshold n) a.

(** ** Methods run on the store and may raise *)

Definition M (A : Type) : Type := MemoryNetwork -> outcome A * MemoryNetwork.

Definition ret {A} (a : A) : M A := fun s => (Ok a, s).
Definition raise {A} (e : exn) : M A := fun s => (Raise e, s).
Definition bind {A B} (m : M A) (f : A -> M B) : M B :=
  fun s => match m s with
           | (Ok a, s') => f a s'
           | (Raise e, s') => (Raise e, s')
           end.
Definition get : M MemoryNetwork := fun s => (Ok s, s).
Definition modify (f : MemoryNetwork -> MemoryNetwork) : M unit :=
  fun s => (Ok tt, f s).
Definition lift {A} (o : outcome A) : M A := fun s => (o, s).

Notation "x <- m ;; k" := (bind m (fun x => k))
  (at level 100, m at next level, right associativity).
Notation "m ;;; k" := (bind m (fun _ => k))
  (at level 100, right associativity).

(** [for x in l: body(x)] *)
Fixpoint for_each {A} (l : list A) (body : A -> M unit) : M unit :=
  match l with
  | [] => ret tt
  | x :: l' => body x ;;; for_each l' body
  end.

(** ** [MemoryNetwork]: storing *)

(** [for context_key, context_value in ctx.items()]: the index keys
    [f"{context_key}:{context_value}"]. *)
Definition context_keys (ctx : gmap string string) : list string :=
  map (fun kv : string * string => kv.1 +:+ ":" +:+ kv.2) (map_to_list ctx).

(** [round(memory.emotional_valence * 10) / 10], as a number of tenths. *)
Definition emotion_key (v : Q) : Z := py_round (v * 10).

Definition _update_indices (memory_id : string) (memory : MemoryTrace)
  : M unit :=
  modify (fun n =>
    set_context_index
      (foldl (fun idx k => dd_add k memory_id idx) (context_index n)
             (context_keys (context memory))) n) ;;;
  modify (fun n =>
    set_temporal_index
      (dd_add (hour_key (timestamp memory)) memory_id (temporal_index n)) n) ;;;
  modify (fun n =>
    set_emotional_index
      (dd_add (emotion_key (emotional_valence memory)) memory_id
              (emotional_index n)) n) ;;;
  modify (fun n =>
    set_tag_index
      (foldl (fun idx t => dd_add t memory_id idx) (tag_index n)
             (elements (tags memory))) n).

(** [set(memory1.context.items()) & set(memory2.context.items())] *)
Definition shared_context (m1 m2 : MemoryTrace) : gset (string * string) :=
  list_to_set (map_to_list (context m1)) ∩ list_to_set (map_to_list (context m2)).

Definition len {C} `{Size C} (c : C) : Z := Z.of_nat (size c).

Definition context_similarity (m1 m2 : MemoryTrace) : outcome Q :=
  py_div (inject_Z (len (shared_context m1 m2)))
         (inject_Z (Z.max (len (context m1)) (len (context m2)))).

Definition truthy_set (s : gset string) : bool := negb (size s =? 0)%nat.

Definition tag_similarity (m1 m2 : MemoryTrace) : outcome Q :=
  if truthy_set (tags m1) && truthy_set (tags m2) then
    py_div (inject_Z (len (tags m1 ∩ tags m2)))
           (inject_Z (Z.max (len (tags m1)) (len (tags m2))))
  else Ok 0%Q.

Definition temporal_similarity (m1 m2 : MemoryTrace) : outcome Q :=
  let time_diff := Qabs (total_seconds_between (timestamp m1) (timestamp m2)) in
  py_div 1 (1 + time_diff / 3600)%Q.

Definition emotional_similarity (m1 m2 : MemoryTrace) : Q :=
  (1 - Qabs (emotional_valence m1 - emotional_valence m2))%Q.

Definition outcome_bind {A B} (o : outcome A) (f : A -> outcome B) : outcome B :=
  match o with Ok a => f a | Raise e => Raise e end.

Definition _calculate_association_strength (memory1 memory2 : MemoryTrace)
  : outcome Q :=
  outcome_bind (context_similarity memory1 memory2) (fun context_sim =>
  outcome_bind (tag_similarity memory1 memory2) (fun tag_sim =>
  outcome_bind (temporal_similarity memory1 memory2) (fun temporal_sim =>
  let emotional_sim := emotional_similarity memory1 memory2 in
  Ok ((3 # 10) * context_sim + (3 # 10) * tag_sim
      + (2 # 10) * temporal_sim + (2 # 10) * emotional_sim)%Q))).

(** [a > b] on floats *)
Definition Qgtb (a b : Q) : bool := negb (Qle_bool a b).

(** [obj.associations.append(x)] for the object stored under [id]. *)
Definition append_association (id x : string) (n : MemoryNetwork)
  : MemoryNetwork :=
  set_memories
    (dict_update id (fun m => set_associations (associations m ++ [x]) m)
                 (memories n)) n.

(** One round of the loop of [_create_associations]; [memory] is the object
    stored under [memory_id]. *)
Definition associate_with (memory_id : string) (memory : MemoryTrace)
           (other_id : string) : M unit :=
  if String.eqb other_id memory_id then ret tt
  else
    n <- get ;;
    match dict_get other_id (memories n) with
    | None => ret tt
    | Some other_memory =>
        strength <- lift (_calculate_association_strength memory other_memory) ;;
        if Qgtb strength (3 # 10) then
          modify (append_association memory_id other_id) ;;;
          modify (append_association other_id memory_id) ;;;
          modify (fun n => set_association_strength
                    (<[(memory_id, other_id) := strength]>
                       (association_strength n)) n) ;;;
          modify (fun n => set_association_strength
                    (<[(other_id, memory_id) := strength]>
                       (association_strength n)) n)
        else ret tt
    end.

Definition _create_associations (memory_id : string) (memory : MemoryTrace)
  : M unit :=
  n <- get ;;
  for_each (dict_keys (memories n)) (associate_with memory_id memory).

(** ** [MemoryNetwork]: evicting *)

(** [del self.association_strength[key]] *)
Definition del_strength (key : string * string) : M unit :=
  n <- get ;;
  if decide (key ∈ dom (association_strength n)) then
    modify (fun n => set_association_strength
              (delete key (association_strength n)) n)
  else raise KeyError.

(** One round of the loop of [_remove_memory]: the block under
    [if associated_id in self.memories]. *)
Definition unlink (memory_id associated_id : string) : M unit :=
  n <- get ;;
  match dict_get associated_id (memories n) with
  | None => ret tt
  | Some other =>
      match list_remove memory_id (associations other) with
      | None => raise (ValueError "list.remove(x): x not in list")
      | Some l =>
          modify (fun n => set_memories
                    (dict_update associated_id (set_associations l)
                                 (memories n)) n) ;;;
          del_strength (memory_id, associated_id) ;;;
          del_strength (associated_id, memory_id)
      end
  end.

(** The loop [for associated_id in memory.associations] of [_remove_memory]:
    a list iterator is a position in the live list of the object stored
    under [memory_id]; the list never grows in the loop, so its first
    length bounds the rounds. *)
Fixpoint remove_associations (fuel : nat) (i : nat) (memory_id : string)
  : M unit :=
  match fuel with
  | O => ret tt
  | S fuel' =>
      n <- get ;;
      match dict_get memory_id (memories n) with
      | None => ret tt
      | Some memory =>
          match associations memory !! i with
          | None => ret tt
          | Some associated_id =>
              unlink memory_id associated_id ;;;
              remove_associations fuel' (S i) memory_id
          end
      end
  end.

Definition _remove_memory (memory_id : string) : M unit :=
  n <- get ;;
  match dict_get memory_id (memories n) with
  | None => raise KeyError
  | Some memory =>
      modify (fun n =>
        set_context_index
          (foldl (fun idx k => dd_discard k memory_id idx) (context_index n)
                 (context_keys (context memory))) n) ;;;
      modify (fun n =>
        set_temporal_index
          (dd_discard (hour_key (timestamp memory)) memory_id
                      (temporal_index n)) n) ;;;
      modify (fun n =>
        set_emotional_index
          (dd_discard (emotion_key (emotional_valence memory)) memory_id
                      (emotional_index n)) n) ;;;
      modify (fun n =>
        set_tag_index
          (foldl (fun idx t => dd_discard t memory_id idx) (tag_index n)
                 (elements (tags memory))) n) ;;;
      remove_associations (length (associations memory)) 0 memory_id ;;;
      modify (fun n => set_memories (dict_del memory_id (memories n)) n)
  end.

(** The score of one record in [_manage_capacity]. *)
Definition eviction_score (now : datetime) (memory : MemoryTrace) : outcome Q :=
  outcome_bind
    (py_div 1 (1 + total_seconds_between now (timestamp memory))%Q)
    (fun time_factor =>
       Ok (importance memory * (4 # 10) + time_factor * (3 # 10)
           + (inject_Z (retrieval_count memory) / 10) * (3 # 10))%Q).

(** [memory_scores]: one entry per record, in the order of [self.memories]. *)
Fixpoint memory_scores (now : datetime) (ms : list (string * MemoryTrace))
  : outcome (list (string * Q)) :=
  match ms with
  | [] => Ok []
  | (memory_id, memory) :: ms' =>
      outcome_bind (eviction_score now memory) (fun score =>
      outcome_bind (memory_scores now ms') (fun rest =>
      Ok ((memory_id, score) :: rest)))
  end.

Definition score_leb (a b : string * Q) : bool := Qle_bool a.2 b.2.

Definition _manage_capacity (now : datetime) : M unit :=
  n <- get ;;
  if capacity n <? dict_len (memories n) then
    scores <- lift (memory_scores now (memories n)) ;;
    let memories_to_remove :=
      take (Z.to_nat (dict_len (memories n) - capacity n))
           (stable_sort score_leb scores) in
    for_each memories_to_remove (fun x => _remove_memory x.1)
  else ret tt.

Definition memory_id_of `{StringHash} (n : MemoryNetwork) (memory : MemoryTrace)
  : string :=
  "mem_" +:+ pretty (dict_len (memories n)) +:+ "_"
  +:+ pretty (py_hash (content memory)).

Definition store_memory `{StringHash} (now : datetime) (memory : MemoryTrace)
  : M string :=
  n <- get ;;
  let memory_id := memory_id_of n memory in
  modify (fun n => set_memories (dict_set memory_id memory (memories n)) n) ;;;
  _update_indices memory_id memory ;;;
  _create_associations memory_id memory ;;;
  _manage_capacity now ;;;
  ret memory_id.

(** The way every caller stores: build the record, which validates it, then
    pass it to [store_memory]. *)
Definition construct_and_store `{StringHash} (now : datetime)
           (fields : MemoryTrace) : M string :=
  memory <- lift (MemoryTrace_post_init fields) ;;
  store_memory now memory.

(** ** [MemoryNetwork]: retrieving *)

Definition truthy_str (s : string) : bool := negb (String.eqb s "").

(** The identifiers of the records that satisfy [p]: a set comprehension
    over [self.memories.items()]. *)
Definition ids_where (p : MemoryTrace -> bool) (ms : list (string * MemoryTrace))
  : gset string :=
  list_to_set (map fst (List.filter (fun im : string * MemoryTrace => p im.2) ms)).

Definition filter_content (query : MemoryQuery) (candidate_memories : gset string)
  : M (gset string) :=
  match q_content query with
  | Some qc =>
      if truthy_str qc then
        n <- get ;;
        let content_matches :=
          ids_where (fun memory => py_in_str (lower qc) (lower (content memory)))
                    (memories n) in
        ret (candidate_memories ∩ content_matches)
      else ret candidate_memories
  | None => ret candidate_memories
  end.

Definition filter_context (query : MemoryQuery) (candidate_memories : gset string)
  : M (gset string) :=
  match q_context query with
  | Some ctx =>
      if negb (size ctx =? 0)%nat then
        n <- get ;;
        let r := dd_union (context_keys ctx) ∅ (context_index n) in
        modify (set_context_index r.2) ;;;
        ret (candidate_memories ∩ r.1)
      else ret candidate_memories
  | None => ret candidate_memories
  end.

(** The [while current_time <= end_time] loop.  Each round raises the hour
    by one and [replace] accepts hours up to 23 only, so 25 rounds are never
    all used. *)
Fixpoint time_scan (fuel : nat) (current_time end_time : datetime)
         (temporal_matches : gset string) : M (gset string) :=
  match fuel with
  | O => ret temporal_matches
  | S fuel' =>
      if datetime_leb current_time end_time then
        n <- get ;;
        let hk := hour_key current_time in
        modify (fun n => set_temporal_index (dd_touch hk (temporal_index n)) n) ;;;
        next <- lift (replace_hour current_time (hour current_time + 1)) ;;
        time_scan fuel' next end_time
                  (temporal_matches ∪ dd_bucket hk (temporal_index n))
      else ret temporal_matches
  end.

Definition filter_time_range (query : MemoryQuery)
           (candidate_memories : gset string) : M (gset string) :=
  match q_time_range query with
  | Some (start_time, end_time) =>
      temporal_matches <- time_scan 25 start_time end_time ∅ ;;
      ret (candidate_memories ∩ temporal_matches)
  | None => ret candidate_memories
  end.

Definition filter_tags (query : MemoryQuery) (candidate_memories : gset string)
  : M (gset string) :=
  match q_tags query with
  | Some ts =>
      if truthy_set ts then
        n <- get ;;
        let r := dd_union (elements ts) ∅ (tag_index n) in
        modify (set_tag_index r.2) ;;;
        ret (candidate_memories ∩ r.1)
      else ret candidate_memories
  | None => ret candidate_memories
  end.

Definition filter_emotional_range (query : MemoryQuery)
           (candidate_memories : gset string) : M (gset string) :=
  match q_emotional_range query with
  | Some (min_val, max_val) =>
      n <- get ;;
      let keys := map (fun val : Q => py_round (val * 10))
                      (np_arange min_val (max_val + (1 # 10)) (1 # 10)) in
      let r := dd_union keys ∅ (emotional_index n) in
      modify (set_emotional_index r.2) ;;;
      ret (candidate_memories ∩ r.1)
  | None => ret candidate_memories
  end.

Definition filter_importance (query : MemoryQuery)
           (candidate_memories : gset string) : M (gset string) :=
  match q_importance_threshold query with
  | Some threshold =>
      n <- get ;;
      ret (candidate_memories
           ∩ ids_where (fun memory => Qle_bool threshold (importance memory))
                       (memories n))
  | None => ret candidate_memories
  end.

(** [[(memory_id, self.memories[memory_id]) for memory_id in ids]] *)
Fixpoint collect_results (ids : list string) : M (list (string * MemoryTrace)) :=
  match ids with
  | [] => ret []
  | memory_id :: ids' =>
      n <- get ;;
      match dict_get memory_id (memories n) with
      | None => raise KeyError
      | Some memory =>
          rest <- collect_results ids' ;;
          ret ((memory_id, memory) :: rest)
      end
  end.

(** [key a <= key b] for [key = lambda x: (-x[1].importance,
    -x[1].retrieval_count)], tuples compared component by component. *)
Definition relevance_leb (a b : string * MemoryTrace) : bool :=
  match (- importance a.2 ?= - importance b.2)%Q with
  | Lt => true
  | Gt => false
  | Eq => - retrieval_count a.2 <=? - retrieval_count b.2
  end.

(** [memory.retrieval_count += 1; memory.last_accessed = datetime.now()] on
    the object stored under [memory_id]. *)
Definition touch_memory (now : datetime) (memory_id : string)
           (n : MemoryNetwork) : MemoryNetwork :=
  set_memories (dict_update memory_id (mark_retrieved now) (memories n)) n.

(** The filters of [retrieve_memories], applied in source order to the set
    of all keys. *)
Definition select_candidates (query : MemoryQuery) : M (gset string) :=
  n <- get ;;
  let candidate_memories : gset string := list_to_set (dict_keys (memories n)) in
  candidate_memories <- filter_content query candidate_memories ;;
  candidate_memories <- filter_context query candidate_memories ;;
  candidate_memories <- filter_time_range query candidate_memories ;;
  candidate_memories <- filter_tags query candidate_memories ;;
  candidate_memories <- filter_emotional_range query candidate_memories ;;
  filter_importance query candidate_memories.

(** The returned pairs hold the stored objects themselves, so the caller
    sees them as the final loop left them. *)
Definition retrieve_memories `{SetIteration} (now : datetime)
           (query : MemoryQuery) : M (list (string * MemoryTrace)) :=
  candidate_memories <- select_candidates query ;;
  results <- collect_results (set_iter candidate_memories) ;;
  let results := stable_sort relevance_leb results in
  for_each results (fun r => modify (touch_memory now r.1)) ;;;
  ret (map (fun r : string * MemoryTrace => (r.1, mark_retrieved now r.2)) results).

(** ** [MemoryNetwork]: associated records and statistics *)

(** [self.association_strength[key]] read on a [defaultdict(float)]: a
    missing key is created with the value [0.0]. *)
Definition read_strength (key : string * string) : M Q :=
  n <- get ;;
  match association_strength n !! key with
  | Some strength => ret strength
  | None =>
      modify (fun n => set_association_strength
                (<[key := 0%Q]> (association_strength n)) n) ;;;
      ret 0%Q
  end.

(** The list comprehension of [get_associated_memories]: for each
    [other_id] the condition reads the strength, and the pair reads it
    again when the condition holds. *)
Fixpoint strong_associations (memory_id : string) (strength_threshold : Q)
         (others : list string) : M (list (string * Q)) :=
  match others with
  | [] => ret []
  | other_id :: others' =>
      strength <- read_strength (memory_id, other_id) ;;
      if Qle_bool strength_threshold strength then
        strength <- read_strength (memory_id, other_id) ;;
        rest <- strong_associations memory_id strength_threshold others' ;;
        ret ((other_id, strength) :: rest)
      else strong_associations memory_id strength_threshold others'
  end.

(** [key a <= key b] for [key = lambda x: -x[1]]. *)
Definition strength_desc_leb (a b : string * Q) : bool :=
  Qle_bool (- a.2) (- b.2).

(** [l[:k]]: the first [k] items, or all but the last [-k] for a negative
    [k]. *)
Definition py_slice_to {A} (k : Z) (l : list A) : list A :=
  if 0 <=? k then take (Z.to_nat k) l
  else take (Z.to_nat (Z.of_nat (length l) + k)) l.

Definition get_associated_memories (memory_id : string)
           (strength_threshold : Q) (max_results : Z)
  : M (list (string * Q)) :=
  n <- get ;;
  match dict_get memory_id (memories n) with
  | None => ret []
  | Some memory =>
      associations <- strong_associations memory_id strength_threshold
                                          (associations memory) ;;
      ret (py_slice_to max_results
                       (stable_sort strength_desc_leb associations))
  end.

(** [np.mean(l)]: the sum over the length; [None] stands for the [nan]
    that numpy gives, with a warning, on an empty list.  The value is the
    exact mean; numpy adds and divides in doubles, so its result is this
    value up to rounding, and only the case distinction is used below. *)
Definition Qsum (l : list Q) : Q := foldr Qplus 0%Q l.

Definition np_mean (l : list Q) : option Q :=
  match l with
  | [] => None
  | _ :: _ => Some (Qsum l / inject_Z (Z.of_nat (length l)))%Q
  end.

(** [a < b] on naive datetimes. *)
Definition datetime_ltb (a b : datetime) : bool := negb (datetime_leb b a).

(** [min(it)] and [max(it)] on a non-empty iterable: the first item is
    kept until a strictly smaller (greater) one comes. *)
Definition py_min_from (best : datetime) (l : list datetime) : datetime :=
  foldl (fun best item => if datetime_ltb item best then item else best) best l.

Definition py_max_from (best : datetime) (l : list datetime) : datetime :=
  foldl (fun best item => if datetime_ltb best item then item else best) best l.

(** The dictionary returned by [get_memory_statistics], one field per
    key. *)
Record MemoryStatistics : Type := mk_statistics {
  total_memories : Z;
  average_importance : option Q;
  average_retrieval_count : option Q;
  total_associations : Z;
  memory_age_range : option (datetime * datetime)
}.

Definition get_memory_statistics (n : MemoryNetwork) : MemoryStatistics :=
  let values := map snd (memories n) in
  mk_statistics
    (dict_len (memories n))
    (np_mean (map importance values))
    (np_mean (map (fun m => inject_Z (retrieval_count m)) values))
    (foldr Z.add 0 (map (fun m => Z.of_nat (length (associations m))) values)
     / 2)
    (match map timestamp values with
     | [] => None
     | t :: ts => Some (py_min_from t ts, py_max_from t ts)
     end).

(** ** Interpreters, sample data and store operations used below *)

(** Sets iterated in the order of [elements], and in the opposite order. *)
#[local] Instance iter_elements : SetIteration :=
  {| set_iter := elements; set_iter_perm := fun s => reflexivity (elements s) |}.

Definition iter_reversed : SetIteration :=
  {| set_iter := fun s => reverse (elements s);
     set_iter_perm := fun s => reverse_Permutation (elements s) |}.

(** A hash of strings by their characters. *)
Fixpoint char_hash (s : string) (h : Z) : Z :=
  match s with
  | EmptyString => h
  | String c s' => char_hash s' (h * 31 + Z.of_nat (nat_of_ascii c))
  end.

#[local] Instance sample_hash : StringHash := {| py_hash s := char_hash s 0 |}.

(** Sample records: January 2024, one context pair, given tags. *)
Definition at_day (d h : Z) : datetime := mk_datetime 2024 1 d h 0 0 0.

Definition sample_record (c : string) (t : datetime) (imp v : Q)
           (ctx_key ctx_val : string) (tg : gset string) : MemoryTrace :=
  mk_trace c t imp v (<[ctx_key := ctx_val]> ∅) tg 0 None [].

Definition sample_now : datetime := at_day 10 0.

Definition happy : MemoryTrace :=
  sample_record "won" (at_day 1 10) (1 # 2) 1 "place" "home" ∅.
Definition sad : MemoryTrace :=
  sample_record "lost" (at_day 1 10) (1 # 2) (-1) "place" "home" ∅.

(** Fields that [__post_init__] rejects: an importance of 1.5. *)
Definition overrated : MemoryTrace :=
  sample_record "Test" (at_day 1 10) (3 # 2) 0 "place" "home" ∅.

(** A record that has been returned by twenty queries. *)
Definition busy : MemoryTrace :=
  mk_trace "busy" (at_day 1 10) (1 # 2) 0 (<["place" := "home"]> ∅) ∅ 20 None [].

(** Five records for a store of capacity 2; [clash] repeats the content of
    [followup]. *)
Definition old_note : MemoryTrace :=
  sample_record "a" (at_day 1 10) (1 # 10) 0 "k" "a" ∅.
Definition meeting : MemoryTrace :=
  sample_record "b" (at_day 2 10) (9 # 10) (1 # 2) "loc" "x" {["t"]}.
Definition followup : MemoryTrace :=
  sample_record "c" (at_day 2 10) (9 # 10) (1 # 2) "loc" "x" {["t"]}.
Definition clash : MemoryTrace :=
  sample_record "c" (at_day 5 10) (1 # 20) (-1) "loc" "y" {["u"]}.
Definition later : MemoryTrace :=
  sample_record "e" (at_day 6 10) (8 # 10) 0 "loc" "z" {["v"]}.

(** Records for a store of capacity 2 in which the least important record
    is the linked one: [minor_meeting] is [meeting] with importance 0.5, and
    [revision] repeats the content of [followup] with a high importance. *)
Definition minor_meeting : MemoryTrace :=
  sample_record "b" (at_day 2 10) (1 # 2) (1 # 2) "loc" "x" {["t"]}.
Definition revision : MemoryTrace :=
  sample_record "c" (at_day 5 10) (9 # 10) (-1) "loc" "y" {["u"]}.

(** A record formed half an hour after midnight of January 2nd, and the
    query for the records between 23:00 and 01:00 around that midnight. *)
Definition midnight_note : MemoryTrace :=
  sample_record "m" (mk_datetime 2024 1 2 0 30 0 0) (1 # 2) 0 "loc" "x" ∅.
Definition night_query : MemoryQuery :=
  mk_query None None (Some (at_day 1 23, at_day 2 1)) None None None.

(** A record formed at 11:10, and the query for the records between 10:30
    and 11:15 of that day. *)
Definition late_morning_note : MemoryTrace :=
  sample_record "n" (mk_datetime 2024 1 3 11 10 0 0) (1 # 2) 0 "loc" "x" ∅.
Definition morning_query : MemoryQuery :=
  mk_query None None
           (Some (mk_datetime 2024 1 3 10 30 0 0, mk_datetime 2024 1 3 11 15 0 0))
           None None None.

(** Successive calls [store_memory(MemoryTrace(...))], stopping at the first
    exception. *)
Fixpoint store_each `{StringHash} (now : datetime) (l : list MemoryTrace)
  : M (list string) :=
  match l with
  | [] => ret []
  | fields :: l' =>
      memory_id <- construct_and_store now fields ;;
      rest <- store_each now l' ;;
      ret (memory_id :: rest)
  end.

(** A caller that stores one record after another, going on after a call
    that raised, with the clock reading of each call. *)
Fixpoint store_all `{StringHash} (calls : list (datetime * MemoryTrace))
         (n : MemoryNetwork) : MemoryNetwork :=
  match calls with
  | [] => n
  | (now, fields) :: calls' =>
      store_all calls' (construct_and_store now fields n).2
  end.

(** Views of a store for display. *)
Definition association_lists (n : MemoryNetwork) : list (string * list string) :=
  map (fun im : string * MemoryTrace => (im.1, associations im.2)) (memories n).

Definition sample_calls : list (datetime * MemoryTrace) :=
  [(sample_now, old_note); (sample_now, meeting); (sample_now, followup);
   (sample_now, clash)].

(** The stores reached by the calls above. *)
Definition store_with_midnight_note : MemoryNetwork :=
  (construct_and_store sample_now midnight_note (MemoryNetwork_init 10)).2.

Definition store_with_late_morning_note : MemoryNetwork :=
  (construct_and_store sample_now late_morning_note (MemoryNetwork_init 10)).2.

Definition store_after_clash : MemoryNetwork :=
  (store_each sample_now [old_note; meeting; followup; clash]
              (MemoryNetwork_init 2)).2.

Definition store_after_later : MemoryNetwork :=
  (store_each sample_now [old_note; meeting; followup; clash; later]
              (MemoryNetwork_init 2)).2.

Definition store_after_revision : MemoryNetwork :=
  (store_each sample_now [old_note; minor_meeting; followup; revision]
              (MemoryNetwork_init 2)).2.

(** Two records without context, and the store of capacity 1 after the
    calls that store them: the second call raises [ZeroDivisionError] before
    it manages the capacity, so both records are in the store. *)
Definition bare_note : MemoryTrace :=
  mk_trace "p" (at_day 1 10) (1 # 2) 0 ∅ ∅ 0 None [].
Definition bare_reminder : MemoryTrace :=
  mk_trace "q" (at_day 2 10) (1 # 4) 0 ∅ ∅ 0 None [].

Definition overfull_store : MemoryNetwork :=
  store_all [(sample_now, bare_note); (sample_now, bare_reminder)]
            (MemoryNetwork_init 1).

(** A store of three records, two of them with the same importance, and the
    query for the records of importance 0.5 and above. *)
Definition sample_store : MemoryNetwork :=
  (store_each sample_now [meeting; followup; later] (MemoryNetwork_init 10)).2.

Definition important_query : MemoryQuery :=
  mk_query None None None None None (Some (1 # 2)).

(** The store after that query: the records it returned have been
    retrieved once. *)
Definition queried_store : MemoryNetwork :=
  (retrieve_memories sample_now important_query sample_store).2.


(** The value of a call that returned. *)
Definition returned_value {A} (o : outcome (list A)) : list A :=
  match o with Ok l => l | Raise _ => [] end.

(** The record stored under an identifier that is in the store. *)
Definition stored_record (x : string) (n : MemoryNetwork) : MemoryTrace :=
  match dict_get x (memories n) with
  | Some m => m
  | None => old_note
  end.

(** ** Vocabulary of the properties *)

(** Methods whose every run, returning or raising, takes the store to one
    related to it by [R]. *)
Definition steps {A} (R : relation MemoryNetwork) (m : M A) : Prop :=
  forall n, R n (m n).2.

(** The keys of [self.memories] and the capacity are as before. *)
Definition same_keys (n n' : MemoryNetwork) : Prop :=
  dict_keys (memories n') = dict_keys (memories n) /\ capacity n' = capacity n.

(** The capacity is as before. *)
Definition same_capacity (n n' : MemoryNetwork) : Prop :=
  capacity n' = capacity n.

Abbreviation keeps_keys := (steps same_keys).

(** Two entries of [self.memories] that filters cannot tell apart: same
    key, content and importance. *)
Definition same_record_view (a b : string * MemoryTrace) : Prop :=
  a.1 = b.1 /\ content a.2 = content b.2 /\ importance a.2 = importance b.2.

(** Two index dictionaries with the same bucket under every key; a key
    with an empty bucket and no key at all read the same. *)
Definition bucket_eq {K} `{Countable K} (i j : gmap K (gset string)) : Prop :=
  forall k, dd_bucket k i = dd_bucket k j.

Definition same_view (n n' : MemoryNetwork) : Prop :=
  Forall2 same_record_view (memories n) (memories n')
  /\ bucket_eq (context_index n) (context_index n')
  /\ bucket_eq (temporal_index n) (temporal_index n')
  /\ bucket_eq (emotional_index n) (emotional_index n')
  /\ bucket_eq (tag_index n) (tag_index n').

(** A method that cannot tell two stores with the same view apart: same
    outcome on both, and the final stores again have the same view. *)
Definition respects {A} (m : M A) : Prop :=
  forall n n', same_view n n' ->
               (m n).1 = (m n').1 /\ same_view (m n).2 (m n').2.

(** The filters after the first line of [select_candidates]. *)
Definition filter_chain (q : MemoryQuery) (c0 : gset string) : M (gset string) :=
  c <- filter_content q c0 ;; c <- filter_context q c ;;
  c <- filter_time_range q c ;; c <- filter_tags q c ;;
  c <- filter_emotional_range q c ;; filter_importance q c.

(** The filters leave the records alone and only create empty buckets. *)
Definition same_records (n n' : MemoryNetwork) : Prop :=
  memories n' = memories n
  /\ bucket_eq (context_index n) (context_index n')
  /\ bucket_eq (temporal_index n) (temporal_index n')
  /\ bucket_eq (emotional_index n) (emotional_index n')
  /\ bucket_eq (tag_index n) (tag_index n')
  /\ association_strength n' = association_strength n.

Abbreviation keeps_records := (steps same_records).

(** A query changes nothing that a query reads. *)
Abbreviation keeps_view := (steps same_view).

(** The pair handed back for a stored pair. *)
Definition returned (now : datetime) (r : string * MemoryTrace)
  : string * MemoryTrace := (r.1, mark_retrieved now r.2).

(** Importance descending, then retrieval count descending. *)
Definition by_relevance (a b : string * MemoryTrace) : Prop :=
  (importance b.2 < importance a.2)%Q
  \/ ((importance a.2 == importance b.2)%Q
      /\ retrieval_count b.2 <= retrieval_count a.2).

(** The records with importance [i] and retrieval count [k]. *)
Definition tied_at (i : Q) (k : Z) (x : string * MemoryTrace) : bool :=
  Qeq_bool (importance x.2) i && (retrieval_count x.2 =? k).

(** [len(self.memories[memory_id].associations)], 0 for an absent key. *)
Definition associations_len (memory_id : string) (n : MemoryNetwork) : nat :=
  match dict_get memory_id (memories n) with
  | Some m => length (associations m)
  | None => O
  end.

(** The list iterated by [_remove_memory] is no longer than before. *)
Definition no_longer (memory_id : string) (n n' : MemoryNetwork) : Prop :=
  (associations_len memory_id n' <= associations_len memory_id n)%nat.

(** The entries of identifier [x] in the store are those made for the
    record [m] stored under it: its index entries are under the keys of [m],
    its edges go both ways, once each, with both strengths stored. *)
Record consistent_for (x : string) (m : MemoryTrace) (n : MemoryNetwork)
  : Prop := {
  cf_keys : NoDup (dict_keys (memories n));
  cf_stored : dict_get x (memories n) = Some m;
  cf_context : forall k, x ∈ dd_bucket k (context_index n) ->
                         k ∈ context_keys (context m);
  cf_temporal : forall k, x ∈ dd_bucket k (temporal_index n) ->
                          k = hour_key (timestamp m);
  cf_emotional : forall k, x ∈ dd_bucket k (emotional_index n) ->
                           k = emotion_key (emotional_valence m);
  cf_tag : forall k, x ∈ dd_bucket k (tag_index n) -> k ∈ tags m;
  cf_own : NoDup (associations m) /\ x ∉ associations m;
  cf_peers : forall y my, y <> x -> dict_get y (memories n) = Some my ->
               NoDup (associations my)
               /\ (x ∈ associations my <-> y ∈ associations m);
  cf_strength_in : forall y, y ∈ associations m -> In y (dict_keys (memories n)) ->
                     (x, y) ∈ dom (association_strength n)
                     /\ (y, x) ∈ dom (association_strength n);
  cf_strength_only : forall y, ((x, y) ∈ dom (association_strength n))
                               \/ ((y, x) ∈ dom (association_strength n)) ->
                       y ∈ associations m /\ In y (dict_keys (memories n))
}.

(** No trace of identifier [x] is left in the store. *)
Definition forgotten (x : string) (n : MemoryNetwork) : Prop :=
  dict_get x (memories n) = None
  /\ (forall k, x ∉ dd_bucket k (context_index n))
  /\ (forall k, x ∉ dd_bucket k (temporal_index n))
  /\ (forall k, x ∉ dd_bucket k (emotional_index n))
  /\ (forall k, x ∉ dd_bucket k (tag_index n))
  /\ (forall y my, dict_get y (memories n) = Some my -> x ∉ associations my)
  /\ (forall y, ((x, y) ∉ dom (association_strength n))
                /\ ((y, x) ∉ dom (association_strength n))).

(** The state of the loop of [_remove_memory] with [rest] still to visit:
    the peers in [rest] are linked with [x], no other record is. *)
Definition unlinking (x : string) (m : MemoryTrace) (rest : list string)
           (s : MemoryNetwork) : Prop :=
  NoDup (dict_keys (memories s))
  /\ dict_get x (memories s) = Some m
  /\ (forall y my, y <> x -> dict_get y (memories s) = Some my ->
        (y ∈ rest -> NoDup (associations my) /\ x ∈ associations my)
        /\ (y ∉ rest -> x ∉ associations my))
  /\ (forall y,
        (y ∈ rest -> In y (dict_keys (memories s)) ->
         (x, y) ∈ dom (association_strength s)
         /\ (y, x) ∈ dom (association_strength s))
        /\ ((y ∉ rest) \/ ~ In y (dict_keys (memories s)) ->
            ((x, y) ∉ dom (association_strength s))
            /\ ((y, x) ∉ dom (association_strength s)))).

(** The four indices are as before. *)
Definition same_indices (n n' : MemoryNetwork) : Prop :=
  context_index n' = context_index n
  /\ temporal_index n' = temporal_index n
  /\ emotional_index n' = emotional_index n
  /\ tag_index n' = tag_index n.

(** The store as the association graph sees it: distinct keys, every
    association list without repeats and without its own key, edges in both
    directions between stored records, strengths stored for exactly the
    edges and equal in both directions, and index entries only for stored
    records under their own keys. *)
Record consistent (n : MemoryNetwork) : Prop := {
  co_keys : NoDup (dict_keys (memories n));
  co_nodup : forall x m, dict_get x (memories n) = Some m ->
               NoDup (associations m);
  co_irrefl : forall x m, dict_get x (memories n) = Some m ->
                x ∉ associations m;
  co_sym : forall x m y, dict_get x (memories n) = Some m ->
             y ∈ associations m ->
             exists my, dict_get y (memories n) = Some my /\ x ∈ associations my;
  co_strength : forall a b,
      (a, b) ∈ dom (association_strength n)
      <-> exists ma, dict_get a (memories n) = Some ma /\ b ∈ associations ma;
  co_strength_sym : forall a b,
      association_strength n !! (a, b) = association_strength n !! (b, a);
  co_context : forall z k, z ∈ dd_bucket k (context_index n) ->
      exists mz, dict_get z (memories n) = Some mz
                 /\ k ∈ context_keys (context mz);
  co_temporal : forall z k, z ∈ dd_bucket k (temporal_index n) ->
      exists mz, dict_get z (memories n) = Some mz
                 /\ k = hour_key (timestamp mz);
  co_emotional : forall z k, z ∈ dd_bucket k (emotional_index n) ->
      exists mz, dict_get z (memories n) = Some mz
                 /\ k = emotion_key (emotional_valence mz);
  co_tag : forall z k, z ∈ dd_bucket k (tag_index n) ->
      exists mz, dict_get z (memories n) = Some mz /\ k ∈ tags mz
}.

(** Two records that differ at most in their usage counters and their
    association lists. *)
Definition same_facts (m m' : MemoryTrace) : Prop :=
  content m' = content m /\ timestamp m' = timestamp m
  /\ importance m' = importance m
  /\ emotional_valence m' = emotional_valence m
  /\ context m' = context m /\ tags m' = tags m.

(** The association list without the identifier [x]. *)
Definition without (x : string) (l : list string) : list string :=
  List.filter (fun y => negb (String.eqb y x)) l.

(** What does not involve identifier [x] is as before: the other keys, the
    facts of their records, their association lists up to [x], the
    strengths of pairs without [x], the index entries of other
    identifiers. *)
Record frame (x : string) (n n' : MemoryNetwork) : Prop := {
  fr_keys : NoDup (dict_keys (memories n)) -> NoDup (dict_keys (memories n'));
  fr_records : forall y, y <> x ->
      match dict_get y (memories n), dict_get y (memories n') with
      | Some m, Some m' =>
          same_facts m m'
          /\ without x (associations m') = without x (associations m)
      | None, None => True
      | _, _ => False
      end;
  fr_strength : forall a b, a <> x -> b <> x ->
      association_strength n' !! (a, b) = association_strength n !! (a, b);
  fr_context : forall k z, z <> x ->
      (z ∈ dd_bucket k (context_index n') <-> z ∈ dd_bucket k (context_index n));
  fr_temporal : forall k z, z <> x ->
      (z ∈ dd_bucket k (temporal_index n') <-> z ∈ dd_bucket k (temporal_index n));
  fr_emotional : forall k z, z <> x ->
      (z ∈ dd_bucket k (emotional_index n') <-> z ∈ dd_bucket k (emotional_index n));
  fr_tag : forall k z, z <> x ->
      (z ∈ dd_bucket k (tag_index n') <-> z ∈ dd_bucket k (tag_index n))
}.

(** The store after a round of [_create_associations] that links the new
    identifier [i] with [y] at strength [v]. *)
Definition link (i y : string) (v : Q) (s : MemoryNetwork) : MemoryNetwork :=
  let s2 := append_association y i (append_association i y s) in
  set_association_strength
    (<[(y, i) := v]> (<[(i, y) := v]> (association_strength s2))) s2.

(** What a round adds to the association list stored under [z]. *)
Definition link_extra (i y z : string) : list string :=
  (if String.eqb z i then [y] else []) ++ (if String.eqb z y then [i] else []).

(** A query changes nothing of the association graph: keys, facts and
    association lists of the records, buckets and strengths are as before;
    only usage counters move. *)
Definition same_graph (n n' : MemoryNetwork) : Prop :=
  Forall2 (fun a b : string * MemoryTrace =>
             a.1 = b.1 /\ same_facts a.2 b.2
             /\ associations b.2 = associations a.2)
          (memories n) (memories n')
  /\ bucket_eq (context_index n) (context_index n')
  /\ bucket_eq (temporal_index n) (temporal_index n')
  /\ bucket_eq (emotional_index n) (emotional_index n')
  /\ bucket_eq (tag_index n) (tag_index n')
  /\ association_strength n' = association_strength n.

(** The stores reached from an empty one by calls of [store_memory] on
    records built without associations, each under an identifier not in use
    at the time, by queries, and by evictions; a call may return or raise. *)
Inductive reachable `{StringHash} : MemoryNetwork -> Prop :=
| reach_init (c : Z) : reachable (MemoryNetwork_init c)
| reach_store (n : MemoryNetwork) (now : datetime) (memory : MemoryTrace) :
    reachable n ->
    associations memory = [] ->
    dict_get (memory_id_of n memory) (memories n) = None ->
    reachable (store_memory now memory n).2
| reach_query (order : SetIteration) (n : MemoryNetwork) (now : datetime)
              (q : MemoryQuery) :
    reachable n -> reachable (@retrieve_memories order now q n).2
| reach_evict (n : MemoryNetwork) (x : string) :
    reachable n -> reachable (_remove_memory x n).2.

(** ** Vocabulary of the properties of single operations *)

(** The same record, apart from its association list. *)
Definition up_to_associations (m m' : MemoryTrace) : Prop :=
  m' = set_associations (associations m') m.

(** The records are as before apart from their association lists, and the
    four indices and the capacity are as before. *)
Definition same_entries (n n' : MemoryNetwork) : Prop :=
  Forall2 (fun a b : string * MemoryTrace =>
             a.1 = b.1 /\ up_to_associations a.2 b.2)
          (memories n) (memories n')
  /\ same_indices n n' /\ capacity n' = capacity n.

(** Some record stored under another identifier has an empty context. *)
Definition empty_context_peer (memory_id : string) (n : MemoryNetwork) : Prop :=
  exists y my, y <> memory_id /\ dict_get y (memories n) = Some my
               /\ context my = ∅.

(** The round of [_create_associations] for [y] divides by zero. *)
Definition clash_at (i : string) (memory : MemoryTrace) (s : MemoryNetwork)
           (y : string) : bool :=
  negb (String.eqb y i)
  && match dict_get y (memories s) with
     | Some my => bool_decide (context memory = ∅ /\ context my = ∅)
     | None => false
     end.

(** The identifier [x] is entered in the four indices under the keys of
    the record [m]. *)
Definition indexed_as (x : string) (m : MemoryTrace) (n : MemoryNetwork)
  : Prop :=
  (forall k, k ∈ context_keys (context m) -> x ∈ dd_bucket k (context_index n))
  /\ x ∈ dd_bucket (hour_key (timestamp m)) (temporal_index n)
  /\ x ∈ dd_bucket (emotion_key (emotional_valence m)) (emotional_index n)
  /\ (forall t, t ∈ tags m -> x ∈ dd_bucket t (tag_index n)).

(** The datetime [d] with its hour set to [h]. *)
Definition with_hour (h : Z) (d : datetime) : datetime :=
  mk_datetime (year d) (month d) (day d) h (minute d) (second d)
              (microsecond d).

(** The time range of the query reaches the last hour of its first day:
    the end is not before the start moved to 23 o'clock. *)
Definition range_overruns (q : MemoryQuery) : bool :=
  match q_time_range q with
  | Some (start_time, end_time) => datetime_leb (with_hour 23 start_time) end_time
  | None => false
  end.

(** A query that gives no criterion: every field is [None] or is read as
    false by [if]: the empty string, the empty dictionary, the empty set. *)
Definition no_criteria (q : MemoryQuery) : Prop :=
  (q_content q = None \/ q_content q = Some ""%string)
  /\ (q_context q = None \/ q_context q = Some ∅)
  /\ q_time_range q = None
  /\ (q_tags q = None \/ q_tags q = Some ∅)
  /\ q_emotional_range q = None
  /\ q_importance_threshold q = None.

(** The query without criteria. *)
Definition any_query : MemoryQuery := mk_query None None None None None None.

(** The strength that a read of [self.association_strength[key]] gives:
    the stored value, or 0.0 for a missing key. *)
Definition strength_or_zero (n : MemoryNetwork) (key : string * string) : Q :=
  default 0%Q (association_strength n !! key).

(** The store after a read of [self.association_strength[key]]. *)
Definition touch_strength (key : string * string) (n : MemoryNetwork)
  : MemoryNetwork :=
  match association_strength n !! key with
  | Some _ => n
  | None => set_association_strength (<[key := 0%Q]> (association_strength n)) n
  end.

(** Strongest first. *)
Definition by_strength (a b : string * Q) : Prop := (b.2 <= a.2)%Q.

(** Every stored record is entered in the four indices under its own
    keys. *)
Definition indexed (n : MemoryNetwork) : Prop :=
  forall x m, dict_get x (memories n) = Some m -> indexed_as x m n.

(** Every stored strength is above the threshold of 0.3 and is the strength
    of the two records stored under the identifiers of its key. *)
Definition rated (n : MemoryNetwork) : Prop :=
  forall a b v, association_strength n !! (a, b) = Some v ->
    Qgtb v (3 # 10) = true
    /\ exists ma mb, dict_get a (memories n) = Some ma
                     /\ dict_get b (memories n) = Some mb
                     /\ _calculate_association_strength ma mb = Ok v.

(** The indices and the records agree: an identifier is in a bucket
    exactly when a record is stored under it whose fields give the key of
    the bucket. *)
Record agrees (n : MemoryNetwork) : Prop := {
  ag_keys : NoDup (dict_keys (memories n));
  ag_context : forall x k,
    x ∈ dd_bucket k (context_index n)
    <-> exists m, dict_get x (memories n) = Some m
                  /\ k ∈ context_keys (context m);
  ag_temporal : forall x k,
    x ∈ dd_bucket k (temporal_index n)
    <-> exists m, dict_get x (memories n) = Some m
                  /\ k = hour_key (timestamp m);
  ag_emotional : forall x k,
    x ∈ dd_bucket k (emotional_index n)
    <-> exists m, dict_get x (memories n) = Some m
                  /\ k = emotion_key (emotional_valence m);
  ag_tag : forall x k,
    x ∈ dd_bucket k (tag_index n)
    <-> exists m, dict_get x (memories n) = Some m /\ k ∈ tags m
}.

(** The pairs (identifier, associated identifier) of the association lists
    of the records, in the order of [self.memories]. *)
Definition association_pairs (ms : list (string * MemoryTrace))
  : list (string * string) :=
  concat (map (fun im : string * MemoryTrace =>
                 map (fun b => (im.1, b)) (associations im.2)) ms).

(** What each criterion of a query asks of a record.  A criterion that is
    [None], or that [if] reads as false, asks nothing. *)
Definition content_matches (q : MemoryQuery) (m : MemoryTrace) : Prop :=
  match q_content q with
  | Some qc =>
      qc <> ""%string -> py_in_str (lower qc) (lower (content m)) = true
  | None => True
  end.










(** The string [s] does not contain the character [c]. *)
Fixpoint free_of (c : ascii) (s : string) : bool :=
  match s with
  | EmptyString => true
  | String a s' => negb (Ascii.eqb a c) && free_of c s'
  end.

(** The record at position [j] of [self.memories] is stored under the
    identifier made of [j] and the hash of its content. *)
Definition numbered `{StringHash} (n : MemoryNetwork) : Prop :=
  forall j k, dict_keys (memories n) !! j = Some k ->
    exists m, dict_get k (memories n) = Some m
              /\ k = "mem_" +:+ pretty (Z.of_nat j) +:+ "_"
                     +:+ pretty (py_hash (content m)).

(** The records of the calls whose constructor returned, in call order. *)
Definition accepted (calls : list (datetime * MemoryTrace))
  : list MemoryTrace :=
  map snd (List.filter (fun call : datetime * MemoryTrace =>
                          is_ok (MemoryTrace_post_init call.2)) calls).

(** The store holds exactly the records [records], in this order, each as
    it was passed apart from its association list. *)
Definition holds_in_order (records : list MemoryTrace) (n : MemoryNetwork)
  : Prop :=
  Forall2 up_to_associations records (map snd (memories n)).

(** Every record stored under an identifier other than [x] is as before,
    apart from its association list. *)
Definition kept_apart_from (x : string) (n n' : MemoryNetwork) : Prop :=
  forall y m, y <> x -> dict_get y (memories n) = Some m ->
    exists l, dict_get y (memories n') = Some (set_associations l m).

(** The strength of [memory] with [other] is above the association
    threshold. *)
Definition strong (memory other : MemoryTrace) : Prop :=
  exists v, _calculate_association_strength memory other = Ok v
            /\ Qgtb v (3 # 10) = true.

(** The store [s'] is [s] after the rounds of [_create_associations] for
    the identifiers [l]: the new identifier [i] has gained the peers of [l]
    that are strong with [memory], each of these has gained [i], and
    nothing else has changed in the records. *)
Definition linked_by (i : string) (memory : MemoryTrace) (l : list string)
           (s s' : MemoryNetwork) : Prop :=
  forall z,
    match dict_get z (memories s), dict_get z (memories s') with
    | Some mz, Some mz' =>
        up_to_associations mz mz'
        /\ forall w,
             w ∈ associations mz'
             <-> w ∈ associations mz
                 \/ (z = i /\ w ∈ l /\ w <> i
                     /\ exists mw, dict_get w (memories s) = Some mw
                                   /\ strong memory mw)
                 \/ (w = i /\ z ∈ l /\ z <> i /\ strong memory mz)
    | None, None => True
    | _, _ => False
    end.

(** The eviction score of the record can be computed at the clock reading
    [now]: the record is not dated exactly one second after [now]. *)
Definition scorable (now : datetime) (m : MemoryTrace) : Prop :=
  ~ (total_seconds_between now (timestamp m) == -1)%Q.

(** Every two stored records whose strength is above the threshold are
    associated. *)
Definition complete (n : MemoryNetwork) : Prop :=
  forall a b ma mb,
    a <> b ->
    dict_get a (memories n) = Some ma -> dict_get b (memories n) = Some mb ->
    strong ma mb -> b ∈ associations ma.

(** The stores reached without identifier reuse in which every call of
    [store_memory] has returned. *)
Inductive settled `{StringHash} : MemoryNetwork -> Prop :=
| settled_init (c : Z) : settled (MemoryNetwork_init c)
| settled_store (n n' : MemoryNetwork) (now : datetime)
                (memory : MemoryTrace) (memory_id : string) :
    settled n ->
    associations memory = [] ->
    dict_get (memory_id_of n memory) (memories n) = None ->
    store_memory now memory n = (Ok memory_id, n') ->
    settled n'
| settled_query (order : SetIteration) (n : MemoryNetwork) (now : datetime)
                (q : MemoryQuery) :
    settled n -> settled (@retrieve_memories order now q n).2
| settled_evict (n : MemoryNetwork) (x : string) :
    settled n -> settled (_remove_memory x n).2.

(** * Properties *)

(** A run is determined by its outcome and its final store. *)
Lemma run_eta {A} (r : outcome A * MemoryNetwork) (o : outcome A) :
  r.1 = o -> r = (o, r.2).
Proof. destruct r. simpl. intros ->. reflexivity. Qed.

(** ** Validation *)

Lemma post_init_ok_inv (m r : MemoryTrace) :
  MemoryTrace_post_init m = Ok r ->
  r = m /\ content m <> ""%string
  /\ (0 <= importance m <= 1)%Q
  /\ (-1 <= emotional_valence m <= 1)%Q
  /\ 0 <= retrieval_count m.
Proof.
  unfold MemoryTrace_post_init.
  destruct (String.eqb (content m) "") eqn:Hc; [discriminate|].
  destruct (Qle_bool 0 (importance m)) eqn:Hi0; [|discriminate].
  destruct (Qle_bool (importance m) 1) eqn:Hi1; [|discriminate].
  destruct (Qle_bool (-1) (emotional_valence m)) eqn:Hv0; [|discriminate].
  destruct (Qle_bool (emotional_valence m) 1) eqn:Hv1; [|discriminate].
  destruct (retrieval_count m <? 0) eqn:Hr; [discriminate|].
  simpl. intros [= <-].
  apply String.eqb_neq in Hc. apply Z.ltb_ge in Hr.
  rewrite Qle_bool_iff in Hi0, Hi1, Hv0, Hv1. auto 10.
Qed.

Lemma post_init_invalid (m : MemoryTrace) :
  content m = ""%string
  \/ ~ (0 <= importance m <= 1)%Q
  \/ ~ (-1 <= emotional_valence m <= 1)%Q ->
  exists msg, MemoryTrace_post_init m = Raise (ValueError msg).
Proof.
  intros Hbad. unfold MemoryTrace_post_init.
  destruct (String.eqb (content m) "") eqn:Hc; [eauto|].
  destruct (Qle_bool 0 (importance m) && Qle_bool (importance m) 1) eqn:Hi;
    [|eauto].
  destruct (Qle_bool (-1) (emotional_valence m)
            && Qle_bool (emotional_valence m) 1) eqn:Hv; [|eauto].
  exfalso. apply String.eqb_neq in Hc.
  apply andb_prop in Hi as [Hi0 Hi1]. apply andb_prop in Hv as [Hv0 Hv1].
  rewrite Qle_bool_iff in Hi0, Hi1, Hv0, Hv1.
  destruct Hbad as [H|[H|H]]; [congruence|apply H; auto|apply H; auto].
Qed.

(** C7: building an invalid record (empty content, importance outside
    [0,1], or emotional valence outside [-1,1]) raises [ValueError], so the
    store call that would follow never runs: the store, with its record
    count, its four indices and its association graph, is returned exactly
    as it was. *)
Theorem invalid_record_rejected_store_unchanged
        `{StringHash} (now : datetime) (fields : MemoryTrace) (n : MemoryNetwork) :
  content fields = ""%string
  \/ ~ (0 <= importance fields <= 1)%Q
  \/ ~ (-1 <= emotional_valence fields <= 1)%Q ->
  exists msg, construct_and_store now fields n = (Raise (ValueError msg), n).
Proof.
  intros Hbad. destruct (post_init_invalid fields Hbad) as [msg Hmsg].
  exists msg. unfold construct_and_store, bind, lift. now rewrite Hmsg.
Qed.

Lemma invalid_record_rejected_store_unchanged_witness :
  exists msg,
    construct_and_store sample_now overrated sample_store
    = (Raise (ValueError msg), sample_store).
Proof.
  apply (invalid_record_rejected_store_unchanged sample_now overrated
           sample_store).
  right. left. vm_compute. intros [_ H]. apply H. reflexivity.
Defined.

(** ** Emotional similarity *)

(** C1 (amended): the emotional similarity used in association scoring is
    [1 - |r.emotional_valence - o.emotional_valence|], with no division by
    two, and for valid records it lies in [-1,1]. *)
Theorem emotional_similarity_formula_and_range (r o : MemoryTrace) :
  MemoryTrace_post_init r = Ok r ->
  MemoryTrace_post_init o = Ok o ->
  (emotional_similarity r o
   == 1 - Qabs (emotional_valence r - emotional_valence o))%Q
  /\ (-1 <= emotional_similarity r o <= 1)%Q.
Proof.
  intros Hr Ho.
  apply post_init_ok_inv in Hr as (_ & _ & _ & [Hr0 Hr1] & _).
  apply post_init_ok_inv in Ho as (_ & _ & _ & [Ho0 Ho1] & _).
  unfold emotional_similarity. split; [reflexivity|].
  set (d := (emotional_valence r - emotional_valence o)%Q).
  assert (Hd : (Qabs d <= 2)%Q).
  { apply Qabs_Qle_condition. subst d. split; lra. }
  pose proof (Qabs_nonneg d). split; lra.
Qed.

Lemma emotional_similarity_formula_and_range_witness :
  (emotional_similarity happy sad
   == 1 - Qabs (emotional_valence happy - emotional_valence sad))%Q
  /\ (-1 <= emotional_similarity happy sad <= 1)%Q.
Proof.
  apply (emotional_similarity_formula_and_range happy sad); reflexivity.
Defined.

(** C1 as stated fails: two valid records with valences 1 and -1 have
    emotional similarity -1, which is neither [1 - |1 - (-1)| / 2 = 0] nor
    inside [0,1]. *)
Lemma emotional_similarity_not_halved :
  MemoryTrace_post_init happy = Ok happy
  /\ MemoryTrace_post_init sad = Ok sad
  /\ (emotional_similarity happy sad == -1)%Q
  /\ ~ (emotional_similarity happy sad
        == 1 - Qabs (emotional_valence happy - emotional_valence sad) / 2)%Q
  /\ ~ (0 <= emotional_similarity happy sad)%Q.
Proof.
  repeat split; try reflexivity.
  - vm_compute. discriminate.
  - vm_compute. intros H. apply H. reflexivity.
Qed.

(** ** Eviction score *)

(** C2 (amended): the eviction score is
    [0.4 * importance + 0.3 * recency_factor + 0.3 * retrieval_count / 10]
    with [recency_factor = 1 / (1 + seconds_since_creation)]; the retrieval
    count is not capped at 10, so its term is at most 0.3 exactly when the
    count is at most 10. *)
Theorem eviction_score_formula (now : datetime) (m : MemoryTrace) :
  ~ (total_seconds_between now (timestamp m) == -1)%Q ->
  exists score,
    eviction_score now m = Ok score
    /\ (score == (4 # 10) * importance m
                 + (3 # 10) * (1 / (1 + total_seconds_between now (timestamp m)))
                 + (3 # 10) * (inject_Z (retrieval_count m) / 10))%Q
    /\ (((3 # 10) * (inject_Z (retrieval_count m) / 10) <= 3 # 10)%Q
        <-> retrieval_count m <= 10).
Proof.
  intros Hsec. unfold eviction_score, py_div.
  destruct (Qeq_bool (1 + total_seconds_between now (timestamp m)) 0) eqn:Hz.
  - exfalso. apply Qeq_bool_iff in Hz. apply Hsec. lra.
  - simpl. eexists. split; [reflexivity|]. split; [ring|].
    rewrite (Zle_Qle (retrieval_count m) 10).
    change (inject_Z 10) with 10%Q.
    generalize (inject_Z (retrieval_count m)). intros t.
    unfold Qdiv. change (/ 10)%Q with (1 # 10)%Q. split; intros; lra.
Qed.

Lemma eviction_score_formula_witness :
  exists score,
    eviction_score sample_now busy = Ok score
    /\ (score == (4 # 10) * importance busy
                 + (3 # 10)
                   * (1 / (1 + total_seconds_between sample_now (timestamp busy)))
                 + (3 # 10) * (inject_Z (retrieval_count busy) / 10))%Q
    /\ (((3 # 10) * (inject_Z (retrieval_count busy) / 10) <= 3 # 10)%Q
        <-> retrieval_count busy <= 10).
Proof.
  apply (eviction_score_formula sample_now busy). vm_compute. discriminate.
Defined.

(** C2 as stated fails: for a record retrieved twenty times the
    retrieval-count term is 0.6, above 0.3, and the score differs from the
    formula that caps the count at 10. *)
Lemma eviction_score_not_capped :
  exists score,
    eviction_score sample_now busy = Ok score
    /\ ~ (score == (4 # 10) * importance busy
                   + (3 # 10)
                     * (1 / (1 + total_seconds_between sample_now (timestamp busy)))
                   + (3 # 10)
                     * (inject_Z (Z.min (retrieval_count busy) 10) / 10))%Q
    /\ ~ ((3 # 10) * (inject_Z (retrieval_count busy) / 10) <= 3 # 10)%Q.
Proof.
  eexists. split; [reflexivity|]. split.
  - vm_compute. discriminate.
  - vm_compute. intros H. apply H. reflexivity.
Qed.

(** Closed facts about sets and maps are settled by evaluating their
    decision procedure. *)
Ltac by_evaluation :=
  match goal with |- ?P => apply (bool_decide_unpack P) end;
  vm_compute; exact I.

(** ** Time ranges *)

(** C3: the store holds one record, formed at 00:30 on January 2nd and
    indexed under that hour; the query for the valid interval from 23:00 on
    January 1st to 01:00 on January 2nd does not complete: the scan calls
    [replace(hour=24)], which raises [ValueError]. *)
Theorem time_range_across_midnight_raises :
  (construct_and_store sample_now midnight_note (MemoryNetwork_init 10)).1
  = Ok "mem_0_109"%string
  /\ datetime_leb (at_day 1 23) (at_day 2 1) = true
  /\ "mem_0_109"%string
     ∈ dd_bucket "2024010200"%string (temporal_index store_with_midnight_note)
  /\ (retrieve_memories sample_now night_query store_with_midnight_note).1
     = Raise (ValueError "hour must be in 0..23").
Proof.
  split; [vm_compute; reflexivity|]. split; [reflexivity|].
  split; [by_evaluation|vm_compute; reflexivity].
Qed.

(** Any valid range that starts in the last hour of a day fails in the
    same way, on every store. *)
Lemma range_from_last_hour_raises (start_time end_time : datetime)
      (acc : gset string) (n : MemoryNetwork) :
  hour start_time = 23 ->
  datetime_leb start_time end_time = true ->
  (time_scan 25 start_time end_time acc n).1
  = Raise (ValueError "hour must be in 0..23").
Proof.
  intros Hh Hle. cbn [time_scan]. rewrite Hle.
  unfold bind, get, modify, lift, replace_hour. rewrite Hh. reflexivity.
Qed.

(** Within a day the scan steps from the start time in whole hours and
    reads the bucket of each step: a range from 10:30 to 11:15 reads the
    bucket of 10 o'clock only, and a record formed at 11:10 is not found. *)
Lemma range_scan_skips_last_bucket :
  (construct_and_store sample_now late_morning_note (MemoryNetwork_init 10)).1
  = Ok "mem_0_110"%string
  /\ "mem_0_110"%string
     ∈ dd_bucket "2024010311"%string
         (temporal_index store_with_late_morning_note)
  /\ (retrieve_memories sample_now morning_query store_with_late_morning_note).1
     = Ok [].
Proof.
  split; [vm_compute; reflexivity|].
  split; [by_evaluation|vm_compute; reflexivity].
Qed.

(** ** Identifier reuse *)

(** C4: in a store of capacity 2, the third call evicts [old_note] and links
    [meeting] with [followup]; the fourth record has the content of
    [followup] and is stored while the store again holds two records, so it
    gets the identifier of [followup] and replaces it.  [meeting] still
    lists that identifier, the record now stored under it lists nothing. *)
Theorem id_reuse_breaks_symmetry :
  (store_each sample_now [old_note; meeting; followup; clash]
              (MemoryNetwork_init 2)).1
  = Ok ["mem_0_97"; "mem_1_98"; "mem_2_99"; "mem_2_99"]%string
  /\ association_lists store_after_clash
     = [("mem_1_98", ["mem_2_99"]); ("mem_2_99", [])]%string.
Proof. split; vm_compute; reflexivity. Qed.

(** C6: after the four calls above, evicting the record stored under
    [mem_2_99] succeeds, and the identifier stays in a tag bucket, a context
    bucket, a temporal bucket and an emotional bucket, in the associations
    of the surviving record, and in the keys of the stored strengths. *)
Theorem eviction_after_id_reuse_leaves_entries :
  (_remove_memory "mem_2_99" store_after_clash).1 = Ok tt
  /\ dict_keys (memories (_remove_memory "mem_2_99" store_after_clash).2)
     = ["mem_1_98"%string]
  /\ "mem_2_99"%string
     ∈ dd_bucket "t"%string
         (tag_index (_remove_memory "mem_2_99" store_after_clash).2)
  /\ "mem_2_99"%string
     ∈ dd_bucket "loc:x"%string
         (context_index (_remove_memory "mem_2_99" store_after_clash).2)
  /\ "mem_2_99"%string
     ∈ dd_bucket "2024010210"%string
         (temporal_index (_remove_memory "mem_2_99" store_after_clash).2)
  /\ "mem_2_99"%string
     ∈ dd_bucket 5 (emotional_index (_remove_memory "mem_2_99" store_after_clash).2)
  /\ association_lists (_remove_memory "mem_2_99" store_after_clash).2
     = [("mem_1_98", ["mem_2_99"])]%string
  /\ ("mem_2_99", "mem_1_98")%string
     ∈ dom (association_strength (_remove_memory "mem_2_99" store_after_clash).2).
Proof.
  split; [vm_compute; reflexivity|]. split; [vm_compute; reflexivity|].
  do 4 (split; [by_evaluation|]).
  split; [vm_compute; reflexivity|by_evaluation].
Qed.

(** C10: a fifth call makes the capacity manager evict the record stored
    under [mem_2_99]; afterwards the surviving record [mem_1_98] lists the
    absent identifier, and both stored strengths of the pair remain. *)
Theorem eviction_after_id_reuse_leaves_dangling_ids :
  (store_each sample_now [old_note; meeting; followup; clash; later]
              (MemoryNetwork_init 2)).1
  = Ok ["mem_0_97"; "mem_1_98"; "mem_2_99"; "mem_2_99"; "mem_2_101"]%string
  /\ dict_keys (memories store_after_later) = ["mem_1_98"; "mem_2_101"]%string
  /\ association_lists store_after_later
     = [("mem_1_98", ["mem_2_99"]); ("mem_2_101", [])]%string
  /\ dom (association_strength store_after_later)
     = {[ ("mem_1_98", "mem_2_99"); ("mem_2_99", "mem_1_98") ]}%string.
Proof.
  do 3 (split; [vm_compute; reflexivity|]). by_evaluation.
Qed.

(** ** Capacity *)

Lemma dict_get_in_keys {V} (k : string) (d : list (string * V)) :
  dict_get k d <> None <-> In k (dict_keys d).
Proof.
  induction d as [|[k' v] d IH]; simpl; [tauto|].
  destruct (String.eqb k k') eqn:E.
  - apply String.eqb_eq in E. split; [auto|discriminate].
  - apply String.eqb_neq in E. rewrite IH. split; [auto|].
    intros [?|?]; [congruence|assumption].
Qed.

Lemma dict_update_keys {V} (k : string) (f : V -> V) (d : list (string * V)) :
  dict_keys (dict_update k f d) = dict_keys d.
Proof.
  induction d as [|[k' v'] d IH]; simpl; [reflexivity|].
  destruct (String.eqb k k'); simpl; [reflexivity|]. f_equal. apply IH.
Qed.

Lemma dict_del_length {V} (k : string) (d : list (string * V)) :
  In k (dict_keys d) -> S (length (dict_del k d)) = length d.
Proof.
  induction d as [|[k' v'] d IH]; simpl; [tauto|].
  destruct (String.eqb k k') eqn:E; [reflexivity|].
  apply String.eqb_neq in E. intros [?|Hin]; [congruence|].
  simpl. f_equal. apply IH, Hin.
Qed.

(** Methods whose every run, returning or raising, takes the store to one
    related to it by a reflexive and transitive relation [R]. *)
Section Steps.
Context (R : relation MemoryNetwork) `{!PreOrder R}.

Lemma steps_ret {A} (a : A) : steps R (ret a).
Proof. intros n. reflexivity. Qed.

Lemma steps_raise {A} (e : exn) : steps R (@raise A e).
Proof. intros n. reflexivity. Qed.

Lemma steps_lift {A} (o : outcome A) : steps R (lift o).
Proof. intros n. reflexivity. Qed.

Lemma steps_bind {A B} (m : M A) (f : A -> M B) :
  steps R m -> (forall a, steps R (f a)) -> steps R (bind m f).
Proof.
  intros Hm Hf n. unfold bind. specialize (Hm n).
  destruct (m n) as [[a|e] n1]; simpl in *; [|exact Hm].
  etransitivity; [exact Hm|apply Hf].
Qed.

Lemma steps_get {A} (f : MemoryNetwork -> M A) :
  (forall n, steps R (f n)) -> steps R (bind get f).
Proof. intros Hf n. unfold bind, get. apply Hf. Qed.

Lemma steps_modify (f : MemoryNetwork -> MemoryNetwork) :
  (forall n, R n (f n)) -> steps R (modify f).
Proof. intros Hf n. apply Hf. Qed.

Lemma steps_for_each {A} (l : list A) (body : A -> M unit) :
  (forall x, steps R (body x)) -> steps R (for_each l body).
Proof.
  intros Hb. induction l as [|x l IH]; simpl.
  - apply steps_ret.
  - apply steps_bind; auto.
Qed.
End Steps.

Ltac steps_seq := apply steps_bind; [typeclasses eauto| |].
Ltac steps_loop := apply steps_for_each; [typeclasses eauto|].

Ltac steps_leaf :=
  first [apply steps_ret | apply steps_raise | apply steps_lift];
  typeclasses eauto.

#[local] Instance same_keys_preorder : PreOrder same_keys.
Proof.
  split.
  - intros n. split; reflexivity.
  - intros a b c [? ?] [? ?]. split; congruence.
Qed.

#[local] Instance same_capacity_preorder : PreOrder same_capacity.
Proof. split; [intros n; reflexivity|intros a b c ? ?; unfold same_capacity in *; congruence]. Qed.

Lemma steps_weaken {A} (R R' : relation MemoryNetwork) (m : M A) :
  (forall n n', R n n' -> R' n n') -> steps R m -> steps R' m.
Proof. intros Hsub Hm n. apply Hsub, Hm. Qed.

(** Steps that rewrite an index, a stored strength or a stored object. *)
Ltac keeps_modify :=
  apply steps_modify; [typeclasses eauto ..|]; intros ?; simpl; split; simpl;
  rewrite ?dict_update_keys; reflexivity.

Ltac keeps_seq :=
  repeat (apply steps_bind; [typeclasses eauto| |intros _]);
  first [keeps_modify | steps_leaf].

Lemma keeps_keys_update_indices (memory_id : string) (memory : MemoryTrace) :
  keeps_keys (_update_indices memory_id memory).
Proof. unfold _update_indices. keeps_seq. Qed.

Lemma keeps_keys_associate_with (memory_id : string) (memory : MemoryTrace)
      (other_id : string) :
  keeps_keys (associate_with memory_id memory other_id).
Proof.
  unfold associate_with. destruct (String.eqb other_id memory_id);
    [steps_leaf|].
  apply steps_get. intros n.
  destruct (dict_get other_id (memories n)); [|steps_leaf].
  steps_seq; [steps_leaf|]. intros strength.
  destruct (Qgtb strength (3 # 10)); [|steps_leaf].
  unfold append_association. keeps_seq.
Qed.

Lemma keeps_keys_create_associations (memory_id : string) (memory : MemoryTrace) :
  keeps_keys (_create_associations memory_id memory).
Proof.
  unfold _create_associations. apply steps_get. intros n.
  steps_loop. intros x. apply keeps_keys_associate_with.
Qed.

Lemma keeps_keys_del_strength (key : string * string) :
  keeps_keys (del_strength key).
Proof.
  unfold del_strength. apply steps_get. intros n.
  destruct (decide _); [keeps_modify|steps_leaf].
Qed.

Lemma keeps_keys_unlink (memory_id associated_id : string) :
  keeps_keys (unlink memory_id associated_id).
Proof.
  unfold unlink. apply steps_get. intros n.
  destruct (dict_get associated_id (memories n)) as [other|]; [|steps_leaf].
  destruct (list_remove memory_id (associations other)); [|steps_leaf].
  steps_seq; [keeps_modify|intros _].
  steps_seq; [|intros _]; apply keeps_keys_del_strength.
Qed.

Lemma keeps_keys_remove_associations (fuel i : nat) (memory_id : string) :
  keeps_keys (remove_associations fuel i memory_id).
Proof.
  revert i. induction fuel as [|fuel IH]; intros i; simpl; [steps_leaf|].
  apply steps_get. intros n.
  destruct (dict_get memory_id (memories n)); [|steps_leaf].
  destruct (associations m !! i) as [associated_id|]; [|steps_leaf].
  steps_seq; [apply keeps_keys_unlink|intros _; apply IH].
Qed.

(** A call of [_remove_memory] that returns has taken one record out. *)
Lemma remove_memory_ok (memory_id : string) (n n' : MemoryNetwork) :
  _remove_memory memory_id n = (Ok tt, n') ->
  S (length (memories n')) = length (memories n) /\ capacity n' = capacity n.
Proof.
  unfold _remove_memory. unfold bind at 1. unfold get.
  destruct (dict_get memory_id (memories n)) as [memory|] eqn:Hget;
    [|discriminate].
  assert (Hin : In memory_id (dict_keys (memories n))).
  { apply dict_get_in_keys. congruence. }
  generalize (length (associations memory)). intros fuel.
  repeat (unfold bind at 1; unfold modify at 1).
  match goal with
  | |- context [remove_associations fuel 0 memory_id ?s] =>
      pose proof (keeps_keys_remove_associations fuel 0 memory_id s) as Hk;
      destruct (remove_associations fuel 0 memory_id s) as [[[]|e] n1]
  end; [|discriminate].
  destruct Hk as [Hkeys Hcap]. simpl in Hkeys, Hcap.
  unfold modify. intros [= <-]. simpl. split; [|exact Hcap].
  rewrite dict_del_length.
  - rewrite <- (length_map fst (memories n1)), <- (length_map fst (memories n)).
    unfold dict_keys in Hkeys. now rewrite Hkeys.
  - now rewrite Hkeys.
Qed.

Lemma remove_each_ok (l : list (string * Q)) (n n' : MemoryNetwork) :
  for_each l (fun x => _remove_memory x.1) n = (Ok tt, n') ->
  (length (memories n') + length l = length (memories n))%nat
  /\ capacity n' = capacity n.
Proof.
  revert n. induction l as [|x l IH]; intros n; simpl.
  - unfold ret. intros [= <-]. split; [lia|reflexivity].
  - unfold bind.
    destruct (_remove_memory x.1 n) as [[[]|e] n1] eqn:Hrm; [|discriminate].
    intros Hrest. apply remove_memory_ok in Hrm as [Hlen Hcap].
    apply IH in Hrest as [Hlen' Hcap']. split; [lia|congruence].
Qed.

Lemma memory_scores_length (now : datetime) (ms : list (string * MemoryTrace))
      (scores : list (string * Q)) :
  memory_scores now ms = Ok scores -> length scores = length ms.
Proof.
  revert scores. induction ms as [|[k m] ms IH]; intros scores;
    cbn [memory_scores].
  - intros [= <-]. reflexivity.
  - destruct (eviction_score now m); cbn [outcome_bind]; [|discriminate].
    destruct (memory_scores now ms); cbn [outcome_bind]; [|discriminate].
    intros [= <-]. cbn [length]. f_equal. now apply IH.
Qed.

Section StableSortFacts.
Context {A : Type} (leb : A -> A -> bool).

Lemma sort_insert_perm (x : A) (l : list A) : sort_insert leb x l ≡ₚ x :: l.
Proof.
  induction l as [|y l IH]; simpl; [reflexivity|].
  destruct (leb x y); [reflexivity|].
  rewrite IH. apply Permutation_swap.
Qed.

Lemma stable_sort_perm (l : list A) : stable_sort leb l ≡ₚ l.
Proof.
  induction l as [|x l IH]; simpl; [reflexivity|].
  rewrite sort_insert_perm. now rewrite IH.
Qed.

Lemma stable_sort_length (l : list A) : length (stable_sort leb l) = length l.
Proof. apply Permutation_length, stable_sort_perm. Qed.
End StableSortFacts.

(** When [_manage_capacity] returns, the store holds at most [capacity]
    records. *)
Lemma manage_capacity_ok (now : datetime) (n n' : MemoryNetwork) :
  0 <= capacity n ->
  _manage_capacity now n = (Ok tt, n') ->
  dict_len (memories n') <= capacity n' /\ capacity n' = capacity n.
Proof.
  intros Hcap. unfold _manage_capacity, dict_len. unfold bind at 1, get.
  destruct (capacity n <? Z.of_nat (length (memories n))) eqn:Hover.
  - apply Z.ltb_lt in Hover. unfold bind at 1, lift.
    destruct (memory_scores now (memories n)) as [scores|e] eqn:Hs;
      [|discriminate].
    apply memory_scores_length in Hs. intros Hrm.
    apply remove_each_ok in Hrm as [Hlen Hc]. split; [|exact Hc].
    rewrite length_take, stable_sort_length, Hs in Hlen. lia.
  - apply Z.ltb_ge in Hover. unfold ret. intros [= <-]. split; [lia|reflexivity].
Qed.

Lemma keeps_capacity_of_keys {A} (m : M A) :
  keeps_keys m -> steps same_capacity m.
Proof. apply steps_weaken. intros n n' [_ Hc]. exact Hc. Qed.

Lemma keeps_capacity_remove_memory (memory_id : string) :
  steps same_capacity (_remove_memory memory_id).
Proof.
  unfold _remove_memory. apply steps_get. intros n.
  destruct (dict_get memory_id (memories n)) as [memory|]; [|steps_leaf].
  do 4 (steps_seq; [apply steps_modify; intros ?; reflexivity|intros _]).
  steps_seq; [apply keeps_capacity_of_keys, keeps_keys_remove_associations|].
  intros _. apply steps_modify. intros ?. reflexivity.
Qed.

Lemma keeps_capacity_manage_capacity (now : datetime) :
  steps same_capacity (_manage_capacity now).
Proof.
  unfold _manage_capacity. apply steps_get. intros n.
  destruct (capacity n <? dict_len (memories n)); [|steps_leaf].
  steps_seq; [steps_leaf|]. intros scores.
  steps_loop. intros x. apply keeps_capacity_remove_memory.
Qed.

Lemma keeps_capacity_store_memory `{StringHash} (now : datetime)
      (memory : MemoryTrace) :
  steps same_capacity (store_memory now memory).
Proof.
  unfold store_memory. apply steps_get. intros n.
  steps_seq; [apply steps_modify; intros ?; reflexivity|intros _].
  steps_seq; [apply keeps_capacity_of_keys, keeps_keys_update_indices|intros _].
  steps_seq; [apply keeps_capacity_of_keys, keeps_keys_create_associations|].
  intros _. steps_seq; [apply keeps_capacity_manage_capacity|].
  intros _. steps_leaf.
Qed.

Lemma keeps_capacity_construct_and_store `{StringHash} (now : datetime)
      (fields : MemoryTrace) :
  steps same_capacity (construct_and_store now fields).
Proof.
  unfold construct_and_store. steps_seq; [steps_leaf|].
  intros memory. apply keeps_capacity_store_memory.
Qed.

Lemma store_all_capacity `{StringHash} (calls : list (datetime * MemoryTrace))
      (n : MemoryNetwork) :
  capacity (store_all calls n) = capacity n.
Proof.
  revert n. induction calls as [|[now fields] calls IH]; intros n; simpl;
    [reflexivity|].
  rewrite IH. apply keeps_capacity_construct_and_store.
Qed.

(** A call of [store_memory] on a store with a non-negative capacity that
    returns (so the capacity manager has run to its end) leaves at most
    [capacity] records, whatever the store held before. *)
Lemma store_memory_within_capacity

        `{StringHash} (now : datetime) (memory : MemoryTrace)
        (n n' : MemoryNetwork) (memory_id : string) :
  0 <= capacity n ->
  store_memory now memory n = (Ok memory_id, n') ->
  dict_len (memories n') <= capacity n' /\ capacity n' = capacity n.
Proof.
  intros Hcap. unfold store_memory. unfold bind at 1, get.
  unfold bind at 1. unfold modify at 1.
  set (id := memory_id_of n memory).
  set (n0 := set_memories _ n).
  assert (Hc0 : capacity n0 = capacity n) by reflexivity.
  clearbody n0.
  unfold bind at 1.
  pose proof (keeps_keys_update_indices id memory n0) as [_ Hc1].
  destruct (_update_indices id memory n0) as [[[]|e] n1]; [|discriminate].
  unfold bind at 1.
  pose proof (keeps_keys_create_associations id memory n1) as [_ Hc2].
  destruct (_create_associations id memory n1) as [[[]|e] n2]; [|discriminate].
  unfold bind at 1.
  destruct (_manage_capacity now n2) as [[[]|e] n3] eqn:Hm; [|discriminate].
  unfold ret. intros [= _ <-]. simpl in *.
  apply manage_capacity_ok in Hm as [Hlen Hc3]; [|lia].
  split; [exact Hlen|congruence].
Qed.

(** Start from an empty store with a non-negative capacity and let any
    sequence of insertions run, each returning or raising; whenever a further
    insertion returns, the capacity manager has run to its end and the store
    holds at most [capacity] records. *)
Theorem capacity_invariant
        `{StringHash} (c : Z) (calls : list (datetime * MemoryTrace))
        (now : datetime) (fields : MemoryTrace)
        (memory_id : string) (n' : MemoryNetwork) :
  0 <= c ->
  construct_and_store now fields (store_all calls (MemoryNetwork_init c))
  = (Ok memory_id, n') ->
  dict_len (memories n') <= c /\ capacity n' = c.
Proof.
  intros Hc. unfold construct_and_store, bind, lift.
  destruct (MemoryTrace_post_init fields) as [memory|e]; [|discriminate].
  intros Hstore.
  apply store_memory_within_capacity in Hstore;
    rewrite store_all_capacity in *; simpl in *; [|exact Hc].
  destruct Hstore as [Hlen Hcap]. rewrite Hcap in Hlen. auto.
Qed.

Lemma capacity_invariant_witness :
  dict_len (memories (construct_and_store sample_now later
                        (store_all sample_calls (MemoryNetwork_init 2))).2) <= 2
  /\ capacity (construct_and_store sample_now later
                 (store_all sample_calls (MemoryNetwork_init 2))).2 = 2.
Proof.
  apply (capacity_invariant 2 sample_calls sample_now later "mem_2_101"
            (construct_and_store sample_now later
               (store_all sample_calls (MemoryNetwork_init 2))).2);
    [lia|apply run_eta; vm_compute; reflexivity].
Defined.

(** C5: in a store of capacity 2, four calls return: the third evicts
    [old_note] and links [minor_meeting] with [followup], the fourth stores
    [revision] under the identifier of [followup].  On the fifth call the
    capacity manager runs and picks [minor_meeting], the record of lowest
    score; its eviction raises [ValueError], because the record now stored
    under [mem_2_99] does not list it.  The call ends with three records in
    the store of capacity 2. *)
Theorem capacity_exceeded_when_eviction_raises :
  (store_each sample_now [old_note; minor_meeting; followup; revision]
              (MemoryNetwork_init 2)).1
  = Ok ["mem_0_97"; "mem_1_98"; "mem_2_99"; "mem_2_99"]%string
  /\ (construct_and_store sample_now later store_after_revision).1
     = Raise (ValueError "list.remove(x): x not in list")
  /\ dict_keys
       (memories (construct_and_store sample_now later store_after_revision).2)
     = ["mem_1_98"; "mem_2_99"; "mem_2_101"]%string
  /\ capacity (construct_and_store sample_now later store_after_revision).2 = 2.
Proof. repeat split; vm_compute; reflexivity. Qed.

(** A call that raises before the capacity manager runs also ends above the
    capacity: the second of two records without context raises
    [ZeroDivisionError] while it is associated, and both records stay in the
    store of capacity 1. *)
Lemma capacity_exceeded_when_association_raises :
  (construct_and_store sample_now bare_reminder
     (construct_and_store sample_now bare_note (MemoryNetwork_init 1)).2).1
  = Raise ZeroDivisionError
  /\ dict_len (memories overfull_store) = 2
  /\ capacity overfull_store = 1.
Proof. repeat split; vm_compute; reflexivity. Qed.

(** ** What a query reads *)

#[local] Instance same_view_preorder : PreOrder same_view.
Proof.
  split.
  - intros n. repeat split; try (intros k; reflexivity).
    induction (memories n); constructor; auto. repeat split.
  - intros a b c (Hm & H1 & H2 & H3 & H4) (Hm' & H1' & H2' & H3' & H4').
    repeat split; try (intros k; etransitivity; eauto).
    clear - Hm Hm'. revert Hm'. generalize (memories c).
    induction Hm as [|x y l l' Hxy Hl IH]; intros l'' Hm'; inversion Hm'; subst;
      constructor; [|auto].
    unfold same_record_view in *. intuition congruence.
Qed.

Section Buckets.
Context {K : Type} `{Countable K}.
Implicit Types (idx : gmap K (gset string)) (k : K).

Lemma dd_bucket_touch k k' idx : dd_bucket k' (dd_touch k idx) = dd_bucket k' idx.
Proof.
  unfold dd_touch, dd_bucket. destruct (decide (k = k')) as [->|Hne].
  - now rewrite lookup_insert_eq.
  - now rewrite lookup_insert_ne.
Qed.

Lemma bucket_eq_touch k idx : bucket_eq idx (dd_touch k idx).
Proof. intros k'. symmetry. apply dd_bucket_touch. Qed.

Lemma bucket_eq_touch_both k idx idx' :
  bucket_eq idx idx' -> bucket_eq (dd_touch k idx) (dd_touch k idx').
Proof. intros Hb k'. rewrite !dd_bucket_touch. apply Hb. Qed.

Lemma dd_union_same ks acc idx idx' :
  bucket_eq idx idx' ->
  (dd_union ks acc idx).1 = (dd_union ks acc idx').1
  /\ bucket_eq (dd_union ks acc idx).2 (dd_union ks acc idx').2.
Proof.
  revert acc idx idx'. induction ks as [|k ks IH]; intros acc idx idx' Hb; simpl.
  - auto.
  - rewrite (Hb k). apply IH, bucket_eq_touch_both, Hb.
Qed.

Lemma dd_union_keeps ks acc idx : bucket_eq idx (dd_union ks acc idx).2.
Proof.
  revert acc idx. induction ks as [|k ks IH]; intros acc idx; simpl.
  - intros k. reflexivity.
  - intros k'. rewrite <- IH. symmetry. apply dd_bucket_touch.
Qed.
End Buckets.

Lemma same_view_keys (n n' : MemoryNetwork) :
  same_view n n' -> dict_keys (memories n) = dict_keys (memories n').
Proof.
  intros [Hm _]. unfold dict_keys.
  induction Hm as [|x y l l' [Hk _] _ IH]; simpl; congruence.
Qed.

Lemma ids_where_same (p p' : MemoryTrace -> bool)
      (ms ms' : list (string * MemoryTrace)) :
  Forall2 (fun a b => a.1 = b.1 /\ p a.2 = p' b.2) ms ms' ->
  ids_where p ms = ids_where p' ms'.
Proof.
  unfold ids_where. intros Hm. f_equal.
  induction Hm as [|x y l l' [Hk Hp] _ IH]; simpl; [reflexivity|].
  rewrite Hp. destruct (p' y.2); simpl; congruence.
Qed.

Lemma ids_where_view (f : string -> Q -> bool) (n n' : MemoryNetwork) :
  same_view n n' ->
  ids_where (fun m => f (content m) (importance m)) (memories n)
  = ids_where (fun m => f (content m) (importance m)) (memories n').
Proof.
  intros [Hm _]. apply ids_where_same.
  eapply Forall2_impl; [exact Hm|]. intros a b (Hk & Hc & Hi).
  split; [exact Hk|]. simpl. now rewrite Hc, Hi.
Qed.

Lemma dict_update_view (f : MemoryTrace -> MemoryTrace) (k : string)
      (ms : list (string * MemoryTrace)) :
  (forall m, content (f m) = content m /\ importance (f m) = importance m) ->
  Forall2 same_record_view ms (dict_update k f ms).
Proof.
  intros Hf. induction ms as [|[k' m] ms IH]; simpl; [constructor|].
  destruct (String.eqb k k').
  - constructor.
    + destruct (Hf m). repeat split; simpl; congruence.
    + clear. induction ms; constructor; auto. repeat split.
  - constructor; [repeat split|exact IH].
Qed.

Lemma respects_ret {A} (a : A) : respects (ret a).
Proof. intros n n' Hv. auto. Qed.

Lemma respects_bind {A B} (m : M A) (f : A -> M B) :
  respects m -> (forall a, respects (f a)) -> respects (bind m f).
Proof.
  intros Hm Hf n n' Hv. unfold bind. destruct (Hm n n' Hv) as [Ho Hv'].
  destruct (m n) as [[a|e] n1], (m n') as [[a'|e'] n1']; simpl in *;
    try discriminate; injection Ho as <-; [apply Hf, Hv'|auto].
Qed.

Ltac view_split Hv :=
  destruct Hv as (?Hm & ?Hc & ?Ht & ?He & ?Hg);
  repeat split; simpl; auto.

Lemma respects_filter_content (q : MemoryQuery) (c : gset string) :
  respects (filter_content q c).
Proof.
  unfold filter_content. destruct (q_content q) as [qc|]; [|apply respects_ret].
  destruct (truthy_str qc); [|apply respects_ret].
  intros n n' Hv. unfold bind, get, ret. simpl. split; [|exact Hv].
  do 2 f_equal.
  apply (ids_where_view (fun s _ => py_in_str (lower qc) (lower s))), Hv.
Qed.

Lemma respects_filter_context (q : MemoryQuery) (c : gset string) :
  respects (filter_context q c).
Proof.
  unfold filter_context. destruct (q_context q) as [ctx|]; [|apply respects_ret].
  destruct (negb _); [|apply respects_ret].
  intros n n' Hv. unfold bind, get, modify, ret. simpl.
  destruct (dd_union_same (context_keys ctx) ∅ (context_index n)
                          (context_index n')) as [Hu Hb]; [apply Hv|].
  split; [now rewrite Hu|]. view_split Hv.
Qed.

Lemma respects_time_scan (fuel : nat) (current_time end_time : datetime)
      (acc : gset string) :
  respects (time_scan fuel current_time end_time acc).
Proof.
  revert current_time acc.
  induction fuel as [|fuel IH]; intros current_time acc; simpl;
    [apply respects_ret|].
  destruct (datetime_leb current_time end_time); [|apply respects_ret].
  intros n n' Hv. unfold bind at 1, get. unfold bind at 1, modify at 1.
  unfold bind at 1, lift at 1.
  unfold bind at 3, get. unfold bind at 3, modify at 2.
  unfold bind at 3, lift.
  assert (Hv' : same_view
            (set_temporal_index
               (dd_touch (hour_key current_time) (temporal_index n)) n)
            (set_temporal_index
               (dd_touch (hour_key current_time) (temporal_index n')) n')).
  { pose proof (bucket_eq_touch_both (hour_key current_time)
                  (temporal_index n) (temporal_index n')).
    view_split Hv. }
  destruct (replace_hour current_time (hour current_time + 1)) as [next|e];
    [|auto].
  assert (Hb : dd_bucket (hour_key current_time) (temporal_index n)
               = dd_bucket (hour_key current_time) (temporal_index n'))
    by apply Hv.
  rewrite Hb. apply IH, Hv'.
Qed.

Lemma respects_filter_time_range (q : MemoryQuery) (c : gset string) :
  respects (filter_time_range q c).
Proof.
  unfold filter_time_range.
  destruct (q_time_range q) as [[start_time end_time]|]; [|apply respects_ret].
  apply respects_bind; [apply respects_time_scan|]. intros. apply respects_ret.
Qed.

Lemma respects_filter_tags (q : MemoryQuery) (c : gset string) :
  respects (filter_tags q c).
Proof.
  unfold filter_tags. destruct (q_tags q) as [ts|]; [|apply respects_ret].
  destruct (truthy_set ts); [|apply respects_ret].
  intros n n' Hv. unfold bind, get, modify, ret. simpl.
  destruct (dd_union_same (elements ts) ∅ (tag_index n) (tag_index n'))
    as [Hu Hb]; [apply Hv|].
  split; [now rewrite Hu|]. view_split Hv.
Qed.

Lemma respects_filter_emotional_range (q : MemoryQuery) (c : gset string) :
  respects (filter_emotional_range q c).
Proof.
  unfold filter_emotional_range.
  destruct (q_emotional_range q) as [[min_val max_val]|]; [|apply respects_ret].
  intros n n' Hv. unfold bind, get, modify, ret. simpl.
  match goal with
  | |- context [dd_union ?ks ∅ (emotional_index n)] =>
      destruct (dd_union_same ks ∅ (emotional_index n) (emotional_index n'))
        as [Hu Hb]; [apply Hv|]
  end.
  split; [now rewrite Hu|]. view_split Hv.
Qed.

Lemma respects_filter_importance (q : MemoryQuery) (c : gset string) :
  respects (filter_importance q c).
Proof.
  unfold filter_importance.
  destruct (q_importance_threshold q) as [threshold|]; [|apply respects_ret].
  intros n n' Hv. unfold bind, get, ret. simpl. split; [|exact Hv].
  do 2 f_equal.
  apply (ids_where_view (fun _ i => Qle_bool threshold i)), Hv.
Qed.

Lemma select_candidates_chain (q : MemoryQuery) (n : MemoryNetwork) :
  select_candidates q n
  = filter_chain q (list_to_set (dict_keys (memories n))) n.
Proof. reflexivity. Qed.

Lemma respects_filter_chain (q : MemoryQuery) (c0 : gset string) :
  respects (filter_chain q c0).
Proof.
  unfold filter_chain.
  apply respects_bind; [apply respects_filter_content|intros ?].
  apply respects_bind; [apply respects_filter_context|intros ?].
  apply respects_bind; [apply respects_filter_time_range|intros ?].
  apply respects_bind; [apply respects_filter_tags|intros ?].
  apply respects_bind; [apply respects_filter_emotional_range|intros ?].
  apply respects_filter_importance.
Qed.

(** The candidate set of a query is decided by the view. *)
Lemma respects_select_candidates (q : MemoryQuery) :
  respects (select_candidates q).
Proof.
  intros n n' Hv. rewrite !select_candidates_chain, (same_view_keys n n' Hv).
  apply respects_filter_chain, Hv.
Qed.

#[local] Instance same_records_preorder : PreOrder same_records.
Proof.
  split.
  - intros n. repeat split; intros k; reflexivity.
  - intros a b c (Hm & H1 & H2 & H3 & H4 & H5) (Hm' & H1' & H2' & H3' & H4' & H5').
    repeat split; try (intros k; etransitivity; eauto); congruence.
Qed.

Lemma same_records_refl (n : MemoryNetwork) : same_records n n.
Proof. reflexivity. Qed.

Lemma same_view_refl (n : MemoryNetwork) : same_view n n.
Proof. reflexivity. Qed.

Lemma same_records_view (n n' : MemoryNetwork) :
  same_records n n' -> same_view n n'.
Proof.
  intros (Hm & H1 & H2 & H3 & H4 & _). repeat split; auto.
  rewrite Hm. exact (proj1 (same_view_refl n)).
Qed.

Ltac records_split Hv :=
  destruct Hv as (?Hm & ?Hc & ?Ht & ?He & ?Hg & ?Hs);
  repeat split; simpl; auto.

Lemma keeps_records_filter_content (q : MemoryQuery) (c : gset string) :
  keeps_records (filter_content q c).
Proof.
  unfold filter_content. destruct (q_content q) as [qc|]; [|steps_leaf].
  destruct (truthy_str qc); [|steps_leaf]. intros n. apply same_records_refl.
Qed.

Lemma keeps_records_filter_context (q : MemoryQuery) (c : gset string) :
  keeps_records (filter_context q c).
Proof.
  unfold filter_context. destruct (q_context q) as [ctx|]; [|steps_leaf].
  destruct (negb _); [|steps_leaf].
  intros n. unfold bind, get, modify, ret. simpl.
  pose proof (dd_union_keeps (context_keys ctx) ∅ (context_index n)).
  pose proof (same_records_refl n) as Hv. records_split Hv.
Qed.

Lemma keeps_records_time_scan (fuel : nat) (current_time end_time : datetime)
      (acc : gset string) :
  keeps_records (time_scan fuel current_time end_time acc).
Proof.
  revert current_time acc.
  induction fuel as [|fuel IH]; intros current_time acc; simpl; [steps_leaf|].
  destruct (datetime_leb current_time end_time); [|steps_leaf].
  intros n. unfold bind at 1, get. unfold bind at 1, modify.
  unfold bind at 1, lift.
  assert (Hv' : same_records n
            (set_temporal_index
               (dd_touch (hour_key current_time) (temporal_index n)) n)).
  { pose proof (bucket_eq_touch (hour_key current_time) (temporal_index n)).
    pose proof (same_records_refl n) as Hv. records_split Hv. }
  destruct (replace_hour current_time (hour current_time + 1)) as [next|e];
    [|exact Hv'].
  etransitivity; [exact Hv'|apply IH].
Qed.

Lemma keeps_records_filter_time_range (q : MemoryQuery) (c : gset string) :
  keeps_records (filter_time_range q c).
Proof.
  unfold filter_time_range.
  destruct (q_time_range q) as [[start_time end_time]|]; [|steps_leaf].
  steps_seq; [apply keeps_records_time_scan|intros ?; steps_leaf].
Qed.

Lemma keeps_records_filter_tags (q : MemoryQuery) (c : gset string) :
  keeps_records (filter_tags q c).
Proof.
  unfold filter_tags. destruct (q_tags q) as [ts|]; [|steps_leaf].
  destruct (truthy_set ts); [|steps_leaf].
  intros n. unfold bind, get, modify, ret. simpl.
  pose proof (dd_union_keeps (elements ts) ∅ (tag_index n)).
  pose proof (same_records_refl n) as Hv. records_split Hv.
Qed.

Lemma keeps_records_filter_emotional_range (q : MemoryQuery) (c : gset string) :
  keeps_records (filter_emotional_range q c).
Proof.
  unfold filter_emotional_range.
  destruct (q_emotional_range q) as [[min_val max_val]|]; [|steps_leaf].
  intros n. unfold bind, get, modify, ret. simpl.
  match goal with
  | |- context [dd_union ?ks ∅ (emotional_index n)] =>
      pose proof (dd_union_keeps ks ∅ (emotional_index n))
  end.
  pose proof (same_records_refl n) as Hv. records_split Hv.
Qed.

Lemma keeps_records_filter_importance (q : MemoryQuery) (c : gset string) :
  keeps_records (filter_importance q c).
Proof.
  unfold filter_importance.
  destruct (q_importance_threshold q) as [threshold|]; [|steps_leaf].
  intros n. apply same_records_refl.
Qed.

Lemma keeps_records_select_candidates (q : MemoryQuery) :
  keeps_records (select_candidates q).
Proof.
  unfold select_candidates. apply steps_get. intros n.
  steps_seq; [apply keeps_records_filter_content|intros ?].
  steps_seq; [apply keeps_records_filter_context|intros ?].
  steps_seq; [apply keeps_records_filter_time_range|intros ?].
  steps_seq; [apply keeps_records_filter_tags|intros ?].
  steps_seq; [apply keeps_records_filter_emotional_range|intros ?].
  apply keeps_records_filter_importance.
Qed.

Lemma keeps_view_select_candidates (q : MemoryQuery) :
  keeps_view (select_candidates q).
Proof.
  eapply steps_weaken; [apply same_records_view|].
  apply keeps_records_select_candidates.
Qed.

(** [collect_results] reads the store and leaves it as it is. *)
Lemma collect_results_state (ids : list string) (n : MemoryNetwork) :
  (collect_results ids n).2 = n.
Proof.
  induction ids as [|id ids IH]; simpl; [reflexivity|].
  unfold bind at 1, get.
  destruct (dict_get id (memories n)); [|reflexivity].
  unfold bind. destruct (collect_results ids n) as [[xs|e] n1]; exact IH.
Qed.

Lemma collect_results_ok (ids : list string) (n : MemoryNetwork)
      (xs : list (string * MemoryTrace)) :
  (collect_results ids n).1 = Ok xs ->
  map fst xs = ids
  /\ Forall (fun x => dict_get x.1 (memories n) = Some x.2) xs.
Proof.
  revert xs. induction ids as [|id ids IH]; intros xs; simpl.
  - intros [= <-]. auto.
  - unfold bind at 1, get.
    destruct (dict_get id (memories n)) as [m|] eqn:Hg; [|discriminate].
    unfold bind. pose proof (collect_results_state ids n) as Hst.
    destruct (collect_results ids n) as [[ys|e] n1]; [|discriminate].
    simpl. intros [= <-]. destruct (IH ys eq_refl) as [Hids Hall].
    split; [simpl; congruence|]. constructor; [exact Hg|exact Hall].
Qed.

Lemma collect_results_present (ids : list string) (n : MemoryNetwork) :
  Forall (fun id => In id (dict_keys (memories n))) ids ->
  exists xs, (collect_results ids n).1 = Ok xs.
Proof.
  induction 1 as [|id ids Hin _ [xs IH]]; simpl; [eexists; reflexivity|].
  unfold bind at 1, get. apply dict_get_in_keys in Hin.
  destruct (dict_get id (memories n)) as [m|]; [|congruence].
  unfold bind. destruct (collect_results ids n) as [[ys|e] n1];
    [|discriminate]. eexists. reflexivity.
Qed.

(** The closing loop of [retrieve_memories] always runs to its end. *)
Lemma touch_each_ok (now : datetime) (rs : list (string * MemoryTrace))
      (n : MemoryNetwork) :
  (for_each rs (fun r => modify (touch_memory now r.1)) n).1 = Ok tt.
Proof.
  revert n. induction rs as [|r rs IH]; intros n; simpl; [reflexivity|].
  unfold bind, modify. apply IH.
Qed.

Lemma keeps_view_touch_each (now : datetime) (rs : list (string * MemoryTrace)) :
  keeps_view (for_each rs (fun r => modify (touch_memory now r.1))).
Proof.
  steps_loop. intros r. apply steps_modify. intros n.
  pose proof (dict_update_view (mark_retrieved now) r.1 (memories n)
                (fun m => conj eq_refl eq_refl)).
  pose proof (same_view_refl n) as Hv. view_split Hv.
Qed.

Lemma keeps_view_retrieve_memories `{SetIteration} (now : datetime)
      (q : MemoryQuery) :
  keeps_view (retrieve_memories now q).
Proof.
  unfold retrieve_memories.
  steps_seq; [apply keeps_view_select_candidates|intros c].
  steps_seq; [intros n; rewrite collect_results_state; reflexivity|intros xs].
  steps_seq; [apply keeps_view_touch_each|intros _; steps_leaf].
Qed.

Lemma map_fst_returned (now : datetime) (rs : list (string * MemoryTrace)) :
  map fst (map (returned now) rs) = map fst rs.
Proof. rewrite map_map. reflexivity. Qed.

(** [retrieve_memories] in one piece: it returns exactly when the filters
    and the look-ups of the candidates do. *)
Lemma retrieve_memories_run `{SetIteration} (now : datetime) (q : MemoryQuery)
      (n : MemoryNetwork) :
  retrieve_memories now q n
  = match select_candidates q n with
    | (Ok c, na) =>
        match (collect_results (set_iter c) na).1 with
        | Ok xs =>
            let rs := stable_sort relevance_leb xs in
            (Ok (map (returned now) rs),
             (for_each rs (fun r => modify (touch_memory now r.1)) na).2)
        | Raise e => (Raise e, na)
        end
    | (Raise e, na) => (Raise e, na)
    end.
Proof.
  unfold retrieve_memories. unfold bind at 1.
  destruct (select_candidates q n) as [[c|e] na]; [|reflexivity].
  unfold bind at 1. pose proof (collect_results_state (set_iter c) na) as Hst.
  destruct (collect_results (set_iter c) na) as [[xs|e] nb]; simpl in *;
    subst nb; [|reflexivity].
  unfold bind at 1.
  pose proof (touch_each_ok now (stable_sort relevance_leb xs) na) as Hok.
  destruct (for_each _ _ na) as [[[]|e] nc]; simpl in *; [|discriminate].
  reflexivity.
Qed.

Lemma dict_get_update {V} (k k' : string) (f : V -> V) (d : list (string * V)) :
  dict_get k (dict_update k' f d)
  = if String.eqb k k' then f <$> dict_get k d else dict_get k d.
Proof.
  induction d as [|[k0 v] d IH]; simpl; [now destruct (String.eqb k k')|].
  destruct (String.eqb k' k0) eqn:E0; simpl.
  - apply String.eqb_eq in E0. subst k0.
    destruct (String.eqb k k') eqn:E; [|reflexivity].
    reflexivity.
  - destruct (String.eqb k k0) eqn:E1.
    + apply String.eqb_eq in E1. subst k0.
      rewrite String.eqb_sym, E0. reflexivity.
    + exact IH.
Qed.

(** After the closing loop over pairs with distinct keys, a record that was
    returned is stored as it was returned. *)
Lemma touch_each_lookup (now : datetime) (rs : list (string * MemoryTrace))
      (n : MemoryNetwork) (k : string) (m : MemoryTrace) :
  NoDup (map fst rs) ->
  dict_get k (memories n) = Some m ->
  dict_get k (memories (for_each rs (fun r => modify (touch_memory now r.1)) n).2)
  = Some (if bool_decide (k ∈ map fst rs) then mark_retrieved now m else m).
Proof.
  revert n m. induction rs as [|r rs IH]; intros n m Hnd Hg; simpl.
  - exact Hg.
  - apply NoDup_cons in Hnd as [Hnotin Hnd].
    unfold bind, modify. rewrite (IH _ (if String.eqb k r.1
                                       then mark_retrieved now m else m) Hnd).
    + destruct (String.eqb k r.1) eqn:E.
      * apply String.eqb_eq in E. subst k.
        rewrite (bool_decide_eq_true_2 (r.1 ∈ r.1 :: map fst rs));
          [|left].
        now rewrite bool_decide_eq_false_2.
      * apply String.eqb_neq in E.
        destruct (bool_decide (k ∈ map fst rs)) eqn:Eb.
        -- apply bool_decide_eq_true in Eb.
           rewrite bool_decide_eq_true_2; [reflexivity|now right].
        -- apply bool_decide_eq_false in Eb.
           rewrite bool_decide_eq_false_2; [reflexivity|].
           intros Hin. apply list_elem_of_In in Hin. destruct Hin as [?|Hin];
             [congruence|]. apply Eb, list_elem_of_In, Hin.
    + unfold touch_memory. simpl. rewrite dict_get_update, Hg.
      now destruct (String.eqb k r.1).
Qed.

(** ** The same query twice *)

(** C9: when a query returns, the same query run again at once (no store or
    eviction in between, any clock reading, any set iteration order) returns
    too, with the same identifiers, although the first run has raised the
    retrieval count and set [last_accessed] of every record it returned,
    both in the returned pairs and in the store. *)
Theorem same_query_twice_same_ids
        (first second : SetIteration) (now1 now2 : datetime)
        (q : MemoryQuery) (n n1 : MemoryNetwork)
        (r1 : list (string * MemoryTrace)) :
  @retrieve_memories first now1 q n = (Ok r1, n1) ->
  exists r2 n2,
    @retrieve_memories second now2 q n1 = (Ok r2, n2)
    /\ map fst r2 ≡ₚ map fst r1
    /\ (list_to_set (map fst r2) : gset string) = list_to_set (map fst r1)
    /\ Forall (fun x => exists m,
                 dict_get x.1 (memories n) = Some m
                 /\ x.2 = mark_retrieved now1 m
                 /\ dict_get x.1 (memories n1) = Some x.2) r1.
Proof.
  intros Hrun.
  pose proof (keeps_view_retrieve_memories (H := first) now1 q n) as Hview.
  rewrite Hrun in Hview. simpl in Hview.
  rewrite retrieve_memories_run in Hrun.
  pose proof (keeps_records_select_candidates q n) as [Hmem _].
  destruct (respects_select_candidates q n n1 Hview) as [Hsel Hview'].
  destruct (select_candidates q n) as [[c|e] na]; [|discriminate].
  simpl in Hsel, Hview', Hmem.
  destruct ((collect_results (@set_iter first c) na).1) as [xs|e] eqn:Hcol;
    [|discriminate].
  apply collect_results_ok in Hcol as [Hids Hall].
  simpl in Hrun. injection Hrun as Hr1 Hn1.
  assert (Hsorted : map fst (stable_sort relevance_leb xs) ≡ₚ elements c).
  { rewrite (stable_sort_perm relevance_leb xs), Hids.
    apply (@set_iter_perm first). }
  (* the second run *)
  rewrite retrieve_memories_run.
  destruct (select_candidates q n1) as [[c'|e'] nb]; simpl in Hsel, Hview';
    [|discriminate].
  injection Hsel as <-.
  destruct (collect_results_present (@set_iter second c) nb) as [xs2 Hcol2].
  { rewrite <- (same_view_keys na nb Hview'). apply Forall_forall.
    intros id Hin.
    rewrite (@set_iter_perm second c), <- (@set_iter_perm first c), <- Hids in Hin.
    apply (proj1 (list_elem_of_In _ _)) in Hin.
    apply in_map_iff in Hin as (x & <- & Hx).
    apply dict_get_in_keys. rewrite Forall_forall in Hall.
    rewrite (Hall x); [discriminate|apply (proj2 (list_elem_of_In _ _)), Hx]. }
  rewrite Hcol2. apply collect_results_ok in Hcol2 as [Hids2 _].
  eexists _, _. split; [reflexivity|].
  assert (Hperm : map fst (map (returned now2) (stable_sort relevance_leb xs2))
                  ≡ₚ map fst r1).
  { rewrite <- Hr1, !map_fst_returned, Hsorted.
    rewrite (stable_sort_perm relevance_leb xs2), Hids2.
    apply (@set_iter_perm second). }
  split; [exact Hperm|]. split; [apply list_to_set_perm_L, Hperm|].
  subst r1. apply Forall_forall. intros x Hx.
  apply (proj1 (list_elem_of_In _ _)) in Hx.
  apply in_map_iff in Hx as (y & <- & Hy).
  exists y.2. simpl.
  assert (Hstored : dict_get y.1 (memories na) = Some y.2).
  { rewrite Forall_forall in Hall. apply Hall.
    rewrite <- (stable_sort_perm relevance_leb xs).
    apply (proj2 (list_elem_of_In _ _)), Hy. }
  split; [now rewrite <- Hmem|]. split; [reflexivity|].
  rewrite <- Hn1.
  rewrite (touch_each_lookup now1 _ na y.1 y.2); [| |exact Hstored].
  - rewrite bool_decide_eq_true_2; [reflexivity|].
    apply (proj2 (list_elem_of_In _ _)), in_map, Hy.
  - rewrite Hsorted. apply NoDup_elements.
Qed.

Lemma same_query_twice_same_ids_witness :
  exists r2 n2,
    @retrieve_memories iter_reversed sample_now important_query
      (@retrieve_memories iter_elements sample_now important_query sample_store).2
    = (Ok r2, n2)
    /\ map fst r2
       ≡ₚ map fst (returned_value
                    (@retrieve_memories iter_elements sample_now
                       important_query sample_store).1)
    /\ (list_to_set (map fst r2) : gset string)
       = list_to_set
           (map fst (returned_value
                       (@retrieve_memories iter_elements sample_now
                          important_query sample_store).1))
    /\ Forall (fun x => exists m,
                 dict_get x.1 (memories sample_store) = Some m
                 /\ x.2 = mark_retrieved sample_now m
                 /\ dict_get x.1
                      (memories (@retrieve_memories iter_elements sample_now
                                   important_query sample_store).2)
                    = Some x.2)
              (returned_value
                 (@retrieve_memories iter_elements sample_now
                    important_query sample_store).1).
Proof.
  apply (same_query_twice_same_ids iter_elements iter_reversed
           sample_now sample_now important_query sample_store).
  apply run_eta. vm_compute. reflexivity.
Defined.

(** ** Result order *)

Section StableSortOrder.
Context {A : Type} (leb : A -> A -> bool).
Hypothesis leb_total : forall x y, leb x y = true \/ leb y x = true.
Hypothesis leb_trans :
  forall x y z, leb x y = true -> leb y z = true -> leb x z = true.

Let le (a b : A) : Prop := leb a b = true.

Lemma sort_insert_sorted (x : A) (l : list A) :
  StronglySorted le l -> StronglySorted le (sort_insert leb x l).
Proof.
  induction l as [|y l IH]; simpl; intros Hs.
  - repeat constructor.
  - inversion Hs as [|? ? Hl Hy]; subst.
    destruct (leb x y) eqn:E.
    + constructor; [exact Hs|]. constructor; [exact E|].
      eapply Forall_impl; [exact Hy|]. intros z Hz. eapply leb_trans; eauto.
    + constructor; [apply IH, Hl|].
      rewrite sort_insert_perm. constructor; [|exact Hy].
      destruct (leb_total x y) as [Hxy|Hyx]; [congruence|exact Hyx].
Qed.

Lemma stable_sort_sorted (l : list A) : StronglySorted le (stable_sort leb l).
Proof.
  induction l as [|x l IH]; simpl; [constructor|].
  apply sort_insert_sorted, IH.
Qed.

(** Stability: elements that the order does not separate keep their
    relative position. *)
Lemma sort_insert_filter (P : A -> bool) (x : A) (l : list A) :
  (forall a b, P a = true -> P b = true -> leb a b = true) ->
  List.filter P (sort_insert leb x l) = List.filter P (x :: l).
Proof.
  intros Htied. induction l as [|y l IH]; simpl; [reflexivity|].
  destruct (leb x y) eqn:E; [reflexivity|].
  simpl. rewrite IH. simpl.
  destruct (P x) eqn:Px, (P y) eqn:Py; try reflexivity.
  rewrite (Htied x y Px Py) in E. discriminate.
Qed.

Lemma stable_sort_filter (P : A -> bool) (l : list A) :
  (forall a b, P a = true -> P b = true -> leb a b = true) ->
  List.filter P (stable_sort leb l) = List.filter P l.
Proof.
  intros Htied. induction l as [|x l IH]; simpl; [reflexivity|].
  rewrite sort_insert_filter by exact Htied. simpl. now rewrite IH.
Qed.
End StableSortOrder.

Lemma relevance_leb_spec (a b : string * MemoryTrace) :
  relevance_leb a b = true <-> by_relevance a b.
Proof.
  unfold relevance_leb, by_relevance.
  destruct (- importance a.2 ?= - importance b.2)%Q eqn:E.
  - apply Qeq_alt in E. rewrite Z.leb_le. split.
    + intros Hle. right. split; [lra|lia].
    + intros [Hlt|[_ Hle]]; [lra|lia].
  - apply Qlt_alt in E. split; [intros _; left; lra|reflexivity].
  - apply Qgt_alt in E. split; [discriminate|].
    intros [Hlt|[Heq _]]; lra.
Qed.

Lemma relevance_leb_total (a b : string * MemoryTrace) :
  relevance_leb a b = true \/ relevance_leb b a = true.
Proof.
  rewrite !relevance_leb_spec. unfold by_relevance.
  destruct (Q_dec (importance a.2) (importance b.2)) as [[Hlt|Hgt]|Heq];
    [right; left; exact Hlt|left; left; exact Hgt|].
  destruct (Z.le_ge_cases (retrieval_count a.2) (retrieval_count b.2));
    [right|left]; right; split; auto; lra.
Qed.

Lemma relevance_leb_trans (a b c : string * MemoryTrace) :
  relevance_leb a b = true -> relevance_leb b c = true ->
  relevance_leb a c = true.
Proof.
  rewrite !relevance_leb_spec. unfold by_relevance.
  intros [H1|[H1 H1']] [H2|[H2 H2']];
    try (left; lra). right. split; [lra|lia].
Qed.

Lemma tied_at_relevance (i : Q) (k : Z) (a b : string * MemoryTrace) :
  tied_at i k a = true -> tied_at i k b = true -> relevance_leb a b = true.
Proof.
  unfold tied_at. intros Ha Hb.
  apply andb_prop in Ha as [Ha Ha']. apply andb_prop in Hb as [Hb Hb'].
  apply Qeq_bool_iff in Ha, Hb. apply Z.eqb_eq in Ha', Hb'.
  apply relevance_leb_spec. right. split; [lra|lia].
Qed.

Lemma by_relevance_returned (now : datetime) (a b : string * MemoryTrace) :
  by_relevance a b -> by_relevance (returned now a) (returned now b).
Proof.
  unfold by_relevance, returned. simpl.
  intros [Hlt|[Heq Hle]]; [left; exact Hlt|right; split; [exact Heq|lia]].
Qed.

Lemma returned_sorted (now : datetime) (l : list (string * MemoryTrace)) :
  StronglySorted (fun a b => relevance_leb a b = true) l ->
  StronglySorted by_relevance (map (returned now) l).
Proof.
  induction 1 as [|a l Hl IH Ha]; simpl; constructor; [exact IH|].
  apply Forall_map. eapply Forall_impl; [exact Ha|].
  intros b Hab. apply by_relevance_returned, relevance_leb_spec, Hab.
Qed.

Lemma tied_at_returned (now : datetime) (i : Q) (k : Z)
      (x : string * MemoryTrace) :
  tied_at i (k + 1) (returned now x) = tied_at i k x.
Proof.
  unfold tied_at, returned. simpl. f_equal.
  destruct (retrieval_count x.2 =? k) eqn:E.
  - apply Z.eqb_eq in E. apply Z.eqb_eq. lia.
  - apply Z.eqb_neq in E. apply Z.eqb_neq. lia.
Qed.

Lemma filter_tied_returned (now : datetime) (i : Q) (k : Z)
      (l : list (string * MemoryTrace)) :
  List.filter (tied_at i (k + 1)) (map (returned now) l)
  = map (returned now) (List.filter (tied_at i k) l).
Proof.
  induction l as [|x l IH]; simpl; [reflexivity|].
  rewrite tied_at_returned. destruct (tied_at i k x); simpl; now rewrite IH.
Qed.

(** C8 (amended): when a query returns, the returned sequence is sorted by
    importance descending, then retrieval count descending; it lists the
    candidate set once each, and records tied on both keys stand in the
    order in which the candidate set was iterated: there is no tie-break by
    identifier, the order of ties is the set iteration order. *)
Theorem retrieve_sorted_ties_in_iteration_order
        `{SetIteration} (now : datetime) (q : MemoryQuery)
        (n n' : MemoryNetwork) (r : list (string * MemoryTrace)) :
  retrieve_memories now q n = (Ok r, n') ->
  StronglySorted by_relevance r
  /\ exists (c : gset string) (xs : list (string * MemoryTrace)),
       (select_candidates q n).1 = Ok c
       /\ map fst xs = set_iter c
       /\ Forall (fun x => dict_get x.1 (memories n) = Some x.2) xs
       /\ map fst r ≡ₚ set_iter c
       /\ forall i k,
            List.filter (tied_at i (k + 1)) r
            = map (returned now) (List.filter (tied_at i k) xs).
Proof.
  intros Hrun. rewrite retrieve_memories_run in Hrun.
  pose proof (keeps_records_select_candidates q n) as [Hmem _].
  destruct (select_candidates q n) as [[c|e] na]; [|discriminate].
  simpl in Hmem.
  destruct ((collect_results (set_iter c) na).1) as [xs|e] eqn:Hcol;
    [|discriminate].
  apply collect_results_ok in Hcol as [Hids Hall].
  simpl in Hrun. injection Hrun as <- _.
  split.
  { apply returned_sorted, stable_sort_sorted;
      [apply relevance_leb_total|apply relevance_leb_trans]. }
  exists c, xs. split; [reflexivity|]. split; [exact Hids|].
  split; [rewrite <- Hmem; exact Hall|]. split.
  - rewrite map_fst_returned, (stable_sort_perm relevance_leb xs), Hids.
    reflexivity.
  - intros i k. rewrite filter_tied_returned. f_equal.
    apply stable_sort_filter. apply tied_at_relevance.
Qed.

Lemma retrieve_sorted_ties_in_iteration_order_witness :
  StronglySorted by_relevance
    (returned_value (retrieve_memories sample_now important_query sample_store).1)
  /\ exists (c : gset string) (xs : list (string * MemoryTrace)),
       (select_candidates important_query sample_store).1 = Ok c
       /\ map fst xs = set_iter c
       /\ Forall (fun x => dict_get x.1 (memories sample_store) = Some x.2) xs
       /\ map fst (returned_value
                     (retrieve_memories sample_now important_query sample_store).1)
          ≡ₚ set_iter c
       /\ forall i k,
            List.filter (tied_at i (k + 1))
              (returned_value
                 (retrieve_memories sample_now important_query sample_store).1)
            = map (returned sample_now) (List.filter (tied_at i k) xs).
Proof.
  apply (retrieve_sorted_ties_in_iteration_order sample_now important_query
           sample_store
           (retrieve_memories sample_now important_query sample_store).2).
  apply run_eta. vm_compute. reflexivity.
Defined.

(** C8 as stated fails: on one and the same store, the same query lists the
    two records tied on importance and retrieval count in either order,
    depending on the order in which the interpreter iterates the candidate
    set; the first order is not the order of the identifiers. *)
Lemma tie_order_follows_set_iteration :
  map fst (returned_value
             (@retrieve_memories iter_elements sample_now important_query
                sample_store).1)
  = ["mem_1_99"; "mem_0_98"; "mem_2_101"]%string
  /\ map fst (returned_value
                (@retrieve_memories iter_reversed sample_now important_query
                   sample_store).1)
     = ["mem_0_98"; "mem_1_99"; "mem_2_101"]%string.
Proof. split; vm_compute; reflexivity. Qed.

(** ** Loop bounds *)

(** The scan of a time range from a valid hour stops by itself within
    [24 - hour] rounds: more rounds allowed change nothing, so the bound of
    25 in [filter_time_range] is never what ends the loop. *)
Lemma time_scan_fuel (f1 f2 : nat) (current_time end_time : datetime)
      (acc : gset string) (n : MemoryNetwork) :
  0 <= hour current_time <= 23 ->
  24 - hour current_time <= Z.of_nat f1 ->
  24 - hour current_time <= Z.of_nat f2 ->
  time_scan f1 current_time end_time acc n
  = time_scan f2 current_time end_time acc n.
Proof.
  revert f2 current_time acc n.
  induction f1 as [|f1 IH]; intros f2 c acc n Hh H1 H2; [lia|].
  destruct f2 as [|f2]; [lia|]. simpl.
  destruct (datetime_leb c end_time); [|reflexivity].
  unfold bind, get, modify, lift, replace_hour.
  destruct ((0 <=? hour c + 1) && (hour c + 1 <=? 23)) eqn:E; [|reflexivity].
  apply andb_prop in E as [E0 E1]. apply Z.leb_le in E0, E1.
  apply IH; simpl; lia.
Qed.

#[local] Instance no_longer_preorder (memory_id : string) :
  PreOrder (no_longer memory_id).
Proof.
  split; unfold no_longer.
  - intros n. lia.
  - intros a b c ? ?. lia.
Qed.

Lemma list_remove_length (x : string) (l r : list string) :
  list_remove x l = Some r -> S (length r) = length l.
Proof.
  revert r. induction l as [|y l IH]; intros r; simpl; [discriminate|].
  destruct (String.eqb x y); [intros [= <-]; reflexivity|].
  destruct (list_remove x l) as [r'|]; [|discriminate].
  intros [= <-]. simpl. f_equal. now apply IH.
Qed.

Lemma no_longer_del_strength (memory_id : string) (key : string * string) :
  steps (no_longer memory_id) (del_strength key).
Proof.
  unfold del_strength. apply steps_get. intros n.
  destruct (decide _); [|steps_leaf].
  apply steps_modify. intros n0. unfold no_longer, associations_len. simpl. lia.
Qed.

Lemma no_longer_unlink (memory_id x associated_id : string) :
  steps (no_longer memory_id) (unlink x associated_id).
Proof.
  unfold unlink. intros n. unfold bind at 1, get.
  destruct (dict_get associated_id (memories n)) as [other|] eqn:Ho;
    [|reflexivity].
  destruct (list_remove x (associations other)) as [l|] eqn:Hl; [|reflexivity].
  apply list_remove_length in Hl.
  assert (Hfirst : no_longer memory_id n
            (set_memories (dict_update associated_id (set_associations l)
                                       (memories n)) n)).
  { unfold no_longer, associations_len. simpl. rewrite dict_get_update.
    destruct (String.eqb memory_id associated_id) eqn:E; [|lia].
    apply String.eqb_eq in E. subst associated_id. rewrite Ho. simpl. lia. }
  unfold bind at 1, modify at 1.
  etransitivity; [exact Hfirst|].
  apply (steps_bind (no_longer memory_id));
    [apply no_longer_del_strength|intros _; apply no_longer_del_strength].
Qed.

(** The loop of [_remove_memory] stops by itself once the position has
    reached the end of the live list: more rounds allowed change nothing, so
    the bound taken from the first length is never what ends the loop. *)
Lemma remove_associations_fuel (f1 f2 i : nat) (memory_id : string)
      (n : MemoryNetwork) :
  (associations_len memory_id n <= i + f1)%nat ->
  (associations_len memory_id n <= i + f2)%nat ->
  remove_associations f1 i memory_id n = remove_associations f2 i memory_id n.
Proof.
  assert (Hend : forall f i n, (associations_len memory_id n <= i)%nat ->
                   remove_associations f i memory_id n = (Ok tt, n)).
  { intros f j s Hlen. destruct f as [|f]; [reflexivity|]. simpl.
    unfold bind, get. unfold associations_len in Hlen.
    destruct (dict_get memory_id (memories s)) as [m|]; [|reflexivity].
    now rewrite lookup_ge_None_2. }
  revert f2 i n. induction f1 as [|f1 IH]; intros f2 i n H1 H2.
  { rewrite !Hend by lia. reflexivity. }
  destruct f2 as [|f2]; [rewrite !Hend by lia; reflexivity|]. simpl.
  unfold bind at 1, get. unfold bind at 2, get.
  destruct (dict_get memory_id (memories n)) as [m|]; [|reflexivity].
  destruct (associations m !! i) as [associated_id|]; [|reflexivity].
  unfold bind. pose proof (no_longer_unlink memory_id memory_id associated_id n)
    as Hlen.
  destruct (unlink memory_id associated_id n) as [[[]|e] n1]; [|reflexivity].
  unfold no_longer in Hlen. simpl in Hlen. apply IH; lia.
Qed.

(** ** Eviction from a consistent store *)

Lemma list_remove_NoDup (x : string) (l : list string) :
  NoDup l -> x ∈ l -> exists r, list_remove x l = Some r /\ x ∉ r.
Proof.
  induction 1 as [|y l Hy Hl IH]; intros Hin; [inversion Hin|]. simpl.
  destruct (String.eqb x y) eqn:E.
  - apply String.eqb_eq in E. subst y. exists l. split; [reflexivity|].
    exact Hy.
  - apply String.eqb_neq in E. inversion Hin; subst; [congruence|].
    destruct IH as (r & -> & Hr); [assumption|].
    exists (y :: r). split; [reflexivity|].
    intros Hx. inversion Hx; subst; [congruence|auto].
Qed.

Lemma dict_get_del {V} (k x : string) (d : list (string * V)) :
  NoDup (dict_keys d) ->
  dict_get k (dict_del x d) = if String.eqb k x then None else dict_get k d.
Proof.
  induction d as [|[k' v] d IH]; simpl; intros Hnd.
  - now destruct (String.eqb k x).
  - apply NoDup_cons in Hnd as [Hk' Hnd]. destruct (String.eqb x k') eqn:E.
    + apply String.eqb_eq in E. subst k'.
      destruct (String.eqb k x) eqn:E'; [|reflexivity].
      apply String.eqb_eq in E'. subst k.
      destruct (dict_get x d) eqn:Hg; [|reflexivity].
      exfalso. apply Hk', (proj2 (list_elem_of_In _ _)), dict_get_in_keys.
      congruence.
    + simpl. destruct (String.eqb k k') eqn:E'.
      * apply String.eqb_eq in E'. subst k'.
        rewrite String.eqb_sym in E. now rewrite E.
      * apply IH, Hnd.
Qed.

Lemma discard_fold_clean {K} `{Countable K} (x : string) (ks : list K)
      (idx : gmap K (gset string)) (k' : K) :
  (x ∈ dd_bucket k' idx -> k' ∈ ks) ->
  x ∉ dd_bucket k' (foldl (fun idx k => dd_discard k x idx) idx ks).
Proof.
  revert idx. induction ks as [|k ks IH]; intros idx Hin; simpl.
  - intros Hx. apply Hin in Hx. inversion Hx.
  - apply IH. unfold dd_discard, dd_bucket at 1.
    destruct (decide (k = k')) as [->|Hne].
    + rewrite lookup_insert_eq. simpl. intros Hx.
      apply elem_of_difference in Hx as [_ Hx]. exfalso.
      apply Hx, elem_of_singleton. reflexivity.
    + rewrite lookup_insert_ne by exact Hne. intros Hx.
      apply Hin in Hx. inversion Hx; subst; [congruence|assumption].
Qed.

Lemma discard_clean {K} `{Countable K} (x : string) (k k' : K)
      (idx : gmap K (gset string)) :
  (x ∈ dd_bucket k' idx -> k' = k) ->
  x ∉ dd_bucket k' (dd_discard k x idx).
Proof.
  intros Hin. apply (discard_fold_clean x [k] idx k').
  intros Hx. rewrite (Hin Hx). left.
Qed.

#[local] Instance same_indices_preorder : PreOrder same_indices.
Proof.
  split.
  - intros n. repeat split.
  - intros a b c (?&?&?&?) (?&?&?&?). repeat split; congruence.
Qed.

Lemma del_strength_ok (key : string * string) (n : MemoryNetwork) :
  key ∈ dom (association_strength n) ->
  del_strength key n
  = (Ok tt, set_association_strength (delete key (association_strength n)) n).
Proof.
  intros Hin. unfold del_strength, bind, get, modify.
  destruct (decide _); [reflexivity|contradiction].
Qed.

(** One round of the loop on a peer [y] that is still to visit. *)
Lemma unlink_step (x y : string) (m : MemoryTrace) (rest : list string)
      (s : MemoryNetwork) :
  unlinking x m (y :: rest) s -> y <> x -> y ∉ rest ->
  exists s', unlink x y s = (Ok tt, s')
             /\ unlinking x m rest s' /\ same_indices s s'.
Proof.
  intros (Hnd & Hx & Hpeers & Hstr) Hyx Hy. unfold unlink, bind at 1, get.
  destruct (dict_get y (memories s)) as [my|] eqn:Hget.
  - destruct (Hpeers y my Hyx Hget) as [Hlinked _].
    destruct Hlinked as [Hndy Hxy]; [left|].
    destruct (list_remove_NoDup x (associations my) Hndy Hxy) as (r & Hr & Hxr).
    rewrite Hr.
    assert (Hin : In y (dict_keys (memories s)))
      by (apply dict_get_in_keys; congruence).
    destruct (proj1 (Hstr y) ltac:(left) Hin) as [Hk1 Hk2].
    unfold bind at 1, modify at 1. unfold bind at 1.
    rewrite del_strength_ok by exact Hk1.
    rewrite del_strength_ok.
    2:{ simpl. rewrite dom_delete_L.
        apply elem_of_difference. split; [exact Hk2|].
        rewrite elem_of_singleton. congruence. }
    eexists. split; [reflexivity|]. split; [|repeat split].
    unfold unlinking. simpl. rewrite dict_update_keys.
    split; [exact Hnd|]. split.
    { rewrite dict_get_update.
      destruct (String.eqb x y) eqn:E; [|exact Hx].
      apply String.eqb_eq in E. congruence. }
    split.
    + intros y' my' Hy'x. rewrite dict_get_update.
      destruct (String.eqb y' y) eqn:E.
      * apply String.eqb_eq in E. subst y'. rewrite Hget. simpl.
        intros [= <-]. simpl. split; [contradiction|auto].
      * apply String.eqb_neq in E. intros Hg.
        destruct (Hpeers y' my' Hy'x Hg) as [Hl Hn]. split.
        -- intros Hr'. apply Hl. now right.
        -- intros Hr'. apply Hn. intros Hc. inversion Hc; subst; auto.
    + intros y'. rewrite !dom_delete_L, !elem_of_difference, !elem_of_singleton.
      destruct (Hstr y') as [Hl Hn]. split.
      * intros Hr' Hin'. destruct Hl as [H1 H2]; [now right|exact Hin'|].
        assert (y' <> y) by (intros ->; contradiction).
        repeat split; try assumption; congruence.
      * intros Hout. destruct (decide (y' = y)) as [->|Hne].
        -- split; intros [[_ ?] ?]; congruence.
        -- destruct Hn as [H1 H2].
           { destruct Hout as [Hout|Hout]; [left|now right].
             intros Hc. inversion Hc; subst; auto. }
           split; intros [[? _] _]; contradiction.
  - exists s. split; [reflexivity|]. split; [|repeat split].
    assert (Hnin : ~ In y (dict_keys (memories s)))
      by (intros Hc; apply dict_get_in_keys in Hc; congruence).
    split; [exact Hnd|]. split; [exact Hx|]. split.
    + intros y' my' Hy'x Hg.
      assert (y' <> y) by (intros ->; congruence).
      destruct (Hpeers y' my' Hy'x Hg) as [Hl Hn]. split.
      * intros Hr'. apply Hl. now right.
      * intros Hr'. apply Hn. intros Hc. inversion Hc; subst; auto.
    + intros y'. destruct (Hstr y') as [Hl Hn]. split.
      * intros Hr' Hin'. apply Hl; [now right|exact Hin'].
      * intros Hout. apply Hn. destruct (decide (y' = y)) as [->|Hne];
          [now right|].
        destruct Hout as [Hout|Hout]; [left|now right].
        intros Hc. inversion Hc; subst; auto.
Qed.

(** The whole loop: every peer still to visit is unlinked, and the call
    returns. *)
Lemma remove_associations_clean (x : string) (m : MemoryTrace)
      (fuel i : nat) (s : MemoryNetwork) :
  NoDup (associations m) -> x ∉ associations m ->
  (length (associations m) <= i + fuel)%nat ->
  unlinking x m (drop i (associations m)) s ->
  exists s', remove_associations fuel i x s = (Ok tt, s')
             /\ unlinking x m [] s' /\ same_indices s s'.
Proof.
  intros Hnd Hx. revert i s.
  induction fuel as [|fuel IH]; intros i s Hlen Hinv.
  - exists s. rewrite drop_ge in Hinv by lia.
    split; [reflexivity|]. split; [exact Hinv|reflexivity].
  - simpl. unfold bind at 1, get.
    destruct Hinv as (Hk & Hstored & Hrest). rewrite Hstored.
    destruct (associations m !! i) as [y|] eqn:Hi.
    + rewrite (drop_S _ _ _ Hi) in Hrest.
      assert (Hy : y ∈ associations m)
        by (apply list_elem_of_lookup; eauto).
      assert (Hyx : y <> x) by (intros ->; contradiction).
      assert (Hnd' : NoDup (y :: drop (S i) (associations m))).
      { rewrite <- (drop_S _ _ _ Hi).
        eapply sublist_NoDup; [exact Hnd|apply sublist_drop]. }
      apply NoDup_cons in Hnd' as [Hfresh _].
      destruct (unlink_step x y m (drop (S i) (associations m)) s)
        as (s1 & Hrun & Hinv1 & Hidx1); auto.
      { split; [exact Hk|]. split; [exact Hstored|exact Hrest]. }
      unfold bind. rewrite Hrun.
      destruct (IH (S i) s1) as (s' & Hrun' & Hinv' & Hidx'); [lia|exact Hinv1|].
      exists s'. split; [exact Hrun'|]. split; [exact Hinv'|].
      etransitivity; eassumption.
    + apply lookup_ge_None in Hi. rewrite drop_ge in Hrest by lia.
      exists s. split; [reflexivity|]. split; [|reflexivity].
      split; [exact Hk|]. split; [exact Hstored|exact Hrest].
Qed.

(** In a store where the entries of [x] are those of its record,
    [_remove_memory(x)] returns and leaves no trace of [x]: no index bucket
    holds it, no surviving record lists it, no stored strength is keyed by
    it. *)
Lemma remove_memory_clean (x : string) (m : MemoryTrace) (n : MemoryNetwork) :
  consistent_for x m n ->
  exists n', _remove_memory x n = (Ok tt, n') /\ forgotten x n'.
Proof.
  intros [Hk Hstored Hctx Htmp Hemo Htag [Hnd Hown] Hpeers Hin Honly].
  unfold _remove_memory. unfold bind at 1, get. rewrite Hstored.
  do 4 (unfold bind at 1, modify at 1).
  match goal with
  | |- context [bind (remove_associations _ _ _) _ ?s] => set (n4 := s)
  end.
  destruct (remove_associations_clean x m (length (associations m)) 0 n4)
    as (s' & Hrun & (Hk' & Hstored' & Hpeers' & Hstr') & Hc & Ht & He & Hg);
    [exact Hnd|exact Hown|lia| |].
  { rewrite drop_0. split; [exact Hk|]. split; [exact Hstored|]. split.
    - intros y my Hyx Hget. destruct (Hpeers y my Hyx Hget) as [Hndy Hiff].
      split; [intros Hy; split; [exact Hndy|apply Hiff, Hy]|].
      intros Hy Hc. apply Hy, Hiff, Hc.
    - intros y. split; [apply Hin|].
      intros Hout. split; intros Hc;
        destruct (Honly y) as [Hy Hs]; auto; destruct Hout; contradiction. }
  unfold bind at 1. rewrite Hrun. unfold modify.
  eexists. split; [reflexivity|]. unfold forgotten. simpl.
  rewrite Hc, Ht, He, Hg. subst n4. simpl.
  split; [rewrite dict_get_del by exact Hk'; now rewrite String.eqb_refl|].
  split; [intros k; apply discard_fold_clean, Hctx|].
  split; [intros k; apply discard_clean, Htmp|].
  split; [intros k; apply discard_clean, Hemo|].
  split.
  { intros k. apply discard_fold_clean. intros Hx.
    apply elem_of_elements, Htag, Hx. }
  split.
  - intros y my. rewrite dict_get_del by exact Hk'.
    destruct (String.eqb y x) eqn:E; [discriminate|].
    apply String.eqb_neq in E. intros Hget.
    apply (Hpeers' y my E Hget). intros Hc'. inversion Hc'.
  - intros y. apply (Hstr' y). left. intros Hc'. inversion Hc'.
Qed.

(** ** The association graph *)

Lemma same_facts_refl (m : MemoryTrace) : same_facts m m.
Proof. repeat split. Qed.

Lemma same_facts_trans (a b c : MemoryTrace) :
  same_facts a b -> same_facts b c -> same_facts a c.
Proof.
  unfold same_facts. intros (?&?&?&?&?&?) (?&?&?&?&?&?).
  repeat split; congruence.
Qed.

#[local] Instance frame_preorder (x : string) : PreOrder (frame x).
Proof.
  split.
  - intros n. split; try tauto; try reflexivity.
    intros y _. destruct (dict_get y (memories n)); [|exact I].
    split; [apply same_facts_refl|reflexivity].
  - intros a b c [Hk Hr Hs H1 H2 H3 H4] [Hk' Hr' Hs' H1' H2' H3' H4'].
    split; auto.
    + intros y Hy. specialize (Hr y Hy). specialize (Hr' y Hy).
      destruct (dict_get y (memories a)), (dict_get y (memories b)),
        (dict_get y (memories c)); try tauto.
      destruct Hr, Hr'. split; [eapply same_facts_trans; eauto|congruence].
    + intros p q Hp Hq. rewrite Hs', Hs; auto.
    + intros k z Hz. rewrite H1', H1; tauto.
    + intros k z Hz. rewrite H2', H2; tauto.
    + intros k z Hz. rewrite H3', H3; tauto.
    + intros k z Hz. rewrite H4', H4; tauto.
Qed.

Lemma frame_refl (x : string) (n : MemoryNetwork) : frame x n n.
Proof. reflexivity. Qed.

Section DiscardOther.
Context {K : Type} `{Countable K}.

Lemma dd_discard_other (x z : string) (k k' : K) (idx : gmap K (gset string)) :
  z <> x ->
  (z ∈ dd_bucket k' (dd_discard k x idx) <-> z ∈ dd_bucket k' idx).
Proof.
  intros Hz. unfold dd_discard, dd_bucket at 1.
  destruct (decide (k = k')) as [->|Hne].
  - rewrite lookup_insert_eq. simpl.
    rewrite elem_of_difference, elem_of_singleton. tauto.
  - rewrite lookup_insert_ne by exact Hne. reflexivity.
Qed.

Lemma discard_fold_other (x z : string) (ks : list K) (k' : K)
      (idx : gmap K (gset string)) :
  z <> x ->
  (z ∈ dd_bucket k' (foldl (fun idx k => dd_discard k x idx) idx ks)
   <-> z ∈ dd_bucket k' idx).
Proof.
  intros Hz. revert idx. induction ks as [|k ks IH]; intros idx; simpl;
    [reflexivity|].
  rewrite IH. now apply dd_discard_other.
Qed.
End DiscardOther.

Lemma dict_get_del_ne {V} (k x : string) (d : list (string * V)) :
  k <> x -> dict_get k (dict_del x d) = dict_get k d.
Proof.
  intros Hk. induction d as [|[k' v] d IH]; simpl; [reflexivity|].
  destruct (String.eqb x k') eqn:E; simpl.
  - apply String.eqb_eq in E. subst k'.
    destruct (String.eqb k x) eqn:E'; [|reflexivity].
    apply String.eqb_eq in E'. contradiction.
  - now rewrite IH.
Qed.

Lemma dict_del_keys_NoDup {V} (x : string) (d : list (string * V)) :
  NoDup (dict_keys d) -> NoDup (dict_keys (dict_del x d)).
Proof.
  induction d as [|[k' v] d IH]; simpl; intros Hnd; [exact Hnd|].
  apply NoDup_cons in Hnd as [Hk Hnd].
  destruct (String.eqb x k'); [exact Hnd|]. simpl.
  apply NoDup_cons. split; [|apply IH, Hnd].
  intros Hin. apply Hk. clear - Hin.
  induction d as [|[k v] d IHd]; simpl in *; [exact Hin|].
  destruct (String.eqb x k); simpl in *; [now right|].
  inversion Hin; subst; [left|right; auto].
Qed.

Lemma list_remove_without (x : string) (l r : list string) :
  list_remove x l = Some r -> without x r = without x l.
Proof.
  revert r. induction l as [|y l IH]; intros r; simpl; [discriminate|].
  destruct (String.eqb x y) eqn:E.
  - intros [= <-]. rewrite String.eqb_sym, E. reflexivity.
  - destruct (list_remove x l) as [r'|]; [|discriminate].
    intros [= <-]. simpl. rewrite String.eqb_sym, E. simpl.
    f_equal. now apply IH.
Qed.

(** The parts of [frame] that a step leaves untouched. *)
Ltac frame_rest :=
  simpl; try tauto; try reflexivity;
  try (intros; reflexivity);
  try (intros ? _; match goal with
                   | |- match dict_get ?y ?d with _ => _ end =>
                       destruct (dict_get y d);
                       [split; [apply same_facts_refl|reflexivity]|exact I]
                   end).

Lemma frame_del_strength (x : string) (key : string * string) :
  key.1 = x \/ key.2 = x -> steps (frame x) (del_strength key).
Proof.
  intros Hkey. unfold del_strength. apply steps_get. intros n.
  destruct (decide _); [|steps_leaf].
  apply steps_modify. intros n0. split; frame_rest.
  intros a b Ha Hb. apply lookup_delete_ne. destruct key as [p q]. simpl in *.
  intros [= -> ->]. destruct Hkey; contradiction.
Qed.

Lemma frame_unlink (x y : string) : steps (frame x) (unlink x y).
Proof.
  intros n. unfold unlink, bind at 1, get.
  destruct (dict_get y (memories n)) as [other|] eqn:Ho; [|reflexivity].
  destruct (list_remove x (associations other)) as [l|] eqn:Hl; [|reflexivity].
  unfold bind at 1, modify at 1.
  etransitivity;
    [|apply (steps_bind (frame x));
      [apply frame_del_strength; now left
      |intros _; apply frame_del_strength; now right]].
  split; frame_rest.
  - now rewrite dict_update_keys.
  - intros z Hz. rewrite dict_get_update.
    destruct (String.eqb z y) eqn:E.
    + apply String.eqb_eq in E. subst z. rewrite Ho. simpl.
      split; [repeat split|]. apply (list_remove_without _ _ _ Hl).
    + destruct (dict_get z (memories n));
        [split; [apply same_facts_refl|reflexivity]|exact I].
Qed.

Lemma frame_remove_associations (x : string) (fuel i : nat) :
  steps (frame x) (remove_associations fuel i x).
Proof.
  revert i. induction fuel as [|fuel IH]; intros i; simpl; [steps_leaf|].
  apply steps_get. intros n.
  destruct (dict_get x (memories n)); [|steps_leaf].
  destruct (associations m !! i) as [y|]; [|steps_leaf].
  steps_seq; [apply frame_unlink|intros _; apply IH].
Qed.

Lemma frame_remove_memory (x : string) : steps (frame x) (_remove_memory x).
Proof.
  unfold _remove_memory. apply steps_get. intros n.
  destruct (dict_get x (memories n)) as [m|]; [|steps_leaf].
  steps_seq.
  { apply steps_modify. intros n0. split; frame_rest.
    intros k z Hz. now apply discard_fold_other. }
  intros _. steps_seq.
  { apply steps_modify. intros n0. split; frame_rest.
    intros k z Hz. now apply dd_discard_other. }
  intros _. steps_seq.
  { apply steps_modify. intros n0. split; frame_rest.
    intros k z Hz. now apply dd_discard_other. }
  intros _. steps_seq.
  { apply steps_modify. intros n0. split; frame_rest.
    intros k z Hz. now apply discard_fold_other. }
  intros _. steps_seq; [apply frame_remove_associations|].
  intros _. apply steps_modify. intros n0. split; frame_rest.
  - apply dict_del_keys_NoDup.
  - intros y Hy. rewrite dict_get_del_ne by exact Hy.
    destruct (dict_get y (memories n0));
      [split; [apply same_facts_refl|reflexivity]|exact I].
Qed.

Lemma elem_of_without (x z : string) (l : list string) :
  z ∈ without x l <-> z ∈ l /\ z <> x.
Proof.
  unfold without. induction l as [|y l IH]; simpl.
  - split; [intros H; inversion H|intros [H _]; inversion H].
  - destruct (String.eqb y x) eqn:E; simpl.
    + apply String.eqb_eq in E. subst y. rewrite IH. split.
      * intros [? ?]. split; [now right|assumption].
      * intros [Hin Hne]. inversion Hin; subst; [contradiction|auto].
    + apply String.eqb_neq in E. rewrite !elem_of_cons, IH. split.
      * intros [->|[? ?]]; auto.
      * intros [[->|?] ?]; auto.
Qed.

Lemma NoDup_without (x : string) (l : list string) :
  NoDup l -> NoDup (without x l).
Proof.
  induction 1 as [|y l Hy Hl IH]; [constructor|].
  change (without x (y :: l))
    with (if negb (String.eqb y x) then y :: without x l else without x l).
  destruct (negb (String.eqb y x)); [|exact IH].
  constructor; [|exact IH]. rewrite elem_of_without. tauto.
Qed.

Lemma without_absent (x : string) (l : list string) :
  x ∉ l -> without x l = l.
Proof.
  unfold without. induction l as [|y l IH]; simpl; intros Hx; [reflexivity|].
  apply not_elem_of_cons in Hx as [Hne Hx].
  destruct (String.eqb y x) eqn:E.
  - apply String.eqb_eq in E. congruence.
  - simpl. f_equal. apply IH, Hx.
Qed.

(** A consistent store is consistent for each of its identifiers. *)
Lemma consistent_consistent_for (x : string) (m : MemoryTrace)
      (n : MemoryNetwork) :
  consistent n -> dict_get x (memories n) = Some m -> consistent_for x m n.
Proof.
  intros [Hk Hnd Hirr Hsym Hstr Hss Hc Ht He Hg] Hx. split; auto.
  - intros k Hin. destruct (Hc x k Hin) as (mz & Hmz & Hkz). congruence.
  - intros k Hin. destruct (Ht x k Hin) as (mz & Hmz & Hkz). congruence.
  - intros k Hin. destruct (He x k Hin) as (mz & Hmz & Hkz). congruence.
  - intros k Hin. destruct (Hg x k Hin) as (mz & Hmz & Hkz). congruence.
  - split; eauto.
  - intros y my Hy Hget. split; [eauto|]. split.
    + intros Hin. destruct (Hsym y my x Hget Hin) as (mx & Hmx & Hyx).
      congruence.
    + intros Hin. destruct (Hsym x m y Hx Hin) as (my' & Hmy & Hxy).
      congruence.
  - intros y Hin _. split; apply Hstr; [eauto|].
    destruct (Hsym x m y Hx Hin) as (my & Hmy & Hxy). eauto.
  - intros y [Hin|Hin]; apply Hstr in Hin as (ma & Hma & Hb).
    + assert (ma = m) by congruence. subst ma. split; [exact Hb|].
      destruct (Hsym x m y Hx Hb) as (my & Hmy & _).
      apply dict_get_in_keys. congruence.
    + destruct (Hsym y ma x Hma Hb) as (mx & Hmx & Hyx).
      assert (mx = m) by congruence. subst mx. split; [exact Hyx|].
      apply dict_get_in_keys. congruence.
Qed.

(** Forgetting one identifier of a consistent store, and keeping the rest,
    gives a consistent store. *)
Lemma consistent_forget (x : string) (n n' : MemoryNetwork) :
  consistent n -> frame x n n' -> forgotten x n' -> consistent n'.
Proof.
  intros [Hk Hnd Hirr Hsym Hstr Hss Hc Ht He Hg]
         [Fk Fr Fs Fc Ft Fe Fg]
         (Gx & Gc & Gt & Ge & Gg & Gp & Gs).
  assert (Hback : forall y my', dict_get y (memories n') = Some my' ->
            y <> x /\ exists my, dict_get y (memories n) = Some my
                       /\ same_facts my my'
                       /\ associations my' = without x (associations my)).
  { intros y my' Hy. assert (Hyx : y <> x) by congruence.
    split; [exact Hyx|]. specialize (Fr y Hyx). rewrite Hy in Fr.
    destruct (dict_get y (memories n)) as [my|]; [|contradiction].
    destruct Fr as [Hf Hw]. exists my. repeat split; try apply Hf.
    rewrite <- Hw. symmetry. apply without_absent. eapply Gp, Hy. }
  assert (Hforth : forall y my, y <> x -> dict_get y (memories n) = Some my ->
            exists my', dict_get y (memories n') = Some my'
                        /\ same_facts my my'
                        /\ associations my' = without x (associations my)).
  { intros y my Hyx Hy. specialize (Fr y Hyx). rewrite Hy in Fr.
    destruct (dict_get y (memories n')) as [my'|] eqn:Hy'; [|contradiction].
    destruct (Hback y my' Hy') as (_ & my0 & Hmy0 & Hf & Hw).
    assert (my0 = my) by congruence. subst my0. eauto. }
  split; auto.
  - intros y my' Hy. destruct (Hback y my' Hy) as (_ & my & Hmy & _ & ->).
    apply NoDup_without. eauto.
  - intros y my' Hy. destruct (Hback y my' Hy) as (_ & my & Hmy & _ & ->).
    rewrite elem_of_without. intros [Hin _]. eapply Hirr; eauto.
  - intros y my' z Hy Hz.
    destruct (Hback y my' Hy) as (Hyx & my & Hmy & _ & Hw).
    rewrite Hw in Hz. apply elem_of_without in Hz as [Hz Hzx].
    destruct (Hsym y my z Hmy Hz) as (mz & Hmz & Hyz).
    destruct (Hforth z mz Hzx Hmz) as (mz' & Hmz' & _ & Hw').
    exists mz'. split; [exact Hmz'|]. rewrite Hw'. apply elem_of_without. auto.
  - intros a b. destruct (decide (a = x)) as [->|Ha].
    { split; [intros Hin; destruct (Gs b) as [? _]; contradiction|].
      intros (ma & Hma & _). congruence. }
    destruct (decide (b = x)) as [->|Hb].
    { split; [intros Hin; destruct (Gs a) as [_ ?]; contradiction|].
      intros (ma & Hma & Hin). exfalso. eapply Gp; eauto. }
    rewrite elem_of_dom, (Fs a b Ha Hb), <- elem_of_dom, Hstr. split.
    + intros (ma & Hma & Hin).
      destruct (Hforth a ma Ha Hma) as (ma' & Hma' & _ & Hw).
      exists ma'. split; [exact Hma'|]. rewrite Hw. apply elem_of_without. auto.
    + intros (ma' & Hma' & Hin).
      destruct (Hback a ma' Hma') as (_ & ma & Hma & _ & Hw).
      exists ma. split; [exact Hma|]. rewrite Hw in Hin.
      now apply elem_of_without in Hin as [Hin _].
  - intros a b.
    destruct (decide (a = x)) as [->|Ha]; [|destruct (decide (b = x)) as [->|Hb]].
    + destruct (Gs b) as [G1 G2]. apply not_elem_of_dom in G1, G2. congruence.
    + destruct (Gs a) as [G1 G2]. apply not_elem_of_dom in G1, G2. congruence.
    + rewrite (Fs a b Ha Hb), (Fs b a Hb Ha). apply Hss.
  - intros z k Hin. assert (Hzx : z <> x) by (intros ->; eapply Gc, Hin).
    apply Fc in Hin; [|exact Hzx]. destruct (Hc z k Hin) as (mz & Hmz & Hkz).
    destruct (Hforth z mz Hzx Hmz) as (mz' & Hmz' & Hf & _).
    exists mz'. split; [exact Hmz'|]. destruct Hf as (_&_&_&_&->&_). exact Hkz.
  - intros z k Hin. assert (Hzx : z <> x) by (intros ->; eapply Gt, Hin).
    apply Ft in Hin; [|exact Hzx]. destruct (Ht z k Hin) as (mz & Hmz & Hkz).
    destruct (Hforth z mz Hzx Hmz) as (mz' & Hmz' & Hf & _).
    exists mz'. split; [exact Hmz'|]. destruct Hf as (_&->&_). exact Hkz.
  - intros z k Hin. assert (Hzx : z <> x) by (intros ->; eapply Ge, Hin).
    apply Fe in Hin; [|exact Hzx]. destruct (He z k Hin) as (mz & Hmz & Hkz).
    destruct (Hforth z mz Hzx Hmz) as (mz' & Hmz' & Hf & _).
    exists mz'. split; [exact Hmz'|]. destruct Hf as (_&_&_&->&_). exact Hkz.
  - intros z k Hin. assert (Hzx : z <> x) by (intros ->; eapply Gg, Hin).
    apply Fg in Hin; [|exact Hzx]. destruct (Hg z k Hin) as (mz & Hmz & Hkz).
    destruct (Hforth z mz Hzx Hmz) as (mz' & Hmz' & Hf & _).
    exists mz'. split; [exact Hmz'|]. destruct Hf as (_&_&_&_&_&->). exact Hkz.
Qed.

(** Evicting a stored record from a consistent store returns, leaves no
    trace of its identifier, and leaves a consistent store. *)
Lemma remove_memory_consistent (x : string) (m : MemoryTrace)
      (n : MemoryNetwork) :
  consistent n -> dict_get x (memories n) = Some m ->
  exists n', _remove_memory x n = (Ok tt, n')
             /\ forgotten x n' /\ consistent n' /\ frame x n n'.
Proof.
  intros Hc Hx.
  destruct (remove_memory_clean x m n) as (n' & Hrun & Hf);
    [now apply consistent_consistent_for|].
  pose proof (frame_remove_memory x n) as Hfr. rewrite Hrun in Hfr.
  exists n'. split; [exact Hrun|]. split; [exact Hf|].
  split; [eapply consistent_forget; eauto|exact Hfr].
Qed.

Lemma consistent_init (c : Z) : consistent (MemoryNetwork_init c).
Proof.
  split; simpl; try discriminate.
  - constructor.
  - intros a b. rewrite dom_empty_L. split.
    + intros Hin. apply not_elem_of_empty in Hin. contradiction.
    + intros (ma & Hma & _). discriminate.
  - intros a b. now rewrite !lookup_empty.
Qed.

Lemma dict_get_set {V} (k i : string) (v : V) (d : list (string * V)) :
  dict_get k (dict_set i v d)
  = if String.eqb k i then Some v else dict_get k d.
Proof.
  induction d as [|[k' v'] d IH]; simpl.
  - now destruct (String.eqb k i).
  - destruct (String.eqb i k') eqn:E; simpl.
    + apply String.eqb_eq in E. subst k'. now destruct (String.eqb k i).
    + rewrite IH. destruct (String.eqb k k') eqn:E'; [|reflexivity].
      apply String.eqb_eq in E'. subst k'.
      rewrite String.eqb_sym in E. now rewrite E.
Qed.

Lemma dict_set_keys_NoDup {V} (i : string) (v : V) (d : list (string * V)) :
  NoDup (dict_keys d) -> NoDup (dict_keys (dict_set i v d)).
Proof.
  induction d as [|[k' v'] d IH]; simpl; intros Hnd.
  - repeat constructor. intros H. inversion H.
  - apply NoDup_cons in Hnd as [Hk Hnd].
    destruct (String.eqb i k') eqn:E; simpl.
    + apply NoDup_cons. auto.
    + apply String.eqb_neq in E. apply NoDup_cons. split; [|apply IH, Hnd].
      intros Hin. apply (proj1 (list_elem_of_In _ _)), dict_get_in_keys in Hin.
      rewrite dict_get_set in Hin.
      destruct (String.eqb k' i) eqn:E'.
      * apply String.eqb_eq in E'. congruence.
      * apply Hk, (proj2 (list_elem_of_In _ _)), dict_get_in_keys, Hin.
Qed.

Section AddEntries.
Context {K : Type} `{Countable K}.

Lemma elem_of_dd_add (i z : string) (k k' : K) (idx : gmap K (gset string)) :
  z ∈ dd_bucket k' (dd_add k i idx)
  <-> z ∈ dd_bucket k' idx \/ (z = i /\ k' = k).
Proof.
  unfold dd_add, dd_bucket at 1. destruct (decide (k = k')) as [->|Hne].
  - rewrite lookup_insert_eq. simpl. rewrite elem_of_union, elem_of_singleton.
    tauto.
  - rewrite lookup_insert_ne by exact Hne. split; [auto|].
    intros [?|[_ ?]]; [assumption|congruence].
Qed.

Lemma elem_of_add_fold (i z : string) (ks : list K) (k' : K)
      (idx : gmap K (gset string)) :
  z ∈ dd_bucket k' (foldl (fun idx k => dd_add k i idx) idx ks)
  <-> z ∈ dd_bucket k' idx \/ (z = i /\ k' ∈ ks).
Proof.
  revert idx. induction ks as [|k ks IH]; intros idx; simpl.
  - split; [auto|]. intros [?|[_ Hin]]; [assumption|inversion Hin].
  - rewrite IH, elem_of_dd_add, elem_of_cons. tauto.
Qed.
End AddEntries.

(** After the first two steps of [store_memory] for a new identifier and a
    record without associations, the store is consistent again. *)
Lemma consistent_insert (i : string) (memory : MemoryTrace)
      (n : MemoryNetwork) :
  consistent n ->
  dict_get i (memories n) = None ->
  associations memory = [] ->
  consistent
    (_update_indices i memory
       (set_memories (dict_set i memory (memories n)) n)).2.
Proof.
  intros [Hk Hnd Hirr Hsym Hstr Hss Hc Ht He Hg] Hfresh Hnil.
  assert (Hold : forall z mz, dict_get z (memories n) = Some mz ->
                   dict_get z (dict_set i memory (memories n)) = Some mz).
  { intros z mz Hz. rewrite dict_get_set.
    destruct (String.eqb z i) eqn:E; [|exact Hz].
    apply String.eqb_eq in E. congruence. }
  assert (Hnew : forall z mz,
            dict_get z (dict_set i memory (memories n)) = Some mz ->
            (z = i /\ mz = memory) \/ (z <> i /\ dict_get z (memories n) = Some mz)).
  { intros z mz. rewrite dict_get_set. destruct (String.eqb z i) eqn:E.
    - apply String.eqb_eq in E. intros [= <-]. now left.
    - apply String.eqb_neq in E. now right. }
  assert (Hself : dict_get i (dict_set i memory (memories n)) = Some memory)
    by (rewrite dict_get_set; now rewrite String.eqb_refl).
  split; simpl.
  - now apply dict_set_keys_NoDup.
  - intros z mz Hz. destruct (Hnew z mz Hz) as [[-> ->]|[_ Hz']]; [|eauto].
    rewrite Hnil. constructor.
  - intros z mz Hz. destruct (Hnew z mz Hz) as [[-> ->]|[_ Hz']]; [|eauto].
    rewrite Hnil. intros H. inversion H.
  - intros z mz y Hz Hy. destruct (Hnew z mz Hz) as [[-> ->]|[_ Hz']].
    + rewrite Hnil in Hy. inversion Hy.
    + destruct (Hsym z mz y Hz' Hy) as (my & Hmy & Hzy). eauto.
  - intros a b. rewrite Hstr. split.
    + intros (ma & Hma & Hb). eauto.
    + intros (ma & Hma & Hb). destruct (Hnew a ma Hma) as [[-> ->]|[_ Hma']].
      * rewrite Hnil in Hb. inversion Hb.
      * eauto.
  - exact Hss.
  - intros z k Hin. apply elem_of_add_fold in Hin as [Hin|[-> Hin]];
      [|eauto]. destruct (Hc z k Hin) as (mz & Hmz & Hkz). eauto.
  - intros z k Hin. apply elem_of_dd_add in Hin as [Hin|[-> ->]];
      [|eauto]. destruct (Ht z k Hin) as (mz & Hmz & Hkz). eauto.
  - intros z k Hin. apply elem_of_dd_add in Hin as [Hin|[-> ->]];
      [|eauto]. destruct (He z k Hin) as (mz & Hmz & Hkz). eauto.
  - intros z k Hin. apply elem_of_add_fold in Hin as [Hin|[-> Hin]].
    + destruct (Hg z k Hin) as (mz & Hmz & Hkz). eauto.
    + apply elem_of_elements in Hin. eauto.
Qed.

Lemma associate_with_link (i y : string) (memory other : MemoryTrace)
      (v : Q) (s : MemoryNetwork) :
  String.eqb y i = false ->
  dict_get y (memories s) = Some other ->
  _calculate_association_strength memory other = Ok v ->
  Qgtb v (3 # 10) = true ->
  associate_with i memory y s = (Ok tt, link i y v s).
Proof.
  intros Hne Hy Hv Hgt. unfold associate_with. rewrite Hne.
  unfold bind at 1, get. rewrite Hy. unfold bind at 1, lift. rewrite Hv, Hgt.
  reflexivity.
Qed.

Lemma link_lookup (i y : string) (v : Q) (s : MemoryNetwork) (z : string) :
  y <> i ->
  match dict_get z (memories s), dict_get z (memories (link i y v s)) with
  | Some mz, Some mz' =>
      same_facts mz mz'
      /\ associations mz' = associations mz ++ link_extra i y z
  | None, None => True
  | _, _ => False
  end.
Proof.
  intros Hne. unfold link, append_association, link_extra. simpl.
  rewrite !dict_get_update.
  destruct (dict_get z (memories s)) as [mz|];
    [|now destruct (String.eqb z y), (String.eqb z i)].
  destruct (String.eqb z y) eqn:Ey, (String.eqb z i) eqn:Ei; simpl;
    (split; [repeat split|]); rewrite ?app_nil_r; try reflexivity.
  apply String.eqb_eq in Ey, Ei. congruence.
Qed.

Lemma elem_of_link_extra (i y z w : string) :
  w ∈ link_extra i y z <-> (z = i /\ w = y) \/ (z = y /\ w = i).
Proof.
  unfold link_extra.
  destruct (String.eqb_spec z i), (String.eqb_spec z y); simpl;
    rewrite ?elem_of_cons, ?elem_of_nil; intuition congruence.
Qed.

(** A round that links the new identifier with a peer not yet linked keeps
    the store consistent. *)
Lemma consistent_link (i y : string) (v : Q) (mi my : MemoryTrace)
      (s : MemoryNetwork) :
  consistent s -> y <> i ->
  dict_get i (memories s) = Some mi ->
  dict_get y (memories s) = Some my ->
  y ∉ associations mi ->
  consistent (link i y v s).
Proof.
  intros [Hk Hnd Hirr Hsym Hstr Hss Hc Ht He Hg] Hne Hi Hy Hfresh.
  assert (Hfresh' : i ∉ associations my).
  { intros Hin. destruct (Hsym y my i Hy Hin) as (mi' & Hmi' & Hyi).
    congruence. }
  assert (Hback : forall z mz', dict_get z (memories (link i y v s)) = Some mz' ->
            exists mz, dict_get z (memories s) = Some mz /\ same_facts mz mz'
                       /\ associations mz' = associations mz ++ link_extra i y z).
  { intros z mz' Hz. pose proof (link_lookup i y v s z Hne) as Hl.
    rewrite Hz in Hl. destruct (dict_get z (memories s)) as [mz|];
      [|contradiction]. exists mz. tauto. }
  assert (Hforth : forall z mz, dict_get z (memories s) = Some mz ->
            exists mz', dict_get z (memories (link i y v s)) = Some mz'
                        /\ same_facts mz mz'
                        /\ associations mz' = associations mz ++ link_extra i y z).
  { intros z mz Hz. pose proof (link_lookup i y v s z Hne) as Hl.
    rewrite Hz in Hl. destruct (dict_get z (memories (link i y v s))) as [mz'|];
      [|contradiction]. exists mz'. tauto. }
  pose proof (fun z w => elem_of_link_extra i y z w) as Hextra.
  split.
  - unfold link, append_association. simpl. now rewrite !dict_update_keys.
  - intros z mz' Hz. destruct (Hback z mz' Hz) as (mz & Hmz & _ & ->).
    apply NoDup_app. split; [eauto|]. split.
    + intros w Hw Hw'. apply Hextra in Hw' as [[-> ->]|[-> ->]];
        [assert (mz = mi) by congruence|assert (mz = my) by congruence];
        subst mz; contradiction.
    + unfold link_extra.
      destruct (String.eqb_spec z i), (String.eqb_spec z y); simpl;
        [congruence|..]; repeat constructor; apply not_elem_of_nil.
  - intros z mz' Hz. destruct (Hback z mz' Hz) as (mz & Hmz & _ & ->).
    rewrite elem_of_app, Hextra. intros [Hin|[[-> ->]|[-> ->]]];
      [eapply Hirr; eauto|congruence|congruence].
  - intros z mz' w Hz Hw. destruct (Hback z mz' Hz) as (mz & Hmz & _ & Hw').
    rewrite Hw', elem_of_app, Hextra in Hw.
    destruct Hw as [Hw|[[-> ->]|[-> ->]]].
    + destruct (Hsym z mz w Hmz Hw) as (mw & Hmw & Hzw).
      destruct (Hforth w mw Hmw) as (mw' & Hmw' & _ & Hw'').
      exists mw'. split; [exact Hmw'|]. rewrite Hw'', elem_of_app. now left.
    + destruct (Hforth y my Hy) as (my' & Hmy' & _ & Hw'').
      exists my'. split; [exact Hmy'|]. rewrite Hw'', elem_of_app, Hextra. auto.
    + destruct (Hforth i mi Hi) as (mi' & Hmi' & _ & Hw'').
      exists mi'. split; [exact Hmi'|]. rewrite Hw'', elem_of_app, Hextra. auto.
  - intros a b. unfold link at 1. simpl.
    rewrite !dom_insert_L, !elem_of_union, !elem_of_singleton, Hstr. split.
    + intros [[= -> ->]|[[= -> ->]|(ma & Hma & Hb)]].
      * destruct (Hforth y my Hy) as (my' & Hmy' & _ & Hw).
        exists my'. split; [exact Hmy'|]. rewrite Hw, elem_of_app, Hextra. auto.
      * destruct (Hforth i mi Hi) as (mi' & Hmi' & _ & Hw).
        exists mi'. split; [exact Hmi'|]. rewrite Hw, elem_of_app, Hextra. auto.
      * destruct (Hforth a ma Hma) as (ma' & Hma' & _ & Hw).
        exists ma'. split; [exact Hma'|]. rewrite Hw, elem_of_app. now left.
    + intros (ma' & Hma' & Hb).
      destruct (Hback a ma' Hma') as (ma & Hma & _ & Hw).
      rewrite Hw, elem_of_app, Hextra in Hb.
      destruct Hb as [Hb|[[-> ->]|[-> ->]]]; eauto.
  - intros a b. unfold link. simpl. rewrite !lookup_insert.
    repeat case_decide; simplify_eq; auto.
  - intros z k Hin. destruct (Hc z k Hin) as (mz & Hmz & Hkz).
    destruct (Hforth z mz Hmz) as (mz' & Hmz' & Hf & _).
    exists mz'. split; [exact Hmz'|]. destruct Hf as (_&_&_&_&->&_). exact Hkz.
  - intros z k Hin. destruct (Ht z k Hin) as (mz & Hmz & Hkz).
    destruct (Hforth z mz Hmz) as (mz' & Hmz' & Hf & _).
    exists mz'. split; [exact Hmz'|]. destruct Hf as (_&->&_). exact Hkz.
  - intros z k Hin. destruct (He z k Hin) as (mz & Hmz & Hkz).
    destruct (Hforth z mz Hmz) as (mz' & Hmz' & Hf & _).
    exists mz'. split; [exact Hmz'|]. destruct Hf as (_&_&_&->&_). exact Hkz.
  - intros z k Hin. destruct (Hg z k Hin) as (mz & Hmz & Hkz).
    destruct (Hforth z mz Hmz) as (mz' & Hmz' & Hf & _).
    exists mz'. split; [exact Hmz'|]. destruct Hf as (_&_&_&_&_&->). exact Hkz.
Qed.

(** A round of [_create_associations] either leaves the store as it is
    (same identifier, strength not above 0.3, or an exception) or links. *)
Lemma associate_with_cases (i y : string) (memory : MemoryTrace)
      (s : MemoryNetwork) :
  (associate_with i memory y s).2 = s
  \/ exists other v, y <> i /\ dict_get y (memories s) = Some other
                     /\ associate_with i memory y s = (Ok tt, link i y v s).
Proof.
  destruct (String.eqb y i) eqn:E.
  { left. unfold associate_with. now rewrite E. }
  destruct (dict_get y (memories s)) as [other|] eqn:Hy.
  2:{ left. unfold associate_with, bind, get. now rewrite E, Hy. }
  destruct (_calculate_association_strength memory other) as [v|e] eqn:Hv.
  2:{ left. unfold associate_with, bind, get, lift. now rewrite E, Hy, Hv. }
  destruct (Qgtb v (3 # 10)) eqn:Hg.
  2:{ left. unfold associate_with, bind, get, lift. now rewrite E, Hy, Hv, Hg. }
  right. exists other, v. split; [apply String.eqb_neq, E|].
  split; [reflexivity|]. now apply (associate_with_link i y memory other).
Qed.

Lemma consistent_create_loop (i : string) (memory : MemoryTrace)
      (l : list string) (s : MemoryNetwork) :
  consistent s -> NoDup l ->
  (exists mi, dict_get i (memories s) = Some mi
              /\ forall y, y ∈ l -> y ∉ associations mi) ->
  consistent (for_each l (associate_with i memory) s).2.
Proof.
  revert s. induction l as [|y l IH]; intros s Hc Hnd (mi & Hi & Hout);
    [exact Hc|].
  apply NoDup_cons in Hnd as [Hy Hnd]. simpl. unfold bind.
  destruct (associate_with_cases i y memory s)
    as [Hsame|(other & v & Hne & Hget & Hrun)].
  - destruct (associate_with i memory y s) as [[[]|e] s1]; simpl in Hsame;
      subst s1; [|exact Hc].
    apply IH; [exact Hc|exact Hnd|]. exists mi. split; [exact Hi|].
    intros y' Hy'. apply Hout. now right.
  - rewrite Hrun. apply IH; [|exact Hnd|].
    + eapply consistent_link; eauto. apply Hout. left.
    + pose proof (link_lookup i y v s i Hne) as Hl. rewrite Hi in Hl.
      destruct (dict_get i (memories (link i y v s))) as [mi'|];
        [|contradiction].
      destruct Hl as [_ Hl]. exists mi'. split; [reflexivity|].
      intros y' Hy'. rewrite Hl, elem_of_app, elem_of_link_extra.
      intros [Hin|[[_ ->]|[-> _]]]; [|contradiction|contradiction].
      revert Hin. apply Hout. now right.
Qed.

Lemma memory_scores_keys (now : datetime) (ms : list (string * MemoryTrace))
      (scores : list (string * Q)) :
  memory_scores now ms = Ok scores -> map fst scores = dict_keys ms.
Proof.
  revert scores. induction ms as [|[k m] ms IH]; intros scores;
    cbn [memory_scores].
  - intros [= <-]. reflexivity.
  - destruct (eviction_score now m); cbn [outcome_bind]; [|discriminate].
    destruct (memory_scores now ms); cbn [outcome_bind]; [|discriminate].
    intros [= <-]. simpl. f_equal. now apply IH.
Qed.

(** Evicting distinct stored records one after the other from a consistent
    store never fails and keeps it consistent. *)
Lemma remove_each_consistent (l : list (string * Q)) (s : MemoryNetwork) :
  consistent s -> NoDup (map fst l) ->
  (forall x, x ∈ map fst l -> dict_get x (memories s) <> None) ->
  exists s', for_each l (fun x => _remove_memory x.1) s = (Ok tt, s')
             /\ consistent s'.
Proof.
  revert s. induction l as [|x l IH]; intros s Hc Hnd Hstored; simpl.
  - exists s. split; [reflexivity|exact Hc].
  - apply NoDup_cons in Hnd as [Hx Hnd].
    destruct (dict_get x.1 (memories s)) as [m|] eqn:Hm.
    2:{ exfalso. apply (Hstored x.1); [left|exact Hm]. }
    destruct (remove_memory_consistent x.1 m s Hc Hm)
      as (s1 & Hrun & _ & Hc1 & Hfr).
    unfold bind. rewrite Hrun. apply IH; [exact Hc1|exact Hnd|].
    intros x' Hx'. assert (Hne : x' <> x.1) by (intros ->; contradiction).
    pose proof (fr_records _ _ _ Hfr x' Hne) as Hr.
    pose proof (Hstored x' ltac:(now right)) as Hs.
    destruct (dict_get x' (memories s)); [|contradiction].
    destruct (dict_get x' (memories s1)); [discriminate|contradiction].
Qed.

Lemma consistent_manage_capacity (now : datetime) (n : MemoryNetwork) :
  consistent n -> consistent (_manage_capacity now n).2.
Proof.
  intros Hc. unfold _manage_capacity. unfold bind at 1, get.
  destruct (capacity n <? dict_len (memories n)); [|exact Hc].
  unfold bind at 1, lift.
  destruct (memory_scores now (memories n)) as [scores|e] eqn:Hs; [|exact Hc].
  apply memory_scores_keys in Hs.
  match goal with
  | |- context [for_each ?l _ n] =>
      destruct (remove_each_consistent l n Hc) as (s' & Hrun & Hc')
  end.
  - rewrite <- firstn_map.
    eapply sublist_NoDup; [|apply sublist_take].
    rewrite (stable_sort_perm score_leb scores), Hs. apply Hc.
  - intros x Hx. rewrite <- firstn_map in Hx.
    apply dict_get_in_keys. rewrite <- Hs.
    apply list_elem_of_In.
    rewrite <- (stable_sort_perm score_leb scores).
    eapply elem_of_sublist; [exact Hx|]. apply sublist_take.
  - rewrite Hrun. exact Hc'.
Qed.

(** [store_memory] of a record without associations under an identifier
    that is not in use keeps the store consistent, whether it returns or
    raises. *)
Lemma consistent_store_memory `{StringHash} (now : datetime)
      (memory : MemoryTrace) (n : MemoryNetwork) :
  consistent n ->
  dict_get (memory_id_of n memory) (memories n) = None ->
  associations memory = [] ->
  consistent (store_memory now memory n).2.
Proof.
  intros Hc Hfresh Hnil. unfold store_memory. unfold bind at 1, get.
  set (i := memory_id_of n memory) in *.
  unfold bind at 1, modify at 1. unfold bind at 1.
  pose proof (consistent_insert i memory n Hc Hfresh Hnil) as Hc2.
  assert (Hmem : memories
                   (_update_indices i memory
                      (set_memories (dict_set i memory (memories n)) n)).2
                 = dict_set i memory (memories n)) by reflexivity.
  destruct (_update_indices i memory
              (set_memories (dict_set i memory (memories n)) n))
    as [[[]|e] n2]; simpl in Hc2, Hmem; [|exact Hc2].
  unfold bind at 1.
  assert (Hc3 : consistent (_create_associations i memory n2).2).
  { unfold _create_associations, bind, get.
    apply consistent_create_loop; [exact Hc2|apply Hc2|].
    exists memory. split.
    - rewrite Hmem, dict_get_set. now rewrite String.eqb_refl.
    - intros y _. rewrite Hnil. apply not_elem_of_nil. }
  destruct (_create_associations i memory n2) as [[[]|e] n3]; simpl in Hc3;
    [|exact Hc3].
  unfold bind at 1.
  pose proof (consistent_manage_capacity now n3 Hc3) as Hc4.
  destruct (_manage_capacity now n3) as [[[]|e] n4]; exact Hc4.
Qed.

#[local] Instance same_graph_preorder : PreOrder same_graph.
Proof.
  split.
  - intros n. repeat split; try (intros k; reflexivity).
    induction (memories n); constructor; auto. repeat split.
  - intros a b c (Hm & H1 & H2 & H3 & H4 & H5) (Hm' & H1' & H2' & H3' & H4' & H5').
    split; [|repeat split; try (intros k; etransitivity; eauto); congruence].
    clear - Hm Hm'. revert Hm'. generalize (memories c).
    induction Hm as [|x y l l' (Hk & Hf & Ha) Hl IH]; intros l'' Hm';
      inversion Hm' as [|? z ? ? (Hk' & Hf' & Ha') Hl']; subst;
      constructor; [|auto].
    split; [congruence|]. split; [eapply same_facts_trans; eauto|congruence].
Qed.

Lemma same_graph_refl (n : MemoryNetwork) : same_graph n n.
Proof. reflexivity. Qed.

Lemma same_records_graph (n n' : MemoryNetwork) :
  same_records n n' -> same_graph n n'.
Proof.
  intros (Hm & H1 & H2 & H3 & H4 & H5). repeat split; auto.
  rewrite Hm. exact (proj1 (same_graph_refl n)).
Qed.

Lemma dict_update_graph (f : MemoryTrace -> MemoryTrace) (k : string)
      (ms : list (string * MemoryTrace)) :
  (forall m, same_facts m (f m) /\ associations (f m) = associations m) ->
  Forall2 (fun a b : string * MemoryTrace =>
             a.1 = b.1 /\ same_facts a.2 b.2
             /\ associations b.2 = associations a.2)
          ms (dict_update k f ms).
Proof.
  intros Hf. induction ms as [|[k' m] ms IH]; simpl; [constructor|].
  destruct (String.eqb k k').
  - constructor.
    + destruct (Hf m) as [Hfm Ham]. split; [reflexivity|]. split; assumption.
    + clear. induction ms; constructor; auto. repeat split.
  - constructor; [repeat split|exact IH].
Qed.

Lemma same_graph_retrieve_memories `{SetIteration} (now : datetime)
      (q : MemoryQuery) :
  steps same_graph (retrieve_memories now q).
Proof.
  unfold retrieve_memories. steps_seq.
  { eapply steps_weaken; [apply same_records_graph|].
    apply keeps_records_select_candidates. }
  intros c. steps_seq; [intros n; rewrite collect_results_state; reflexivity|].
  intros xs. steps_seq; [|intros _; steps_leaf].
  steps_loop. intros r. apply steps_modify. intros n.
  pose proof (dict_update_graph (mark_retrieved now) r.1 (memories n)
                (fun m => conj (same_facts_refl m) eq_refl)).
  pose proof (same_graph_refl n) as Hv.
  destruct Hv as (_ & ? & ? & ? & ? & ?). repeat split; simpl; auto.
Qed.

Lemma same_graph_lookup (n n' : MemoryNetwork) (x : string) :
  same_graph n n' ->
  match dict_get x (memories n), dict_get x (memories n') with
  | Some m, Some m' => same_facts m m' /\ associations m' = associations m
  | None, None => True
  | _, _ => False
  end.
Proof.
  intros [Hm _]. induction Hm as [|[k m] [k' m'] l l' (Hk & Hf & Ha) _ IH];
    simpl; [exact I|]. simpl in Hk. subst k'.
  destruct (String.eqb x k); [split; assumption|exact IH].
Qed.

(** A store with the same graph as a consistent store is consistent. *)
Lemma consistent_same_graph (n n' : MemoryNetwork) :
  consistent n -> same_graph n n' -> consistent n'.
Proof.
  intros [Hk Hnd Hirr Hsym Hstr Hss Hc Ht He Hg] Hsame.
  pose proof (fun x => same_graph_lookup n n' x Hsame) as Hl.
  destruct Hsame as (Hm & Bc & Bt & Be & Bg & Hs).
  assert (Hback : forall y my', dict_get y (memories n') = Some my' ->
            exists my, dict_get y (memories n) = Some my /\ same_facts my my'
                       /\ associations my' = associations my).
  { intros y my' Hy. specialize (Hl y). rewrite Hy in Hl.
    destruct (dict_get y (memories n)) as [my|]; [|contradiction].
    exists my. tauto. }
  assert (Hforth : forall y my, dict_get y (memories n) = Some my ->
            exists my', dict_get y (memories n') = Some my'
                        /\ same_facts my my'
                        /\ associations my' = associations my).
  { intros y my Hy. specialize (Hl y). rewrite Hy in Hl.
    destruct (dict_get y (memories n')) as [my'|]; [|contradiction].
    exists my'. tauto. }
  split.
  - assert (Hkeys : dict_keys (memories n') = dict_keys (memories n)).
    { clear - Hm. unfold dict_keys.
      induction Hm as [|a b l l' (Hk & _) _ IH]; simpl; congruence. }
    now rewrite Hkeys.
  - intros y my' Hy. destruct (Hback y my' Hy) as (my & Hmy & _ & ->). eauto.
  - intros y my' Hy. destruct (Hback y my' Hy) as (my & Hmy & _ & ->). eauto.
  - intros y my' z Hy Hz. destruct (Hback y my' Hy) as (my & Hmy & _ & Ha).
    rewrite Ha in Hz. destruct (Hsym y my z Hmy Hz) as (mz & Hmz & Hyz).
    destruct (Hforth z mz Hmz) as (mz' & Hmz' & _ & Ha').
    exists mz'. split; [exact Hmz'|]. now rewrite Ha'.
  - intros a b. rewrite Hs, Hstr. split.
    + intros (ma & Hma & Hb). destruct (Hforth a ma Hma) as (ma' & Hma' & _ & Ha).
      exists ma'. split; [exact Hma'|]. now rewrite Ha.
    + intros (ma' & Hma' & Hb). destruct (Hback a ma' Hma') as (ma & Hma & _ & Ha).
      exists ma. split; [exact Hma|]. now rewrite <- Ha.
  - intros a b. rewrite Hs. apply Hss.
  - intros z k Hin. rewrite <- (Bc k) in Hin.
    destruct (Hc z k Hin) as (mz & Hmz & Hkz).
    destruct (Hforth z mz Hmz) as (mz' & Hmz' & Hf & _).
    exists mz'. split; [exact Hmz'|]. destruct Hf as (_&_&_&_&->&_). exact Hkz.
  - intros z k Hin. rewrite <- (Bt k) in Hin.
    destruct (Ht z k Hin) as (mz & Hmz & Hkz).
    destruct (Hforth z mz Hmz) as (mz' & Hmz' & Hf & _).
    exists mz'. split; [exact Hmz'|]. destruct Hf as (_&->&_). exact Hkz.
  - intros z k Hin. rewrite <- (Be k) in Hin.
    destruct (He z k Hin) as (mz & Hmz & Hkz).
    destruct (Hforth z mz Hmz) as (mz' & Hmz' & Hf & _).
    exists mz'. split; [exact Hmz'|]. destruct Hf as (_&_&_&->&_). exact Hkz.
  - intros z k Hin. rewrite <- (Bg k) in Hin.
    destruct (Hg z k Hin) as (mz & Hmz & Hkz).
    destruct (Hforth z mz Hmz) as (mz' & Hmz' & Hf & _).
    exists mz'. split; [exact Hmz'|]. destruct Hf as (_&_&_&_&_&->). exact Hkz.
Qed.

Lemma consistent_retrieve_memories `{SetIteration} (now : datetime)
      (q : MemoryQuery) (n : MemoryNetwork) :
  consistent n -> consistent (retrieve_memories now q n).2.
Proof.
  intros Hc. eapply consistent_same_graph; [exact Hc|].
  apply same_graph_retrieve_memories.
Qed.

(** ** Stores without identifier reuse *)

Lemma reachable_consistent `{StringHash} (n : MemoryNetwork) :
  reachable n -> consistent n.
Proof.
  induction 1 as [c|n now memory _ IH Hnil Hfresh|order n now q _ IH|n x _ IH].
  - apply consistent_init.
  - now apply consistent_store_memory.
  - now apply consistent_retrieve_memories.
  - destruct (dict_get x (memories n)) as [m|] eqn:Hx.
    + destruct (remove_memory_consistent x m n IH Hx) as (n' & -> & _ & Hc & _).
      exact Hc.
    + unfold _remove_memory, bind, get. rewrite Hx. exact IH.
Qed.

(** As long as no identifier is reused, associations are symmetric and
    the stored strength of a pair is the same in both directions. *)
Theorem symmetric_without_id_reuse `{StringHash} (n : MemoryNetwork)
        (a b : string) (ma mb : MemoryTrace) :
  reachable n ->
  dict_get a (memories n) = Some ma ->
  dict_get b (memories n) = Some mb ->
  (b ∈ associations ma <-> a ∈ associations mb)
  /\ association_strength n !! (a, b) = association_strength n !! (b, a).
Proof.
  intros Hr Ha Hb. apply reachable_consistent in Hr.
  destruct Hr as [_ _ _ Hsym _ Hss _ _ _ _]. split; [|apply Hss].
  split; intros Hin.
  - destruct (Hsym a ma b Ha Hin) as (mb' & Hmb' & Hab). congruence.
  - destruct (Hsym b mb a Hb Hin) as (ma' & Hma' & Hba). congruence.
Qed.

(** As long as no identifier is reused, every identifier in an association
    list and both identifiers of every stored strength are in the store. *)
Theorem no_dangling_without_id_reuse `{StringHash} (n : MemoryNetwork) :
  reachable n ->
  (forall a ma b, dict_get a (memories n) = Some ma -> b ∈ associations ma ->
                  In b (dict_keys (memories n)))
  /\ (forall a b, (a, b) ∈ dom (association_strength n) ->
                  In a (dict_keys (memories n))
                  /\ In b (dict_keys (memories n))).
Proof.
  intros Hr. apply reachable_consistent in Hr.
  destruct Hr as [_ _ _ Hsym Hstr _ _ _ _ _].
  assert (Hin : forall a ma b, dict_get a (memories n) = Some ma ->
                  b ∈ associations ma -> In b (dict_keys (memories n))).
  { intros a ma b Ha Hb. destruct (Hsym a ma b Ha Hb) as (mb & Hmb & _).
    apply dict_get_in_keys. congruence. }
  split; [exact Hin|].
  intros a b Hab. apply Hstr in Hab as (ma & Hma & Hb). split.
  - apply dict_get_in_keys. congruence.
  - eapply Hin; eauto.
Qed.

(** As long as no identifier is reused, evicting a stored record returns
    and leaves no trace of its identifier in the four indices, in the
    association lists of the surviving records, or in the stored
    strengths. *)
Theorem eviction_clean_without_id_reuse `{StringHash} (n : MemoryNetwork)
        (x : string) :
  reachable n ->
  In x (dict_keys (memories n)) ->
  exists n', _remove_memory x n = (Ok tt, n') /\ forgotten x n'.
Proof.
  intros Hr Hx. apply reachable_consistent in Hr.
  apply dict_get_in_keys in Hx.
  destruct (dict_get x (memories n)) as [m|] eqn:Hm; [|contradiction].
  destruct (remove_memory_consistent x m n Hr Hm) as (n' & Hrun & Hf & _).
  eauto.
Qed.

(** The store of three records is reached by three calls of
    [store_memory], each under a new identifier. *)
Lemma sample_store_reachable : reachable sample_store.
Proof.
  replace sample_store
    with (store_memory sample_now later
            (store_memory sample_now followup
               (store_memory sample_now meeting (MemoryNetwork_init 10)).2).2).2
    by (vm_compute; reflexivity).
  repeat (apply reach_store; [|reflexivity|vm_compute; reflexivity]).
  apply reach_init.
Qed.

Lemma symmetric_without_id_reuse_witness :
  ("mem_1_99"%string ∈ associations (stored_record "mem_0_98" sample_store)
   <-> "mem_0_98"%string ∈ associations (stored_record "mem_1_99" sample_store))
  /\ association_strength sample_store !! ("mem_0_98", "mem_1_99")%string
     = association_strength sample_store !! ("mem_1_99", "mem_0_98")%string.
Proof.
  apply (symmetric_without_id_reuse sample_store);
    [exact sample_store_reachable|vm_compute; reflexivity..].
Defined.

Lemma no_dangling_without_id_reuse_witness :
  (forall a ma b, dict_get a (memories sample_store) = Some ma ->
                  b ∈ associations ma ->
                  In b (dict_keys (memories sample_store)))
  /\ (forall a b, (a, b) ∈ dom (association_strength sample_store) ->
                  In a (dict_keys (memories sample_store))
                  /\ In b (dict_keys (memories sample_store))).
Proof.
  apply (no_dangling_without_id_reuse sample_store).
  exact sample_store_reachable.
Defined.

Lemma eviction_clean_without_id_reuse_witness :
  exists n', _remove_memory "mem_0_98" sample_store = (Ok tt, n')
             /\ forgotten "mem_0_98" n'.
Proof.
  apply (eviction_clean_without_id_reuse sample_store "mem_0_98");
    [exact sample_store_reachable|vm_compute; auto].
Defined.

(** ** Association strength *)

Lemma Qabs_sub_comm (a b : Q) : Qabs (a - b) = Qabs (b - a).
Proof.
  destruct a as [n1 d1], b as [n2 d2].
  unfold Qminus, Qplus, Qopp, Qabs; simpl.
  f_equal; [lia|apply Pos.mul_comm].
Qed.

Lemma context_similarity_comm (m1 m2 : MemoryTrace) :
  context_similarity m1 m2 = context_similarity m2 m1.
Proof.
  unfold context_similarity, shared_context.
  f_equal; f_equal; [|apply Z.max_comm].
  f_equal. apply (comm_L (∩)).
Qed.

Lemma tag_similarity_comm (m1 m2 : MemoryTrace) :
  tag_similarity m1 m2 = tag_similarity m2 m1.
Proof.
  unfold tag_similarity. rewrite (andb_comm (truthy_set (tags m1))).
  rewrite (comm_L (∩) (tags m1)), (Z.max_comm (len (tags m1))). reflexivity.
Qed.

Lemma temporal_similarity_comm (m1 m2 : MemoryTrace) :
  temporal_similarity m1 m2 = temporal_similarity m2 m1.
Proof.
  unfold temporal_similarity, total_seconds_between. simpl.
  do 4 f_equal. lia.
Qed.

Lemma emotional_similarity_comm (m1 m2 : MemoryTrace) :
  emotional_similarity m1 m2 = emotional_similarity m2 m1.
Proof. unfold emotional_similarity. now rewrite Qabs_sub_comm. Qed.

Lemma strength_comm (m1 m2 : MemoryTrace) :
  _calculate_association_strength m1 m2
  = _calculate_association_strength m2 m1.
Proof.
  unfold _calculate_association_strength.
  rewrite (context_similarity_comm m1), (tag_similarity_comm m1),
    (temporal_similarity_comm m1), (emotional_similarity_comm m1).
  reflexivity.
Qed.

(** The strength reads the facts of the two records only. *)
Lemma strength_same_facts (a a' b b' : MemoryTrace) :
  same_facts a a' -> same_facts b b' ->
  _calculate_association_strength a' b'
  = _calculate_association_strength a b.
Proof.
  intros (_ & Ht & _ & Hv & Hc & Hg) (_ & Ht' & _ & Hv' & Hc' & Hg').
  unfold _calculate_association_strength, context_similarity, shared_context,
    tag_similarity, temporal_similarity, emotional_similarity.
  now rewrite Ht, Hv, Hc, Hg, Ht', Hv', Hc', Hg'.
Qed.

Lemma py_div_ints (a b : Z) :
  0 <= a <= b -> 0 < b ->
  exists v, py_div (inject_Z a) (inject_Z b) = Ok v /\ (0 <= v <= 1)%Q.
Proof.
  intros Ha Hb. unfold py_div.
  assert (Hpos : (0 < inject_Z b)%Q) by (unfold Qlt; simpl; lia).
  destruct (Qeq_bool (inject_Z b) 0) eqn:E.
  { apply Qeq_bool_iff in E. rewrite E in Hpos. now apply Qlt_irrefl in Hpos. }
  eexists. split; [reflexivity|]. split.
  - apply Qle_shift_div_l; [exact Hpos|]. unfold Qle; simpl; lia.
  - apply Qle_shift_div_r; [exact Hpos|]. unfold Qle; simpl; lia.
Qed.

Lemma size_context_items (c : gmap string string) :
  size (list_to_set (map_to_list c) : gset (string * string)) = size c.
Proof.
  rewrite size_list_to_set by apply NoDup_map_to_list.
  apply length_map_to_list.
Qed.

Lemma context_similarity_cases (m1 m2 : MemoryTrace) :
  (context m1 = ∅ /\ context m2 = ∅
   /\ context_similarity m1 m2 = Raise ZeroDivisionError)
  \/ (~ (context m1 = ∅ /\ context m2 = ∅)
      /\ exists v, context_similarity m1 m2 = Ok v /\ (0 <= v <= 1)%Q).
Proof.
  destruct (decide (context m1 = ∅ /\ context m2 = ∅)) as [[H1 H2]|Hne].
  - left. split; [exact H1|]. split; [exact H2|].
    unfold context_similarity, shared_context, len. rewrite H1, H2.
    reflexivity.
  - right. split; [exact Hne|].
    unfold context_similarity, len. apply py_div_ints.
    + split; [lia|].
      assert (Hs : shared_context m1 m2
                   ⊆ list_to_set (map_to_list (context m1)))
        by (unfold shared_context; apply intersection_subseteq_l).
      apply subseteq_size in Hs. rewrite size_context_items in Hs. lia.
    + destruct (decide (size (context m1) = 0%nat)) as [E1|E1];
        [|lia].
      destruct (decide (size (context m2) = 0%nat)) as [E2|E2];
        [|lia].
      apply map_size_empty_iff in E1, E2. tauto.
Qed.

Lemma tag_similarity_range (m1 m2 : MemoryTrace) :
  exists v, tag_similarity m1 m2 = Ok v /\ (0 <= v <= 1)%Q.
Proof.
  unfold tag_similarity, truthy_set.
  destruct (size (tags m1) =? 0)%nat eqn:E1; simpl.
  { exists 0%Q. split; [reflexivity|]. split; [apply Qle_refl|discriminate]. }
  destruct (size (tags m2) =? 0)%nat eqn:E2; simpl.
  { exists 0%Q. split; [reflexivity|]. split; [apply Qle_refl|discriminate]. }
  apply Nat.eqb_neq in E1, E2. unfold len. apply py_div_ints; [|lia].
  split; [lia|].
  assert (Hs : tags m1 ∩ tags m2 ⊆ tags m1) by apply intersection_subseteq_l.
  apply subseteq_size in Hs. lia.
Qed.

Lemma temporal_similarity_range (m1 m2 : MemoryTrace) :
  exists v, temporal_similarity m1 m2 = Ok v /\ (0 < v <= 1)%Q.
Proof.
  unfold temporal_similarity, py_div.
  set (d := Qabs (total_seconds_between (timestamp m1) (timestamp m2))).
  assert (Hd : (0 <= d)%Q) by apply Qabs_nonneg.
  assert (Hpos : (1 <= 1 + d / 3600)%Q).
  { assert (0 <= d / 3600)%Q; [|lra].
    apply Qle_shift_div_l; [reflexivity|]. lra. }
  destruct (Qeq_bool (1 + d / 3600) 0) eqn:E.
  { apply Qeq_bool_iff in E. lra. }
  eexists. split; [reflexivity|]. split.
  - apply Qlt_shift_div_l; lra.
  - apply Qle_shift_div_r; lra.
Qed.

(** The strength of two records is a number unless both contexts are
    empty, when the division by the larger context size raises. *)
Lemma strength_cases (m1 m2 : MemoryTrace) :
  (context m1 = ∅ /\ context m2 = ∅
   /\ _calculate_association_strength m1 m2 = Raise ZeroDivisionError)
  \/ (~ (context m1 = ∅ /\ context m2 = ∅)
      /\ exists c g t,
           _calculate_association_strength m1 m2
           = Ok ((3 # 10) * c + (3 # 10) * g + (2 # 10) * t
                 + (2 # 10) * emotional_similarity m1 m2)%Q
           /\ (0 <= c <= 1)%Q /\ (0 <= g <= 1)%Q /\ (0 < t <= 1)%Q).
Proof.
  unfold _calculate_association_strength.
  destruct (context_similarity_cases m1 m2)
    as [(H1 & H2 & ->)|(Hne & c & -> & Hc)].
  - left. auto.
  - right. split; [exact Hne|].
    destruct (tag_similarity_range m1 m2) as (g & -> & Hg).
    destruct (temporal_similarity_range m1 m2) as (t & -> & Ht).
    exists c, g, t. simpl. auto.
Qed.

(** The strength of two records does not depend on their order. *)
Theorem association_strength_symmetric (memory1 memory2 : MemoryTrace) :
  _calculate_association_strength memory1 memory2
  = _calculate_association_strength memory2 memory1.
Proof. apply strength_comm. Qed.

Lemma emotional_similarity_range (m1 m2 : MemoryTrace) :
  (-1 <= emotional_valence m1 <= 1)%Q ->
  (-1 <= emotional_valence m2 <= 1)%Q ->
  (-1 <= emotional_similarity m1 m2 <= 1)%Q.
Proof.
  intros H1 H2. unfold emotional_similarity.
  set (d := (emotional_valence m1 - emotional_valence m2)%Q).
  assert (Hd : (Qabs d <= 2)%Q).
  { apply Qabs_Qle_condition. subst d. split; lra. }
  pose proof (Qabs_nonneg d). split; lra.
Qed.

(** For two valid records the strength is computed unless both contexts
    are empty, and then lies above -0.2 and at most at 1; with two empty
    contexts the call raises [ZeroDivisionError]. *)
Theorem association_strength_range_or_zero_division
        (memory1 memory2 : MemoryTrace) :
  MemoryTrace_post_init memory1 = Ok memory1 ->
  MemoryTrace_post_init memory2 = Ok memory2 ->
  (context memory1 = ∅ /\ context memory2 = ∅
   /\ _calculate_association_strength memory1 memory2
      = Raise ZeroDivisionError)
  \/ (~ (context memory1 = ∅ /\ context memory2 = ∅)
      /\ exists strength,
           _calculate_association_strength memory1 memory2 = Ok strength
           /\ (- (2 # 10) < strength <= 1)%Q).
Proof.
  intros H1 H2.
  apply post_init_ok_inv in H1 as (_ & _ & _ & Hv1 & _).
  apply post_init_ok_inv in H2 as (_ & _ & _ & Hv2 & _).
  destruct (strength_cases memory1 memory2)
    as [Hz|(Hne & c & g & t & Hrun & Hc & Hg & Ht)]; [now left|right].
  split; [exact Hne|]. eexists. split; [exact Hrun|].
  pose proof (emotional_similarity_range memory1 memory2 Hv1 Hv2).
  split; lra.
Qed.

Lemma association_strength_range_or_zero_division_witness :
  (context happy = ∅ /\ context sad = ∅
   /\ _calculate_association_strength happy sad = Raise ZeroDivisionError)
  \/ (~ (context happy = ∅ /\ context sad = ∅)
      /\ exists strength,
           _calculate_association_strength happy sad = Ok strength
           /\ (- (2 # 10) < strength <= 1)%Q).
Proof.
  apply (association_strength_range_or_zero_division happy sad); reflexivity.
Defined.

(** ** Storing into a store with room *)

Lemma up_to_associations_refl (m : MemoryTrace) : up_to_associations m m.
Proof. now destruct m. Qed.

Lemma up_to_associations_trans (a b c : MemoryTrace) :
  up_to_associations a b -> up_to_associations b c -> up_to_associations a c.
Proof.
  unfold up_to_associations. intros Hab Hbc. rewrite Hbc at 1.
  rewrite Hab. reflexivity.
Qed.

#[local] Instance same_entries_preorder : PreOrder same_entries.
Proof.
  split.
  - intros n. split; [|split; [repeat split|reflexivity]].
    induction (memories n); constructor; auto.
    split; [reflexivity|apply up_to_associations_refl].
  - intros a b c (Hm & Hi & Hc) (Hm' & Hi' & Hc').
    split; [|split; [etransitivity; eauto|congruence]].
    clear - Hm Hm'. revert Hm'. generalize (memories c).
    induction Hm as [|x y l l' (Hk & Hf) Hl IH]; intros l'' Hm';
      inversion Hm' as [|? z ? ? (Hk' & Hf') Hl']; subst;
      constructor; [|auto].
    split; [congruence|eapply up_to_associations_trans; eauto].
Qed.

Lemma same_entries_lookup (n n' : MemoryNetwork) (x : string) :
  same_entries n n' ->
  match dict_get x (memories n), dict_get x (memories n') with
  | Some m, Some m' => up_to_associations m m'
  | None, None => True
  | _, _ => False
  end.
Proof.
  intros (Hm & _). induction Hm as [|[k m] [k' m'] l l' (Hk & Hf) Hl IH];
    simpl; [exact I|].
  simpl in Hk. subst k'. destruct (String.eqb x k); [exact Hf|exact IH].
Qed.

Lemma same_entries_keys (n n' : MemoryNetwork) :
  same_entries n n' -> dict_keys (memories n') = dict_keys (memories n).
Proof.
  intros (Hm & _). unfold dict_keys.
  induction Hm as [|a b l l' (Hk & _) Hl IH]; simpl; congruence.
Qed.

Lemma dict_update_entries (f : MemoryTrace -> MemoryTrace) (k : string)
      (ms : list (string * MemoryTrace)) :
  (forall m, up_to_associations m (f m)) ->
  Forall2 (fun a b : string * MemoryTrace =>
             a.1 = b.1 /\ up_to_associations a.2 b.2)
          ms (dict_update k f ms).
Proof.
  intros Hf. induction ms as [|[k' m] ms IH]; simpl; [constructor|].
  destruct (String.eqb k k').
  - constructor; [split; [reflexivity|apply Hf]|].
    clear. induction ms; constructor; auto.
    split; [reflexivity|apply up_to_associations_refl].
  - constructor; [split; [reflexivity|apply up_to_associations_refl]|exact IH].
Qed.

Lemma same_entries_associate_with (i : string) (memory : MemoryTrace)
      (y : string) :
  steps same_entries (associate_with i memory y).
Proof.
  unfold associate_with. destruct (String.eqb y i); [steps_leaf|].
  apply steps_get. intros n.
  destruct (dict_get y (memories n)); [|steps_leaf].
  steps_seq; [steps_leaf|]. intros v.
  destruct (Qgtb v (3 # 10)); [|steps_leaf].
  repeat (steps_seq; [|intros _]);
    (apply steps_modify; [typeclasses eauto ..|]); intros s;
    (split; [|split; [repeat split|reflexivity]]); simpl;
    first [ apply dict_update_entries; intros m0;
            unfold up_to_associations; reflexivity
          | apply (reflexivity (R := same_entries)) ].
Qed.

Lemma associate_with_outcome (i : string) (memory : MemoryTrace) (y : string)
      (s : MemoryNetwork) :
  (associate_with i memory y s).1
  = if clash_at i memory s y then Raise ZeroDivisionError else Ok tt.
Proof.
  unfold associate_with, clash_at.
  destruct (String.eqb y i); simpl; [reflexivity|].
  unfold bind at 1, get.
  destruct (dict_get y (memories s)) as [my|]; [|reflexivity].
  unfold bind at 1, lift.
  destruct (strength_cases memory my)
    as [(H1 & H2 & ->)|(Hne & c & g & t & -> & _)].
  - rewrite bool_decide_eq_true_2 by auto. reflexivity.
  - rewrite bool_decide_eq_false_2 by exact Hne.
    match goal with |- context [Qgtb ?v ?w] => destruct (Qgtb v w) end;
      reflexivity.
Qed.

Lemma clash_at_entries (i : string) (memory : MemoryTrace)
      (s s' : MemoryNetwork) (y : string) :
  same_entries s s' -> clash_at i memory s' y = clash_at i memory s y.
Proof.
  intros He. unfold clash_at. f_equal.
  pose proof (same_entries_lookup s s' y He) as Hl.
  destruct (dict_get y (memories s)) as [m|],
    (dict_get y (memories s')) as [m'|]; try contradiction; [|reflexivity].
  unfold up_to_associations in Hl. rewrite Hl. reflexivity.
Qed.

Lemma existsb_pointwise {A} (f g : A -> bool) (l : list A) :
  (forall x, f x = g x) -> existsb f l = existsb g l.
Proof. intros E. induction l; simpl; [reflexivity|]. now rewrite E, IHl. Qed.

(** The loop of [_create_associations] raises exactly when some round
    meets two empty contexts. *)
Lemma create_loop_outcome (i : string) (memory : MemoryTrace)
      (l : list string) (s : MemoryNetwork) :
  (for_each l (associate_with i memory) s).1
  = if existsb (clash_at i memory s) l then Raise ZeroDivisionError
    else Ok tt.
Proof.
  revert s. induction l as [|y l IH]; intros s; [reflexivity|].
  simpl. unfold bind.
  pose proof (associate_with_outcome i memory y s) as Ho.
  pose proof (same_entries_associate_with i memory y s) as He.
  destruct (associate_with i memory y s) as [[[]|e] s1]; simpl in Ho, He.
  - destruct (clash_at i memory s y); [discriminate|]. simpl.
    rewrite IH.
    rewrite (existsb_pointwise _ (clash_at i memory s)); [reflexivity|].
    intros y'. now apply clash_at_entries.
  - destruct (clash_at i memory s y); [|discriminate]. exact Ho.
Qed.

Lemma same_entries_create_associations (i : string) (memory : MemoryTrace) :
  steps same_entries (_create_associations i memory).
Proof.
  unfold _create_associations. apply steps_get. intros n.
  steps_loop. intros y. apply same_entries_associate_with.
Qed.

Lemma update_indices_indexed (i : string) (memory : MemoryTrace)
      (n : MemoryNetwork) :
  (_update_indices i memory n).1 = Ok tt
  /\ memories (_update_indices i memory n).2 = memories n
  /\ capacity (_update_indices i memory n).2 = capacity n
  /\ indexed_as i memory (_update_indices i memory n).2.
Proof.
  split; [reflexivity|]. split; [reflexivity|]. split; [reflexivity|].
  repeat split; simpl.
  - intros k Hk. apply elem_of_add_fold. right. auto.
  - apply elem_of_dd_add. right. auto.
  - apply elem_of_dd_add. right. auto.
  - intros t Ht. apply elem_of_add_fold. right. split; [reflexivity|].
    now apply elem_of_elements.
Qed.

Lemma dict_set_length {V} (i : string) (v : V) (d : list (string * V)) :
  (length (dict_set i v d) <= S (length d))%nat.
Proof.
  induction d as [|[k w] d IH]; simpl; [lia|].
  destruct (String.eqb i k); simpl; lia.
Qed.

Lemma dict_set_keys_incl {V} (i : string) (v : V) (d : list (string * V))
      (y : string) :
  In y (dict_keys d) -> In y (dict_keys (dict_set i v d)).
Proof.
  intros Hy. apply dict_get_in_keys. rewrite dict_get_set.
  destruct (String.eqb y i); [discriminate|]. now apply dict_get_in_keys.
Qed.

Lemma existsb_clash_peer (i : string) (memory : MemoryTrace)
      (n s : MemoryNetwork) :
  (forall y, y <> i -> dict_get y (memories s) = dict_get y (memories n)) ->
  existsb (clash_at i memory s) (dict_keys (memories s)) = true
  <-> context memory = ∅ /\ empty_context_peer i n.
Proof.
  intros Hsame. rewrite existsb_exists. unfold clash_at. split.
  - intros (y & _ & Hy). apply andb_true_iff in Hy as [Hne Hy].
    apply negb_true_iff, String.eqb_neq in Hne.
    rewrite (Hsame y Hne) in Hy.
    destruct (dict_get y (memories n)) as [my|] eqn:Hmy; [|discriminate].
    apply bool_decide_eq_true in Hy as [H1 H2].
    split; [exact H1|]. now exists y, my.
  - intros (H1 & y & my & Hne & Hmy & H2). exists y. split.
    + apply dict_get_in_keys. rewrite (Hsame y Hne). congruence.
    + apply andb_true_iff. split.
      * now apply negb_true_iff, String.eqb_neq.
      * rewrite (Hsame y Hne), Hmy. now apply bool_decide_eq_true.
Qed.

Lemma store_memory_with_room_run
      `{StringHash} (now : datetime) (memory : MemoryTrace)
      (n : MemoryNetwork) (i : string) :
  dict_len (memories n) < capacity n ->
  i = memory_id_of n memory ->
  exists (b : bool) n3,
    store_memory now memory n
    = (if b then Raise ZeroDivisionError else Ok i, n3)
    /\ (b = true <-> context memory = ∅ /\ empty_context_peer i n)
    /\ (exists l, dict_get i (memories n3) = Some (set_associations l memory))
    /\ indexed_as i memory n3
    /\ dict_keys (memories n3) = dict_keys (dict_set i memory (memories n))
    /\ (forall y m, y <> i -> dict_get y (memories n) = Some m ->
          exists l, dict_get y (memories n3) = Some (set_associations l m)).
Proof.
  intros Hroom Hi. unfold store_memory.
  unfold bind at 1, get. rewrite <- Hi.
  unfold bind at 1, modify at 1.
  set (n1 := set_memories (dict_set i memory (memories n)) n).
  destruct (update_indices_indexed i memory n1) as (Ho & Hm2 & Hc2 & Hix).
  unfold bind at 1.
  destruct (_update_indices i memory n1) as [o n2]; simpl in Ho, Hm2, Hc2, Hix.
  subst o. unfold bind at 1.
  pose proof (same_entries_create_associations i memory n2) as He.
  assert (Hout : (_create_associations i memory n2).1
                 = if existsb (clash_at i memory n2) (dict_keys (memories n2))
                   then Raise ZeroDivisionError else Ok tt).
  { unfold _create_associations, bind, get. apply create_loop_outcome. }
  assert (Hpeer : existsb (clash_at i memory n2) (dict_keys (memories n2)) = true
                  <-> context memory = ∅ /\ empty_context_peer i n).
  { apply existsb_clash_peer. intros y Hy. rewrite Hm2.
    rewrite dict_get_set. apply String.eqb_neq in Hy. now rewrite Hy. }
  destruct (_create_associations i memory n2) as [o n3]; simpl in Hout, He.
  exists (existsb (clash_at i memory n2) (dict_keys (memories n2))), n3.
  assert (Hrest :
    (exists l, dict_get i (memories n3) = Some (set_associations l memory))
    /\ indexed_as i memory n3
    /\ dict_keys (memories n3) = dict_keys (dict_set i memory (memories n))
    /\ (forall y m, y <> i -> dict_get y (memories n) = Some m ->
          exists l, dict_get y (memories n3) = Some (set_associations l m))).
  { split; [|split; [|split]].
    - pose proof (same_entries_lookup n2 n3 i He) as Hl.
      rewrite Hm2 in Hl. rewrite dict_get_set in Hl.
      rewrite String.eqb_refl in Hl.
      destruct (dict_get i (memories n3)) as [m'|]; [|contradiction].
      exists (associations m'). f_equal. exact Hl.
    - destruct He as (_ & (E1 & E2 & E3 & E4) & _).
      unfold indexed_as. rewrite E1, E2, E3, E4. exact Hix.
    - now rewrite (same_entries_keys n2 n3 He), Hm2.
    - intros y m Hy Hm. pose proof (same_entries_lookup n2 n3 y He) as Hl.
      rewrite Hm2, dict_get_set in Hl. apply String.eqb_neq in Hy.
      rewrite Hy, Hm in Hl.
      destruct (dict_get y (memories n3)) as [m'|]; [|contradiction].
      exists (associations m'). f_equal. exact Hl. }
  split; [|split; [exact Hpeer|exact Hrest]]. clear Hpeer.
  destruct (existsb (clash_at i memory n2) (dict_keys (memories n2))).
  - subst o. reflexivity.
  - subst o. unfold bind at 1.
    assert (Hfit : (capacity n3 <? dict_len (memories n3)) = false).
    { apply Z.ltb_ge. pose proof (same_entries_keys n2 n3 He) as Hk.
      destruct He as (_ & _ & Hc3).
      rewrite Hc3, Hc2. unfold dict_len in *.
      rewrite <- (length_map fst (memories n3)).
      change (map fst (memories n3)) with (dict_keys (memories n3)).
      rewrite Hk. unfold dict_keys. rewrite length_map, Hm2.
      pose proof (dict_set_length i memory (memories n)). lia. }
    unfold _manage_capacity. unfold bind at 1, get. rewrite Hfit.
    reflexivity.
Qed.

(** With room for one more record, [store_memory] evicts nothing: it
    returns the new identifier, or raises [ZeroDivisionError] when the new
    record and a stored one both have an empty context; either way the
    record is then stored and indexed under the identifier, and the records
    under other identifiers are as before apart from their association
    lists. *)
Theorem store_memory_with_room
        `{StringHash} (now : datetime) (memory : MemoryTrace)
        (n : MemoryNetwork) :
  dict_len (memories n) < capacity n ->
  let memory_id := memory_id_of n memory in
  let n' := (store_memory now memory n).2 in
  ((context memory = ∅ /\ empty_context_peer memory_id n
    /\ (store_memory now memory n).1 = Raise ZeroDivisionError)
   \/ (~ (context memory = ∅ /\ empty_context_peer memory_id n)
       /\ (store_memory now memory n).1 = Ok memory_id))
  /\ (exists l, dict_get memory_id (memories n')
                = Some (set_associations l memory))
  /\ indexed_as memory_id memory n'
  /\ (forall y m, y <> memory_id -> dict_get y (memories n) = Some m ->
        exists l, dict_get y (memories n') = Some (set_associations l m)).
Proof.
  intros Hroom i n'. subst n'.
  destruct (store_memory_with_room_run now memory n i Hroom eq_refl)
    as (b & n3 & -> & Hdec & Hstored & Hix & _ & Hothers).
  split; [|auto]. simpl. destruct b.
  - left. destruct Hdec as [Hd _]. destruct (Hd eq_refl) as [H1 H2]. auto.
  - right. split; [|reflexivity]. intros Hc. apply Hdec in Hc. discriminate.
Qed.

Lemma store_memory_with_room_witness :
  let memory_id := memory_id_of sample_store old_note in
  let n' := (store_memory sample_now old_note sample_store).2 in
  ((context old_note = ∅ /\ empty_context_peer memory_id sample_store
    /\ (store_memory sample_now old_note sample_store).1
       = Raise ZeroDivisionError)
   \/ (~ (context old_note = ∅ /\ empty_context_peer memory_id sample_store)
       /\ (store_memory sample_now old_note sample_store).1 = Ok memory_id))
  /\ (exists l, dict_get memory_id (memories n')
                = Some (set_associations l old_note))
  /\ indexed_as memory_id old_note n'
  /\ (forall y m, y <> memory_id ->
        dict_get y (memories sample_store) = Some m ->
        exists l, dict_get y (memories n') = Some (set_associations l m)).
Proof.
  apply (store_memory_with_room sample_now old_note sample_store).
  vm_compute. reflexivity.
Defined.

(** ** When a query raises *)

Lemma datetime_leb_hour_mono (d e : datetime) (h : Z) :
  hour d <= h ->
  datetime_leb (with_hour h d) e = true -> datetime_leb d e = true.
Proof.
  destruct d as [y m dd hh mi s us], e as [y' m' d' h' mi' s' us'].
  unfold datetime_leb, datetime_fields, with_hour. simpl.
  set (rest := (mi <? mi') || _). intros Hh.
  destruct rest; rewrite ?andb_true_r, ?andb_false_r, ?orb_false_r;
    repeat rewrite ?orb_true_iff, ?andb_true_iff, ?Z.ltb_lt, ?Z.eqb_eq; lia.
Qed.

Lemma replace_hour_valid (d : datetime) (h : Z) :
  0 <= h <= 23 -> replace_hour d h = Ok (with_hour h d).
Proof.
  intros Hh. unfold replace_hour.
  destruct (Z.leb_spec 0 h); [|lia]. destruct (Z.leb_spec h 23); [|lia].
  reflexivity.
Qed.

Lemma with_hour_same (d : datetime) : with_hour (hour d) d = d.
Proof. now destruct d. Qed.

(** The scan of a time range raises exactly when the end of the range is
    not before the start moved to 23 o'clock. *)
Lemma time_scan_outcome (fuel : nat) (current_time end_time : datetime)
      (acc : gset string) (n : MemoryNetwork) :
  0 <= hour current_time <= 23 ->
  24 - hour current_time <= Z.of_nat fuel ->
  if datetime_leb (with_hour 23 current_time) end_time
  then (time_scan fuel current_time end_time acc n).1
       = Raise (ValueError "hour must be in 0..23")
  else exists c, (time_scan fuel current_time end_time acc n).1 = Ok c.
Proof.
  revert current_time acc n.
  induction fuel as [|fuel IH]; intros cur acc n Hh Hf; [lia|].
  cbn [time_scan].
  destruct (datetime_leb cur end_time) eqn:Hle.
  - unfold bind at 1, get. unfold bind at 1, modify at 1.
    unfold bind at 1, lift.
    destruct (Z.eq_dec (hour cur) 23) as [E|E].
    + replace (with_hour 23 cur) with cur
        by (rewrite <- E; symmetry; apply with_hour_same).
      rewrite Hle. unfold replace_hour. rewrite E. reflexivity.
    + rewrite replace_hour_valid by lia.
      specialize (IH (with_hour (hour cur + 1) cur)
                     (acc ∪ dd_bucket (hour_key cur) (temporal_index n))
                     (set_temporal_index
                        (dd_touch (hour_key cur) (temporal_index n)) n)).
      change (with_hour 23 (with_hour (hour cur + 1) cur))
        with (with_hour 23 cur) in IH.
      apply IH; simpl; lia.
  - destruct (datetime_leb (with_hour 23 cur) end_time) eqn:Hlast.
    + apply datetime_leb_hour_mono in Hlast; [congruence|lia].
    + eexists. reflexivity.
Qed.

Lemma filter_content_run (q : MemoryQuery) (c : gset string)
      (n : MemoryNetwork) :
  exists c', filter_content q c n = (Ok c', n) /\ c' ⊆ c.
Proof.
  unfold filter_content. destruct (q_content q) as [qc|];
    [|now exists c].
  destruct (truthy_str qc); [|now exists c].
  eexists. split; [reflexivity|]. apply intersection_subseteq_l.
Qed.

Lemma filter_context_run (q : MemoryQuery) (c : gset string)
      (n : MemoryNetwork) :
  exists c' n', filter_context q c n = (Ok c', n') /\ c' ⊆ c.
Proof.
  unfold filter_context. destruct (q_context q) as [ctx|];
    [|now exists c, n].
  destruct (negb _); [|now exists c, n].
  eexists _, _. split; [reflexivity|]. apply intersection_subseteq_l.
Qed.

Lemma filter_time_range_run (q : MemoryQuery) (c : gset string)
      (n : MemoryNetwork) :
  (forall s e, q_time_range q = Some (s, e) -> 0 <= hour s <= 23) ->
  if range_overruns q
  then (filter_time_range q c n).1 = Raise (ValueError "hour must be in 0..23")
  else exists c' n', filter_time_range q c n = (Ok c', n') /\ c' ⊆ c.
Proof.
  intros Hvalid. unfold range_overruns, filter_time_range.
  destruct (q_time_range q) as [[start_time end_time]|];
    [|now exists c, n].
  specialize (Hvalid _ _ eq_refl).
  pose proof (time_scan_outcome 25 start_time end_time ∅ n Hvalid
                ltac:(simpl; lia)) as Hscan.
  unfold bind.
  destruct (datetime_leb (with_hour 23 start_time) end_time).
  - destruct (time_scan 25 start_time end_time ∅ n) as [o n1].
    simpl in Hscan. now subst o.
  - destruct Hscan as [c1 Hscan].
    destruct (time_scan 25 start_time end_time ∅ n) as [o n1].
    simpl in Hscan. subst o. eexists _, _. split; [reflexivity|].
    apply intersection_subseteq_l.
Qed.

Lemma filter_tags_run (q : MemoryQuery) (c : gset string)
      (n : MemoryNetwork) :
  exists c' n', filter_tags q c n = (Ok c', n') /\ c' ⊆ c.
Proof.
  unfold filter_tags. destruct (q_tags q) as [ts|]; [|now exists c, n].
  destruct (truthy_set ts); [|now exists c, n].
  eexists _, _. split; [reflexivity|]. apply intersection_subseteq_l.
Qed.

Lemma filter_emotional_range_run (q : MemoryQuery) (c : gset string)
      (n : MemoryNetwork) :
  exists c' n', filter_emotional_range q c n = (Ok c', n') /\ c' ⊆ c.
Proof.
  unfold filter_emotional_range.
  destruct (q_emotional_range q) as [[min_val max_val]|]; [|now exists c, n].
  eexists _, _. split; [reflexivity|]. apply intersection_subseteq_l.
Qed.

Lemma filter_importance_run (q : MemoryQuery) (c : gset string)
      (n : MemoryNetwork) :
  exists c', filter_importance q c n = (Ok c', n) /\ c' ⊆ c.
Proof.
  unfold filter_importance.
  destruct (q_importance_threshold q) as [threshold|]; [|now exists c].
  eexists. split; [reflexivity|]. apply intersection_subseteq_l.
Qed.

(** The filters raise only in the scan of the time range; when they
    return, the candidates are keys of the store. *)
Lemma select_candidates_run (q : MemoryQuery) (n : MemoryNetwork) :
  (forall s e, q_time_range q = Some (s, e) -> 0 <= hour s <= 23) ->
  if range_overruns q
  then (select_candidates q n).1 = Raise (ValueError "hour must be in 0..23")
  else exists c na, select_candidates q n = (Ok c, na)
                    /\ c ⊆ list_to_set (dict_keys (memories n))
                    /\ same_records n na.
Proof.
  intros Hvalid.
  pose proof (keeps_records_select_candidates q n) as Hkeep.
  assert (Hrun :
    if range_overruns q
    then (select_candidates q n).1 = Raise (ValueError "hour must be in 0..23")
    else exists c na, select_candidates q n = (Ok c, na)
                      /\ c ⊆ list_to_set (dict_keys (memories n))).
  { set (c0 := list_to_set (dict_keys (memories n)) : gset string).
    destruct (filter_content_run q c0 n) as (c1 & E1 & S1).
    destruct (filter_context_run q c1 n) as (c2 & n2 & E2 & S2).
    pose proof (filter_time_range_run q c2 n2 Hvalid) as Ht.
    destruct (range_overruns q).
    { unfold select_candidates. unfold bind at 1, get. fold c0.
      unfold bind at 1. rewrite E1. unfold bind at 1. rewrite E2.
      unfold bind at 1.
      destruct (filter_time_range q c2 n2) as [o3 n3]. simpl in Ht.
      now subst o3. }
    destruct Ht as (c3 & n3 & E3 & S3).
    destruct (filter_tags_run q c3 n3) as (c4 & n4 & E4 & S4).
    destruct (filter_emotional_range_run q c4 n4) as (c5 & n5 & E5 & S5).
    destruct (filter_importance_run q c5 n5) as (c6 & E6 & S6).
    exists c6, n5. split.
    { unfold select_candidates. unfold bind at 1, get. fold c0.
      unfold bind at 1. rewrite E1. unfold bind at 1. rewrite E2.
      unfold bind at 1. rewrite E3. unfold bind at 1. rewrite E4.
      unfold bind at 1. rewrite E5. exact E6. }
    etransitivity; [exact S6|]. etransitivity; [exact S5|].
    etransitivity; [exact S4|]. etransitivity; [exact S3|].
    etransitivity; [exact S2|]. exact S1. }
  destruct (range_overruns q); [exact Hrun|].
  destruct Hrun as (c & na & E & Hsub). exists c, na.
  rewrite E in Hkeep. auto.
Qed.

Lemma retrieve_memories_outcome `{SetIteration} (now : datetime)
      (q : MemoryQuery) (n : MemoryNetwork) :
  (forall s e, q_time_range q = Some (s, e) -> 0 <= hour s <= 23) ->
  if range_overruns q
  then (retrieve_memories now q n).1
       = Raise (ValueError "hour must be in 0..23")
  else exists (c : gset string) xs na,
         select_candidates q n = (Ok c, na)
         /\ c ⊆ list_to_set (dict_keys (memories n))
         /\ same_records n na
         /\ (collect_results (set_iter c) na).1 = Ok xs
         /\ retrieve_memories now q n
            = (Ok (map (returned now) (stable_sort relevance_leb xs)),
               (for_each (stable_sort relevance_leb xs)
                         (fun r => modify (touch_memory now r.1)) na).2).
Proof.
  intros Hvalid. pose proof (select_candidates_run q n Hvalid) as Hsel.
  rewrite retrieve_memories_run.
  destruct (range_overruns q).
  { destruct (select_candidates q n) as [o na]. simpl in Hsel. now subst o. }
  destruct Hsel as (c & na & Esel & Hsub & Hrec). rewrite Esel.
  destruct (collect_results_present (set_iter c) na) as [xs Hxs].
  { apply Forall_forall. intros x Hx. rewrite set_iter_perm in Hx.
    apply elem_of_elements in Hx. apply Hsub in Hx.
    apply elem_of_list_to_set in Hx. destruct Hrec as (-> & _).
    now apply list_elem_of_In. }
  rewrite Hxs. exists c, xs, na. auto 6.
Qed.

(** A time-range query raises [ValueError] exactly when the end of the
    range is not before the start moved to 23 o'clock; every other query
    returns, with distinct identifiers that are keys of the store. *)
Theorem retrieve_memories_raises_iff_range_overruns
        `{SetIteration} (now : datetime) (q : MemoryQuery)
        (n : MemoryNetwork) :
  (forall s e, q_time_range q = Some (s, e) -> 0 <= hour s <= 23) ->
  if range_overruns q
  then (retrieve_memories now q n).1
       = Raise (ValueError "hour must be in 0..23")
  else exists results,
         (retrieve_memories now q n).1 = Ok results
         /\ NoDup (map fst results)
         /\ Forall (fun r => In r.1 (dict_keys (memories n))) results.
Proof.
  intros Hvalid. pose proof (retrieve_memories_outcome now q n Hvalid) as Hrun.
  destruct (range_overruns q); [exact Hrun|].
  destruct Hrun as (c & xs & na & _ & Hsub & _ & Hcol & ->).
  apply collect_results_ok in Hcol as [Hids _].
  eexists. split; [reflexivity|].
  assert (Hperm : map fst (map (returned now) (stable_sort relevance_leb xs))
                  ≡ₚ elements c).
  { rewrite map_fst_returned, (stable_sort_perm relevance_leb xs), Hids.
    apply set_iter_perm. }
  split; [rewrite Hperm; apply NoDup_elements|].
  apply Forall_forall. intros r Hr.
  assert (Hin : r.1 ∈ map fst (map (returned now)
                                  (stable_sort relevance_leb xs)))
    by (apply list_elem_of_fmap; eauto).
  rewrite Hperm in Hin. apply elem_of_elements, Hsub in Hin.
  apply elem_of_list_to_set in Hin. now apply list_elem_of_In.
Qed.

Lemma retrieve_memories_raises_iff_range_overruns_witness :
  if range_overruns night_query
  then (retrieve_memories sample_now night_query sample_store).1
       = Raise (ValueError "hour must be in 0..23")
  else exists results,
         (retrieve_memories sample_now night_query sample_store).1 = Ok results
         /\ NoDup (map fst results)
         /\ Forall (fun r => In r.1 (dict_keys (memories sample_store)))
                   results.
Proof.
  apply (retrieve_memories_raises_iff_range_overruns
           sample_now night_query sample_store).
  intros s e [= <- <-]. vm_compute. split; discriminate.
Defined.

(** ** What a query changes *)

(** The parts of a run of [retrieve_memories] that returns. *)
Lemma retrieve_memories_parts `{SetIteration} (now : datetime)
      (q : MemoryQuery) (n n' : MemoryNetwork)
      (results : list (string * MemoryTrace)) :
  retrieve_memories now q n = (Ok results, n') ->
  exists (c : gset string) xs na,
    select_candidates q n = (Ok c, na)
    /\ same_records n na
    /\ map fst xs = set_iter c
    /\ Forall (fun x => dict_get x.1 (memories n) = Some x.2) xs
    /\ results = map (returned now) (stable_sort relevance_leb xs)
    /\ n' = (for_each (stable_sort relevance_leb xs)
                      (fun r => modify (touch_memory now r.1)) na).2
    /\ map fst results ≡ₚ elements c.
Proof.
  intros Hrun. rewrite retrieve_memories_run in Hrun.
  pose proof (keeps_records_select_candidates q n) as Hrec.
  destruct (select_candidates q n) as [[c|e] na]; [|discriminate].
  simpl in Hrec.
  destruct ((collect_results (set_iter c) na).1) as [xs|e] eqn:Hcol;
    [|discriminate].
  apply collect_results_ok in Hcol as [Hids Hall].
  simpl in Hrun. injection Hrun as <- <-.
  exists c, xs, na. split; [reflexivity|]. split; [exact Hrec|].
  split; [exact Hids|]. split.
  { destruct Hrec as [Hmem _]. now rewrite <- Hmem. }
  split; [reflexivity|]. split; [reflexivity|].
  rewrite map_fst_returned, (stable_sort_perm relevance_leb xs), Hids.
  apply set_iter_perm.
Qed.

(** A query that returns raises the retrieval count by one and sets
    [last_accessed] on exactly the records it returns, which are the stored
    objects; the keys, every other record, the identifiers in every index
    bucket and the association strengths are as before. *)
Theorem retrieve_memories_marks_returned_only
        `{SetIteration} (now : datetime) (q : MemoryQuery)
        (n n' : MemoryNetwork) (results : list (string * MemoryTrace)) :
  retrieve_memories now q n = (Ok results, n') ->
  dict_keys (memories n') = dict_keys (memories n)
  /\ (forall x m, dict_get x (memories n) = Some m ->
        dict_get x (memories n')
        = Some (if bool_decide (x ∈ map fst results)
                then mark_retrieved now m else m))
  /\ Forall (fun r => dict_get r.1 (memories n') = Some r.2) results
  /\ bucket_eq (context_index n) (context_index n')
  /\ bucket_eq (temporal_index n) (temporal_index n')
  /\ bucket_eq (emotional_index n) (emotional_index n')
  /\ bucket_eq (tag_index n) (tag_index n')
  /\ association_strength n' = association_strength n.
Proof.
  intros Hrun.
  pose proof (same_graph_retrieve_memories now q n) as Hg.
  rewrite Hrun in Hg. simpl in Hg.
  destruct Hg as (Hm & Hc & Ht & He & Hgt & Hs).
  apply retrieve_memories_parts in Hrun
    as (c & xs & na & _ & Hrec & Hids & Hall & Hres & Hn' & Hperm).
  assert (Hnd : NoDup (map fst (stable_sort relevance_leb xs))).
  { rewrite Hres, map_fst_returned in Hperm. rewrite Hperm.
    apply NoDup_elements. }
  assert (Hlook : forall x m, dict_get x (memories n) = Some m ->
            dict_get x (memories n')
            = Some (if bool_decide (x ∈ map fst results)
                    then mark_retrieved now m else m)).
  { intros x m Hx. rewrite Hn', Hres, map_fst_returned.
    apply touch_each_lookup; [exact Hnd|].
    destruct Hrec as [Hmem _]. now rewrite Hmem. }
  split.
  { clear - Hm. unfold dict_keys.
    induction Hm as [|a b l l' (Hk & _) _ IH]; simpl; congruence. }
  split; [exact Hlook|]. split; [|auto 6].
  apply Forall_forall. intros r Hr.
  assert (Hin : r.1 ∈ map fst results) by (apply list_elem_of_fmap; eauto).
  rewrite Hres in Hr. apply list_elem_of_fmap in Hr as (y & -> & Hy).
  rewrite (stable_sort_perm relevance_leb xs) in Hy.
  rewrite Forall_forall in Hall. specialize (Hall y Hy).
  unfold returned in Hin |- *. simpl in Hin |- *.
  rewrite (Hlook _ _ Hall).
  rewrite bool_decide_eq_true_2 by exact Hin. reflexivity.
Qed.

Lemma retrieve_memories_marks_returned_only_witness :
  let run := retrieve_memories sample_now important_query sample_store in
  dict_keys (memories run.2) = dict_keys (memories sample_store)
  /\ (forall x m, dict_get x (memories sample_store) = Some m ->
        dict_get x (memories run.2)
        = Some (if bool_decide (x ∈ map fst (returned_value run.1))
                then mark_retrieved sample_now m else m))
  /\ Forall (fun r => dict_get r.1 (memories run.2) = Some r.2)
            (returned_value run.1)
  /\ bucket_eq (context_index sample_store) (context_index run.2)
  /\ bucket_eq (temporal_index sample_store) (temporal_index run.2)
  /\ bucket_eq (emotional_index sample_store) (emotional_index run.2)
  /\ bucket_eq (tag_index sample_store) (tag_index run.2)
  /\ association_strength run.2 = association_strength sample_store.
Proof.
  apply (retrieve_memories_marks_returned_only
           sample_now important_query sample_store).
  apply run_eta. vm_compute. reflexivity.
Defined.

(** ** A query without criteria *)

Lemma select_candidates_no_criteria (q : MemoryQuery) (n : MemoryNetwork) :
  no_criteria q ->
  select_candidates q n = (Ok (list_to_set (dict_keys (memories n))), n).
Proof.
  intros (Hc & Hx & Ht & Hg & He & Hi).
  unfold select_candidates, filter_content, filter_context,
    filter_time_range, filter_tags, filter_emotional_range,
    filter_importance.
  rewrite Ht, He, Hi.
  destruct Hc as [-> | ->], Hx as [-> | ->], Hg as [-> | ->]; reflexivity.
Qed.

(** A query without criteria returns every stored record, most relevant
    first. *)
Theorem retrieve_memories_without_criteria_returns_all
        `{SetIteration} (now : datetime) (q : MemoryQuery)
        (n : MemoryNetwork) :
  no_criteria q ->
  exists results n',
    retrieve_memories now q n = (Ok results, n')
    /\ NoDup (map fst results)
    /\ (forall x, x ∈ map fst results <-> In x (dict_keys (memories n)))
    /\ StronglySorted by_relevance results.
Proof.
  intros Hq. rewrite retrieve_memories_run.
  rewrite (select_candidates_no_criteria q n Hq).
  set (c := list_to_set (dict_keys (memories n)) : gset string).
  destruct (collect_results_present (set_iter c) n) as [xs Hxs].
  { apply Forall_forall. intros x Hx. rewrite set_iter_perm in Hx.
    apply elem_of_elements, elem_of_list_to_set in Hx.
    now apply list_elem_of_In. }
  rewrite Hxs. apply collect_results_ok in Hxs as [Hids _].
  eexists _, _. split; [reflexivity|].
  assert (Hperm : map fst (map (returned now) (stable_sort relevance_leb xs))
                  ≡ₚ elements c).
  { rewrite map_fst_returned, (stable_sort_perm relevance_leb xs), Hids.
    apply set_iter_perm. }
  split; [rewrite Hperm; apply NoDup_elements|]. split.
  - intros x. rewrite Hperm, elem_of_elements. unfold c.
    rewrite elem_of_list_to_set. apply list_elem_of_In.
  - apply returned_sorted, stable_sort_sorted;
      [apply relevance_leb_total|apply relevance_leb_trans].
Qed.

Lemma retrieve_memories_without_criteria_returns_all_witness :
  exists results n',
    retrieve_memories sample_now any_query sample_store = (Ok results, n')
    /\ NoDup (map fst results)
    /\ (forall x, x ∈ map fst results
                  <-> In x (dict_keys (memories sample_store)))
    /\ StronglySorted by_relevance results.
Proof.
  apply (retrieve_memories_without_criteria_returns_all
           sample_now any_query sample_store).
  repeat split; auto.
Defined.

(** ** Associated records *)

Lemma read_strength_run (key : string * string) (n : MemoryNetwork) :
  read_strength key n = (Ok (strength_or_zero n key), touch_strength key n).
Proof.
  unfold read_strength, strength_or_zero, touch_strength, bind, get.
  destruct (association_strength n !! key); reflexivity.
Qed.

Lemma strength_or_zero_touch (key key' : string * string) (n : MemoryNetwork) :
  strength_or_zero (touch_strength key n) key' = strength_or_zero n key'.
Proof.
  unfold strength_or_zero, touch_strength.
  destruct (association_strength n !! key) eqn:E; [reflexivity|]. simpl.
  destruct (decide (key = key')) as [<-|Hne].
  - rewrite lookup_insert_eq, E. reflexivity.
  - rewrite lookup_insert_ne by exact Hne. reflexivity.
Qed.

Lemma touch_strength_twice (key : string * string) (n : MemoryNetwork) :
  touch_strength key (touch_strength key n) = touch_strength key n.
Proof.
  unfold touch_strength at 2.
  destruct (association_strength n !! key) eqn:E.
  - unfold touch_strength. now rewrite E.
  - unfold touch_strength.
    cbn [association_strength set_association_strength].
    rewrite lookup_insert_eq, E. reflexivity.
Qed.

Lemma touch_strength_memories (key : string * string) (n : MemoryNetwork) :
  memories (touch_strength key n) = memories n.
Proof.
  unfold touch_strength. now destruct (association_strength n !! key).
Qed.

Lemma touch_strength_present (key : string * string) (n : MemoryNetwork) :
  key ∈ dom (association_strength n) -> touch_strength key n = n.
Proof.
  intros Hk. apply elem_of_dom in Hk as [v Hv]. unfold touch_strength.
  now rewrite Hv.
Qed.

(** The comprehension keeps, in the order of the list, the identifiers
    whose strength is at least the threshold; reading creates the missing
    strengths. *)
Lemma strong_associations_run (memory_id : string) (t : Q)
      (others : list string) (n : MemoryNetwork) :
  strong_associations memory_id t others n
  = (Ok (List.filter (fun p : string * Q => Qle_bool t p.2)
           (map (fun o => (o, strength_or_zero n (memory_id, o))) others)),
     foldl (fun s o => touch_strength (memory_id, o) s) n others).
Proof.
  revert n. induction others as [|o others IH]; intros n; [reflexivity|].
  cbn [strong_associations map List.filter foldl]. unfold bind at 1.
  rewrite read_strength_run. cbn [snd].
  destruct (Qle_bool t (strength_or_zero n (memory_id, o))) eqn:E.
  - unfold bind at 1. rewrite read_strength_run.
    rewrite touch_strength_twice, strength_or_zero_touch.
    unfold bind at 1. rewrite IH. unfold ret. f_equal. f_equal. f_equal.
    f_equal. apply map_ext. intros o'. now rewrite strength_or_zero_touch.
  - rewrite IH. f_equal. f_equal. f_equal.
    apply map_ext. intros o'. now rewrite strength_or_zero_touch.
Qed.

Lemma touch_all_memories (memory_id : string) (others : list string)
      (n : MemoryNetwork) :
  memories (foldl (fun s o => touch_strength (memory_id, o) s) n others)
  = memories n.
Proof.
  revert n. induction others as [|o others IH]; intros n; [reflexivity|].
  simpl. now rewrite IH, touch_strength_memories.
Qed.

Lemma touch_all_present (memory_id : string) (others : list string)
      (n : MemoryNetwork) :
  (forall o, o ∈ others -> (memory_id, o) ∈ dom (association_strength n)) ->
  foldl (fun s o => touch_strength (memory_id, o) s) n others = n.
Proof.
  induction others as [|o others IH]; intros Hall; [reflexivity|].
  simpl. rewrite touch_strength_present by (apply Hall; left).
  apply IH. intros o' Ho'. apply Hall. now right.
Qed.

Lemma strength_desc_leb_total (a b : string * Q) :
  strength_desc_leb a b = true \/ strength_desc_leb b a = true.
Proof.
  unfold strength_desc_leb. rewrite !Qle_bool_iff.
  destruct (Qlt_le_dec (- a.2) (- b.2)); [left; lra|right; lra].
Qed.

Lemma strength_desc_leb_trans (a b c : string * Q) :
  strength_desc_leb a b = true -> strength_desc_leb b c = true ->
  strength_desc_leb a c = true.
Proof. unfold strength_desc_leb. rewrite !Qle_bool_iff. lra. Qed.

Lemma StronglySorted_take {A} (R : A -> A -> Prop) (k : nat) (l : list A) :
  StronglySorted R l -> StronglySorted R (take k l).
Proof.
  revert k. induction l as [|x l IH]; intros k Hs;
    [destruct k; constructor|].
  destruct k; [constructor|]. simpl.
  inversion Hs as [|? ? Hl Hx]; subst. constructor; [now apply IH|].
  apply List.Forall_forall. intros y Hy.
  rewrite List.Forall_forall in Hx. apply Hx.
  apply list_elem_of_In. apply list_elem_of_In in Hy.
  eapply elem_of_sublist; [exact Hy|apply sublist_take].
Qed.

Lemma StronglySorted_weaken {A} (R R' : A -> A -> Prop) (l : list A) :
  (forall a b, R a b -> R' a b) -> StronglySorted R l -> StronglySorted R' l.
Proof.
  intros HR. induction 1 as [|x l Hl IH Hx]; constructor; [exact IH|].
  eapply List.Forall_impl; [|exact Hx]. intros y. apply HR.
Qed.

Lemma py_slice_to_sublist {A} (k : Z) (l : list A) :
  sublist (py_slice_to k l) l.
Proof. unfold py_slice_to. destruct (0 <=? k); apply sublist_take. Qed.

Lemma py_slice_to_all {A} (k : Z) (l : list A) :
  Z.of_nat (length l) <= k -> py_slice_to k l = l.
Proof.
  intros Hk. unfold py_slice_to. destruct (Z.leb_spec 0 k); [|lia].
  apply take_ge. lia.
Qed.

Lemma py_slice_to_length {A} (k : Z) (l : list A) :
  0 <= k -> Z.of_nat (length (py_slice_to k l)) <= k.
Proof.
  intros Hk. unfold py_slice_to. destruct (Z.leb_spec 0 k); [|lia].
  rewrite length_take. lia.
Qed.

Lemma py_slice_to_sorted {A} (R : A -> A -> Prop) (k : Z) (l : list A) :
  StronglySorted R l -> StronglySorted R (py_slice_to k l).
Proof.
  unfold py_slice_to. destruct (0 <=? k); apply StronglySorted_take.
Qed.

(** The run of [get_associated_memories] for a stored identifier. *)
Lemma get_associated_memories_run (memory_id : string) (t : Q) (k : Z)
      (n : MemoryNetwork) (memory : MemoryTrace) :
  dict_get memory_id (memories n) = Some memory ->
  get_associated_memories memory_id t k n
  = (Ok (py_slice_to k
           (stable_sort strength_desc_leb
              (List.filter (fun p : string * Q => Qle_bool t p.2)
                 (map (fun o => (o, strength_or_zero n (memory_id, o)))
                      (associations memory))))),
     foldl (fun s o => touch_strength (memory_id, o) s) n
           (associations memory)).
Proof.
  intros Hm. unfold get_associated_memories, bind at 1, get. rewrite Hm.
  unfold bind. rewrite strong_associations_run. reflexivity.
Qed.

(** [get_associated_memories] always returns: nothing for an unknown
    identifier, and otherwise identifiers from the association list of the
    record, each with the strength read for the pair, none below the
    threshold, strongest first, and at most [max_results] of them when that
    is not negative.  The records are as before. *)
Theorem get_associated_memories_result
        (memory_id : string) (strength_threshold : Q) (max_results : Z)
        (n : MemoryNetwork) :
  exists result n',
    get_associated_memories memory_id strength_threshold max_results n
    = (Ok result, n')
    /\ memories n' = memories n
    /\ StronglySorted by_strength result
    /\ (0 <= max_results -> Z.of_nat (length result) <= max_results)
    /\ Forall (fun p => (strength_threshold <= p.2)%Q
                        /\ p.2 = strength_or_zero n (memory_id, p.1)
                        /\ exists memory,
                             dict_get memory_id (memories n) = Some memory
                             /\ p.1 ∈ associations memory) result
    /\ (dict_get memory_id (memories n) = None -> result = [] /\ n' = n).
Proof.
  destruct (dict_get memory_id (memories n)) as [memory|] eqn:Hm.
  2:{ exists [], n. unfold get_associated_memories, bind, get. rewrite Hm.
      repeat split; auto using Forall_nil; constructor. }
  rewrite (get_associated_memories_run _ _ _ _ _ Hm).
  eexists _, _. split; [reflexivity|].
  split; [apply touch_all_memories|]. split.
  { apply py_slice_to_sorted.
    eapply StronglySorted_weaken;
      [|apply stable_sort_sorted;
        [apply strength_desc_leb_total|apply strength_desc_leb_trans]].
    intros a b Hab. unfold strength_desc_leb in Hab.
    apply Qle_bool_iff in Hab. unfold by_strength. lra. }
  split; [apply py_slice_to_length|]. split; [|discriminate].
  apply Forall_forall. intros p Hp.
  eapply elem_of_sublist in Hp; [|apply py_slice_to_sublist].
  rewrite (stable_sort_perm strength_desc_leb) in Hp.
  apply list_elem_of_In, filter_In in Hp as [Hp Ht].
  apply in_map_iff in Hp as (o & <- & Ho). simpl in *.
  split; [now apply Qle_bool_iff|]. split; [reflexivity|].
  exists memory. split; [reflexivity|]. now apply list_elem_of_In.
Qed.

(** ** Statistics *)

Lemma lex_leb_refl (a : list Z) : lex_leb a a = true.
Proof.
  induction a as [|x a IH]; simpl; [reflexivity|].
  rewrite Z.eqb_refl, IH. apply orb_true_r.
Qed.

Lemma lex_leb_total (a b : list Z) :
  length a = length b -> lex_leb a b = true \/ lex_leb b a = true.
Proof.
  revert b. induction a as [|x a IH]; intros [|y b] Hlen;
    try discriminate; simpl; [now left|].
  injection Hlen as Hlen. destruct (IH b Hlen) as [Hab|Hba].
  - rewrite Hab, andb_true_r.
    destruct (Z.ltb_spec x y); [now left|].
    destruct (Z.eqb_spec x y); [now left|right].
    destruct (Z.ltb_spec y x); [reflexivity|lia].
  - rewrite Hba, andb_true_r.
    destruct (Z.ltb_spec y x); [now right|].
    destruct (Z.eqb_spec y x); [now right|left].
    destruct (Z.ltb_spec x y); [reflexivity|lia].
Qed.

Lemma lex_leb_trans (a b c : list Z) :
  lex_leb a b = true -> lex_leb b c = true -> lex_leb a c = true.
Proof.
  revert b c. induction a as [|x a IH]; intros [|y b] [|z c]; simpl;
    try reflexivity; try discriminate.
  rewrite !orb_true_iff, !andb_true_iff, !Z.ltb_lt, !Z.eqb_eq.
  intros [Hxy|[-> Hab]] [Hyz|[-> Hbc]]; [left; lia|now left|now left|].
  right. split; [reflexivity|]. eapply IH; eauto.
Qed.

Lemma datetime_leb_refl (a : datetime) : datetime_leb a a = true.
Proof. apply lex_leb_refl. Qed.

Lemma datetime_leb_total (a b : datetime) :
  datetime_leb a b = true \/ datetime_leb b a = true.
Proof. now apply lex_leb_total. Qed.

Lemma datetime_leb_trans (a b c : datetime) :
  datetime_leb a b = true -> datetime_leb b c = true ->
  datetime_leb a c = true.
Proof. apply lex_leb_trans. Qed.

Lemma py_min_from_least (best : datetime) (l : list datetime) :
  py_min_from best l ∈ best :: l
  /\ forall x, x ∈ best :: l -> datetime_leb (py_min_from best l) x = true.
Proof.
  revert best. induction l as [|y l IH]; intros best; simpl.
  - split; [left|]. intros x Hx. apply list_elem_of_singleton in Hx as ->.
    apply datetime_leb_refl.
  - change (py_min_from best (y :: l))
      with (py_min_from (if datetime_ltb y best then y else best) l).
    unfold datetime_ltb.
    destruct (datetime_leb best y) eqn:E; simpl negb; cbv iota.
    + destruct (IH best) as [Hin Hle]. split.
      * apply elem_of_cons in Hin as [->|Hin]; [left|right; now right].
      * intros x Hx. apply elem_of_cons in Hx as [->|Hx]; [apply Hle; left|].
        apply elem_of_cons in Hx as [->|Hx]; [|apply Hle; now right].
        eapply datetime_leb_trans; [apply Hle; left|exact E].
    + destruct (IH y) as [Hin Hle]. split; [now right|].
      intros x Hx. apply elem_of_cons in Hx as [->|Hx]; [|now apply Hle].
      eapply datetime_leb_trans; [apply Hle; left|].
      destruct (datetime_leb_total best y); congruence.
Qed.

Lemma py_max_from_greatest (best : datetime) (l : list datetime) :
  py_max_from best l ∈ best :: l
  /\ forall x, x ∈ best :: l -> datetime_leb x (py_max_from best l) = true.
Proof.
  revert best. induction l as [|y l IH]; intros best; simpl.
  - split; [left|]. intros x Hx. apply list_elem_of_singleton in Hx as ->.
    apply datetime_leb_refl.
  - change (py_max_from best (y :: l))
      with (py_max_from (if datetime_ltb best y then y else best) l).
    unfold datetime_ltb.
    destruct (datetime_leb y best) eqn:E; simpl negb; cbv iota.
    + destruct (IH best) as [Hin Hle]. split.
      * apply elem_of_cons in Hin as [->|Hin]; [left|right; now right].
      * intros x Hx. apply elem_of_cons in Hx as [->|Hx]; [apply Hle; left|].
        apply elem_of_cons in Hx as [->|Hx]; [|apply Hle; now right].
        eapply datetime_leb_trans; [exact E|apply Hle; left].
    + destruct (IH y) as [Hin Hle]. split; [now right|].
      intros x Hx. apply elem_of_cons in Hx as [->|Hx]; [|now apply Hle].
      eapply datetime_leb_trans; [|apply Hle; left].
      destruct (datetime_leb_total best y); congruence.
Qed.

(** The statistics of an empty store are zero counts, [nan] averages and
    no age range, without an exception.  For a store with records the
    averages are numbers, and the age range is made of two stored
    timestamps that bracket every stored timestamp. *)
Theorem get_memory_statistics_ranges (n : MemoryNetwork) :
  let stats := get_memory_statistics n in
  total_memories stats = Z.of_nat (length (memories n))
  /\ (memories n = [] ->
      average_importance stats = None
      /\ average_retrieval_count stats = None /\ total_associations stats = 0
      /\ memory_age_range stats = None)
  /\ (memories n <> [] ->
      average_importance stats <> None
      /\ average_retrieval_count stats <> None
      /\ exists oldest newest,
           memory_age_range stats = Some (oldest, newest)
           /\ oldest ∈ map (fun im => timestamp im.2) (memories n)
           /\ newest ∈ map (fun im => timestamp im.2) (memories n)
           /\ Forall (fun im => datetime_leb oldest (timestamp im.2) = true
                                /\ datetime_leb (timestamp im.2) newest = true)
                     (memories n)).
Proof.
  intros stats. subst stats. unfold get_memory_statistics. simpl.
  split; [reflexivity|]. split.
  { intros ->. repeat split. }
  intros Hne. destruct (memories n) as [|[x m] ms]; [contradiction|].
  clear Hne. rewrite !map_map.
  set (l := (x, m) :: ms).
  split; [discriminate|]. split; [discriminate|].
  simpl map at 1.
  destruct (py_min_from_least (timestamp m)
              (map (fun im : string * MemoryTrace => timestamp im.2) ms))
    as [Hmin_in Hmin].
  destruct (py_max_from_greatest (timestamp m)
              (map (fun im : string * MemoryTrace => timestamp im.2) ms))
    as [Hmax_in Hmax].
  eexists _, _. split; [reflexivity|]. split; [exact Hmin_in|].
  split; [exact Hmax_in|].
  apply Forall_forall. intros im Him.
  assert (Hin : timestamp im.2
                ∈ map (fun im : string * MemoryTrace => timestamp im.2) l)
    by (apply list_elem_of_fmap; eauto).
  split; [apply Hmin, Hin|apply Hmax, Hin].
Qed.

(** ** Invariants of stores without identifier reuse *)

Lemma associate_with_cases_strength (i y : string) (memory : MemoryTrace)
      (s : MemoryNetwork) :
  (associate_with i memory y s).2 = s
  \/ exists other v, y <> i /\ dict_get y (memories s) = Some other
                     /\ _calculate_association_strength memory other = Ok v
                     /\ Qgtb v (3 # 10) = true
                     /\ associate_with i memory y s = (Ok tt, link i y v s).
Proof.
  destruct (String.eqb y i) eqn:E.
  { left. unfold associate_with. now rewrite E. }
  destruct (dict_get y (memories s)) as [other|] eqn:Hy.
  2:{ left. unfold associate_with, bind, get. now rewrite E, Hy. }
  destruct (_calculate_association_strength memory other) as [v|e] eqn:Hv.
  2:{ left. unfold associate_with, bind, get, lift. now rewrite E, Hy, Hv. }
  destruct (Qgtb v (3 # 10)) eqn:Hg.
  2:{ left. unfold associate_with, bind, get, lift. now rewrite E, Hy, Hv, Hg. }
  right. exists other, v. split; [apply String.eqb_neq, E|].
  split; [reflexivity|]. split; [exact Hv|]. split; [exact Hg|].
  now apply (associate_with_link i y memory other).
Qed.

(** A property of stores that holds of the empty store and is kept by the
    steps of the operations holds of every store reached without
    identifier reuse. *)
Section ReachableInvariant.
Context `{StringHash} (P : MemoryNetwork -> Prop).

Hypothesis P_init : forall c, P (MemoryNetwork_init c).

Hypothesis P_insert : forall i memory n,
  consistent n -> P n ->
  dict_get i (memories n) = None -> associations memory = [] ->
  P (_update_indices i memory
       (set_memories (dict_set i memory (memories n)) n)).2.

Hypothesis P_link : forall i y v memory mi my s,
  consistent s -> P s -> y <> i ->
  dict_get i (memories s) = Some mi -> same_facts memory mi ->
  dict_get y (memories s) = Some my -> y ∉ associations mi ->
  _calculate_association_strength memory my = Ok v ->
  Qgtb v (3 # 10) = true ->
  P (link i y v s).

Hypothesis P_forget : forall x n n',
  consistent n -> P n -> frame x n n' -> forgotten x n' -> P n'.

Hypothesis P_query : forall n n',
  consistent n -> P n -> same_graph n n' -> P n'.

Lemma invariant_create_loop (i : string) (memory : MemoryTrace)
      (l : list string) (s : MemoryNetwork) :
  consistent s -> P s -> NoDup l ->
  (exists mi, dict_get i (memories s) = Some mi /\ same_facts memory mi
              /\ forall y, y ∈ l -> y ∉ associations mi) ->
  P (for_each l (associate_with i memory) s).2.
Proof.
  revert s. induction l as [|y l IH]; intros s Hc HP Hnd (mi & Hi & Hf & Hout);
    [exact HP|].
  apply NoDup_cons in Hnd as [Hy Hnd]. simpl. unfold bind.
  destruct (associate_with_cases_strength i y memory s)
    as [Hsame|(other & v & Hne & Hget & Hv & Hgt & Hrun)].
  - destruct (associate_with i memory y s) as [[[]|e] s1]; simpl in Hsame;
      subst s1; [|exact HP].
    apply IH; [exact Hc|exact HP|exact Hnd|]. exists mi.
    split; [exact Hi|]. split; [exact Hf|].
    intros y' Hy'. apply Hout. now right.
  - rewrite Hrun. apply IH; [| |exact Hnd|].
    + eapply consistent_link; eauto. apply Hout. left.
    + apply (P_link i y v memory mi other s); auto. apply Hout. left.
    + pose proof (link_lookup i y v s i Hne) as Hl. rewrite Hi in Hl.
      destruct (dict_get i (memories (link i y v s))) as [mi'|];
        [|contradiction].
      destruct Hl as [Hf' Hl]. exists mi'. split; [reflexivity|].
      split; [eapply same_facts_trans; eauto|].
      intros y' Hy'. rewrite Hl, elem_of_app, elem_of_link_extra.
      intros [Hin|[[_ ->]|[-> _]]]; [|contradiction|contradiction].
      revert Hin. apply Hout. now right.
Qed.

Lemma invariant_remove_each (l : list (string * Q)) (s : MemoryNetwork) :
  consistent s -> P s -> NoDup (map fst l) ->
  (forall x, x ∈ map fst l -> dict_get x (memories s) <> None) ->
  exists s', for_each l (fun x => _remove_memory x.1) s = (Ok tt, s')
             /\ consistent s' /\ P s'.
Proof.
  revert s. induction l as [|x l IH]; intros s Hc HP Hnd Hstored; simpl.
  - exists s. auto.
  - apply NoDup_cons in Hnd as [Hx Hnd].
    destruct (dict_get x.1 (memories s)) as [m|] eqn:Hm.
    2:{ exfalso. apply (Hstored x.1); [left|exact Hm]. }
    destruct (remove_memory_consistent x.1 m s Hc Hm)
      as (s1 & Hrun & Hfg & Hc1 & Hfr).
    unfold bind. rewrite Hrun. apply IH; [exact Hc1| |exact Hnd|].
    + exact (P_forget x.1 s s1 Hc HP Hfr Hfg).
    + intros x' Hx'. assert (Hne : x' <> x.1) by (intros ->; contradiction).
      pose proof (fr_records _ _ _ Hfr x' Hne) as Hr.
      pose proof (Hstored x' ltac:(now right)) as Hs.
      destruct (dict_get x' (memories s)); [|contradiction].
      destruct (dict_get x' (memories s1)); [discriminate|contradiction].
Qed.

Lemma invariant_manage_capacity (now : datetime) (n : MemoryNetwork) :
  consistent n -> P n -> P (_manage_capacity now n).2.
Proof.
  intros Hc HP. unfold _manage_capacity. unfold bind at 1, get.
  destruct (capacity n <? dict_len (memories n)); [|exact HP].
  unfold bind at 1, lift.
  destruct (memory_scores now (memories n)) as [scores|e] eqn:Hs; [|exact HP].
  apply memory_scores_keys in Hs.
  match goal with
  | |- context [for_each ?l _ n] =>
      destruct (invariant_remove_each l n Hc HP) as (s' & Hrun & _ & HP')
  end.
  - rewrite <- firstn_map.
    eapply sublist_NoDup; [|apply sublist_take].
    rewrite (stable_sort_perm score_leb scores), Hs. apply Hc.
  - intros x Hx. rewrite <- firstn_map in Hx.
    apply dict_get_in_keys. rewrite <- Hs.
    apply list_elem_of_In.
    rewrite <- (stable_sort_perm score_leb scores).
    eapply elem_of_sublist; [exact Hx|]. apply sublist_take.
  - rewrite Hrun. exact HP'.
Qed.

Lemma invariant_store_memory (now : datetime) (memory : MemoryTrace)
      (n : MemoryNetwork) :
  consistent n -> P n ->
  dict_get (memory_id_of n memory) (memories n) = None ->
  associations memory = [] ->
  P (store_memory now memory n).2.
Proof.
  intros Hc HP Hfresh Hnil. unfold store_memory. unfold bind at 1, get.
  set (i := memory_id_of n memory) in *.
  unfold bind at 1, modify at 1. unfold bind at 1.
  pose proof (consistent_insert i memory n Hc Hfresh Hnil) as Hc2.
  pose proof (P_insert i memory n Hc HP Hfresh Hnil) as HP2.
  assert (Hmem : memories
                   (_update_indices i memory
                      (set_memories (dict_set i memory (memories n)) n)).2
                 = dict_set i memory (memories n)) by reflexivity.
  destruct (_update_indices i memory
              (set_memories (dict_set i memory (memories n)) n))
    as [[[]|e] n2]; simpl in Hc2, HP2, Hmem; [|exact HP2].
  unfold bind at 1.
  assert (Hself : exists mi, dict_get i (memories n2) = Some mi
                             /\ same_facts memory mi
                             /\ forall y, y ∈ dict_keys (memories n2) ->
                                          y ∉ associations mi).
  { exists memory. split.
    - rewrite Hmem, dict_get_set. now rewrite String.eqb_refl.
    - split; [apply same_facts_refl|].
      intros y _. rewrite Hnil. apply not_elem_of_nil. }
  assert (Hc3 : consistent (_create_associations i memory n2).2).
  { unfold _create_associations, bind, get.
    apply consistent_create_loop; [exact Hc2|apply Hc2|].
    destruct Hself as (mi & Hi & _ & Hout). eauto. }
  assert (HP3 : P (_create_associations i memory n2).2).
  { unfold _create_associations, bind, get.
    apply invariant_create_loop; [exact Hc2|exact HP2|apply Hc2|exact Hself]. }
  destruct (_create_associations i memory n2) as [[[]|e] n3];
    simpl in Hc3, HP3; [|exact HP3].
  unfold bind at 1.
  pose proof (invariant_manage_capacity now n3 Hc3 HP3) as HP4.
  destruct (_manage_capacity now n3) as [[[]|e] n4]; exact HP4.
Qed.

Lemma reachable_invariant (n : MemoryNetwork) : reachable n -> P n.
Proof.
  induction 1 as [c|n now memory Hr IH Hnil Hfresh|order n now q Hr IH
                 |n x Hr IH].
  - apply P_init.
  - apply invariant_store_memory;
      [apply reachable_consistent, Hr|exact IH|exact Hfresh|exact Hnil].
  - eapply P_query; [apply reachable_consistent, Hr|exact IH|].
    apply (@same_graph_retrieve_memories order).
  - destruct (dict_get x (memories n)) as [m|] eqn:Hx.
    + destruct (remove_memory_consistent x m n (reachable_consistent n Hr) Hx)
        as (n' & Hrun & Hfg & _ & Hfr).
      rewrite Hrun.
      exact (P_forget x n n' (reachable_consistent n Hr) IH Hfr Hfg).
    + unfold _remove_memory, bind, get. rewrite Hx. exact IH.
Qed.

End ReachableInvariant.

Lemma indexed_as_transfer (x : string) (m m' : MemoryTrace)
      (n n' : MemoryNetwork) :
  same_facts m m' ->
  (forall k, x ∈ dd_bucket k (context_index n) ->
             x ∈ dd_bucket k (context_index n')) ->
  (forall k, x ∈ dd_bucket k (temporal_index n) ->
             x ∈ dd_bucket k (temporal_index n')) ->
  (forall k, x ∈ dd_bucket k (emotional_index n) ->
             x ∈ dd_bucket k (emotional_index n')) ->
  (forall k, x ∈ dd_bucket k (tag_index n) -> x ∈ dd_bucket k (tag_index n')) ->
  indexed_as x m n -> indexed_as x m' n'.
Proof.
  intros (_ & Ht & _ & Hv & Hc & Hg) Hic Hit Hie Hig (H1 & H2 & H3 & H4).
  unfold indexed_as. rewrite Ht, Hv, Hc, Hg. auto 6.
Qed.

Lemma indexed_reachable `{StringHash} (n : MemoryNetwork) :
  reachable n -> indexed n.
Proof.
  apply (reachable_invariant indexed).
  - intros c x m Hx. discriminate.
  - intros i memory n0 Hc HP Hfresh Hnil x m Hx.
    destruct (update_indices_indexed i memory
                (set_memories (dict_set i memory (memories n0)) n0))
      as (_ & Hmem & _ & Hnew).
    rewrite Hmem in Hx. simpl in Hx. rewrite dict_get_set in Hx.
    destruct (String.eqb_spec x i) as [->|Hne].
    + injection Hx as <-. exact Hnew.
    + apply (indexed_as_transfer x m m n0); [apply same_facts_refl|..|now apply HP];
        intros k Hk; simpl;
        first [apply elem_of_add_fold | apply elem_of_dd_add]; now left.
  - intros i y v memory mi my s Hc HP Hne Hi Hf Hy Hout Hv Hgt z mz' Hz.
    pose proof (link_lookup i y v s z Hne) as Hl. rewrite Hz in Hl.
    destruct (dict_get z (memories s)) as [mz|] eqn:Hmz; [|contradiction].
    destruct Hl as [Hfz _].
    apply (indexed_as_transfer z mz mz' s); auto.
  - intros x n0 n' Hc HP Hfr (Hgone & _) y m' Hy.
    assert (Hne : y <> x) by (intros ->; congruence).
    pose proof (fr_records _ _ _ Hfr y Hne) as Hr. rewrite Hy in Hr.
    destruct (dict_get y (memories n0)) as [m|] eqn:Hm; [|contradiction].
    destruct Hr as [Hf _].
    apply (indexed_as_transfer y m m' n0); [exact Hf|..|now apply HP];
      intros k Hk;
      [apply (fr_context _ _ _ Hfr)|apply (fr_temporal _ _ _ Hfr)
      |apply (fr_emotional _ _ _ Hfr)|apply (fr_tag _ _ _ Hfr)]; auto.
  - intros n0 n' Hc HP Hg y m' Hy.
    pose proof (same_graph_lookup n0 n' y Hg) as Hl. rewrite Hy in Hl.
    destruct (dict_get y (memories n0)) as [m|] eqn:Hm; [|contradiction].
    destruct Hl as [Hf _]. destruct Hg as (_ & Hbc & Hbt & Hbe & Hbg & _).
    apply (indexed_as_transfer y m m' n0); [exact Hf|..|now apply HP];
      intros k Hk;
      [rewrite <- (Hbc k)|rewrite <- (Hbt k)|rewrite <- (Hbe k)
      |rewrite <- (Hbg k)]; exact Hk.
Qed.

Lemma rated_reachable `{StringHash} (n : MemoryNetwork) :
  reachable n -> rated n.
Proof.
  apply (reachable_invariant rated).
  - intros c a b v Hv. simpl in Hv. rewrite lookup_empty in Hv. discriminate.
  - intros i memory n0 Hc HP Hfresh Hnil a b v Hv.
    destruct (HP a b v Hv) as (Hgt & ma & mb & Ha & Hb & Hs).
    split; [exact Hgt|]. exists ma, mb. simpl.
    rewrite !dict_get_set.
    destruct (String.eqb_spec a i) as [->|_]; [congruence|].
    destruct (String.eqb_spec b i) as [->|_]; [congruence|]. auto.
  - intros i y v memory mi my s Hc HP Hne Hi Hf Hy Hout Hv Hgt a b w Hw.
    assert (Hforth : forall z mz, dict_get z (memories s) = Some mz ->
              exists mz', dict_get z (memories (link i y v s)) = Some mz'
                          /\ same_facts mz mz').
    { intros z mz Hz. pose proof (link_lookup i y v s z Hne) as Hl.
      rewrite Hz in Hl.
      destruct (dict_get z (memories (link i y v s))) as [mz'|];
        [|contradiction]. exists mz'. tauto. }
    destruct (Hforth i mi Hi) as (mi' & Hi' & Hfi).
    destruct (Hforth y my Hy) as (my' & Hy' & Hfy).
    assert (Hnew : _calculate_association_strength mi' my' = Ok v).
    { rewrite (strength_same_facts mi mi' my my' Hfi Hfy).
      rewrite (strength_same_facts memory mi my my Hf (same_facts_refl my)).
      exact Hv. }
    unfold link at 1 in Hw. simpl in Hw.
    destruct (decide ((y, i) = (a, b))) as [[= <- <-]|Hn1].
    { rewrite lookup_insert_eq in Hw. injection Hw as <-.
      split; [exact Hgt|]. exists my', mi'. rewrite strength_comm. auto. }
    rewrite lookup_insert_ne in Hw by exact Hn1.
    destruct (decide ((i, y) = (a, b))) as [[= <- <-]|Hn2].
    { rewrite lookup_insert_eq in Hw. injection Hw as <-.
      split; [exact Hgt|]. exists mi', my'. auto. }
    rewrite lookup_insert_ne in Hw by exact Hn2.
    destruct (HP a b w Hw) as (Hgw & ma & mb & Ha & Hb & Hs).
    split; [exact Hgw|].
    destruct (Hforth a ma Ha) as (ma' & Ha' & Hfa).
    destruct (Hforth b mb Hb) as (mb' & Hb' & Hfb).
    exists ma', mb'. split; [exact Ha'|]. split; [exact Hb'|].
    now rewrite (strength_same_facts ma ma' mb mb').
  - intros x n0 n' Hc HP Hfr (_ & _ & _ & _ & _ & _ & Hgone) a b v Hv.
    assert (Ha : a <> x).
    { intros ->. destruct (Hgone b) as [Hn _]. apply Hn.
      apply elem_of_dom. eauto. }
    assert (Hb : b <> x).
    { intros ->. destruct (Hgone a) as [_ Hn]. apply Hn.
      apply elem_of_dom. eauto. }
    rewrite (fr_strength _ _ _ Hfr a b Ha Hb) in Hv.
    destruct (HP a b v Hv) as (Hgt & ma & mb & Hma & Hmb & Hs).
    split; [exact Hgt|].
    pose proof (fr_records _ _ _ Hfr a Ha) as Hra. rewrite Hma in Hra.
    pose proof (fr_records _ _ _ Hfr b Hb) as Hrb. rewrite Hmb in Hrb.
    destruct (dict_get a (memories n')) as [ma'|]; [|contradiction].
    destruct (dict_get b (memories n')) as [mb'|]; [|contradiction].
    exists ma', mb'. split; [reflexivity|]. split; [reflexivity|].
    rewrite (strength_same_facts ma ma' mb mb'); tauto.
  - intros n0 n' Hc HP Hg a b v Hv.
    assert (Hs : association_strength n' = association_strength n0)
      by apply Hg.
    rewrite Hs in Hv.
    destruct (HP a b v Hv) as (Hgt & ma & mb & Hma & Hmb & Hcalc).
    split; [exact Hgt|].
    pose proof (same_graph_lookup n0 n' a Hg) as Hla. rewrite Hma in Hla.
    pose proof (same_graph_lookup n0 n' b Hg) as Hlb. rewrite Hmb in Hlb.
    destruct (dict_get a (memories n')) as [ma'|]; [|contradiction].
    destruct (dict_get b (memories n')) as [mb'|]; [|contradiction].
    exists ma', mb'. split; [reflexivity|]. split; [reflexivity|].
    rewrite (strength_same_facts ma ma' mb mb'); tauto.
Qed.

Lemma agrees_reachable `{StringHash} (n : MemoryNetwork) :
  reachable n -> agrees n.
Proof.
  intros Hr. pose proof (reachable_consistent n Hr) as Hc.
  pose proof (indexed_reachable n Hr) as Hi.
  split; [apply Hc|..]; intros x k; (split; [|intros (m & Hm & Hk)]).
  - apply (co_context _ Hc).
  - now apply (Hi x m Hm).
  - apply (co_temporal _ Hc).
  - subst k. now apply (Hi x m Hm).
  - apply (co_emotional _ Hc).
  - subst k. now apply (Hi x m Hm).
  - apply (co_tag _ Hc).
  - now apply (Hi x m Hm).
Qed.


(** In a store reached without identifier reuse the four indices agree
    with the records: an identifier is in a context, hour, emotion or tag
    bucket exactly when the record stored under it has that context pair,
    hour, rounded valence or tag. *)
Theorem indices_agree_with_records `{StringHash} (n : MemoryNetwork) :
  reachable n ->
  (forall x k,
     x ∈ dd_bucket k (context_index n)
     <-> exists m, dict_get x (memories n) = Some m
                   /\ k ∈ context_keys (context m))
  /\ (forall x k,
        x ∈ dd_bucket k (temporal_index n)
        <-> exists m, dict_get x (memories n) = Some m
                      /\ k = hour_key (timestamp m))
  /\ (forall x k,
        x ∈ dd_bucket k (emotional_index n)
        <-> exists m, dict_get x (memories n) = Some m
                      /\ k = emotion_key (emotional_valence m))
  /\ (forall x k,
        x ∈ dd_bucket k (tag_index n)
        <-> exists m, dict_get x (memories n) = Some m /\ k ∈ tags m).
Proof.
  intros Hr. destruct (agrees_reachable n Hr) as [_ H1 H2 H3 H4]. auto.
Qed.

Lemma indices_agree_with_records_witness :
  (forall x k,
     x ∈ dd_bucket k (context_index sample_store)
     <-> exists m, dict_get x (memories sample_store) = Some m
                   /\ k ∈ context_keys (context m))
  /\ (forall x k,
        x ∈ dd_bucket k (temporal_index sample_store)
        <-> exists m, dict_get x (memories sample_store) = Some m
                      /\ k = hour_key (timestamp m))
  /\ (forall x k,
        x ∈ dd_bucket k (emotional_index sample_store)
        <-> exists m, dict_get x (memories sample_store) = Some m
                      /\ k = emotion_key (emotional_valence m))
  /\ (forall x k,
        x ∈ dd_bucket k (tag_index sample_store)
        <-> exists m, dict_get x (memories sample_store) = Some m
                      /\ k ∈ tags m).
Proof.
  apply (indices_agree_with_records sample_store).
  exact sample_store_reachable.
Defined.

Lemma Qgtb_lt (a b : Q) : Qgtb a b = true -> (b < a)%Q.
Proof.
  unfold Qgtb. intros Hg. apply negb_true_iff in Hg.
  apply Qnot_le_lt. intros Hle. apply Qle_bool_iff in Hle. congruence.
Qed.

(** The strength stored for an association of a stored record. *)
Lemma association_strength_stored (n : MemoryNetwork)
      (a b : string) (ma : MemoryTrace) :
  consistent n -> rated n ->
  dict_get a (memories n) = Some ma -> b ∈ associations ma ->
  exists mb v,
    dict_get b (memories n) = Some mb
    /\ association_strength n !! (a, b) = Some v
    /\ _calculate_association_strength ma mb = Ok v
    /\ (3 # 10 < v)%Q.
Proof.
  intros Hc Hrt Ha Hb.
  assert (Hdom : (a, b) ∈ dom (association_strength n))
    by (apply (co_strength _ Hc); eauto).
  apply elem_of_dom in Hdom as [v Hv].
  destruct (Hrt a b v Hv) as (Hgt & ma' & mb & Ha' & Hmb & Hs).
  assert (ma' = ma) by congruence. subst ma'.
  exists mb, v. auto using Qgtb_lt.
Qed.

(** In a store reached without identifier reuse every association of a
    stored record leads to a stored record, and the strength stored for the
    pair is the strength of the two records as stored, above 0.3. *)
Theorem associations_have_strength_above_threshold
        `{StringHash} (n : MemoryNetwork) (a b : string) (ma : MemoryTrace) :
  reachable n ->
  dict_get a (memories n) = Some ma -> b ∈ associations ma ->
  exists mb strength,
    dict_get b (memories n) = Some mb
    /\ association_strength n !! (a, b) = Some strength
    /\ _calculate_association_strength ma mb = Ok strength
    /\ (3 # 10 < strength)%Q.
Proof.
  intros Hr. apply association_strength_stored;
    [now apply reachable_consistent|now apply rated_reachable].
Qed.

Lemma associations_have_strength_above_threshold_witness :
  exists mb strength,
    dict_get "mem_1_99" (memories sample_store) = Some mb
    /\ association_strength sample_store !! ("mem_0_98", "mem_1_99")%string
       = Some strength
    /\ _calculate_association_strength
         (stored_record "mem_0_98" sample_store) mb = Ok strength
    /\ (3 # 10 < strength)%Q.
Proof.
  apply (associations_have_strength_above_threshold
           sample_store "mem_0_98" "mem_1_99");
    [exact sample_store_reachable|vm_compute; reflexivity|by_evaluation].
Defined.

Lemma filter_all {A} (p : A -> bool) (l : list A) :
  (forall x, In x l -> p x = true) -> List.filter p l = l.
Proof.
  induction l as [|x l IH]; intros Hall; simpl; [reflexivity|].
  rewrite (Hall x) by now left. f_equal. apply IH.
  intros y Hy. apply Hall. now right.
Qed.

(** On a consistent store whose strengths are all above 0.3, a call with a
    threshold of at most 0.3 and room for every association returns them
    all and reads no missing strength. *)
Lemma get_associated_memories_all (n : MemoryNetwork) (memory_id : string)
      (memory : MemoryTrace) (t : Q) (k : Z) :
  consistent n -> rated n ->
  dict_get memory_id (memories n) = Some memory ->
  (t <= 3 # 10)%Q ->
  Z.of_nat (length (associations memory)) <= k ->
  exists result,
    get_associated_memories memory_id t k n = (Ok result, n)
    /\ map fst result ≡ₚ associations memory
    /\ Forall (fun p => exists other,
                 dict_get p.1 (memories n) = Some other
                 /\ association_strength n !! (memory_id, p.1) = Some p.2
                 /\ _calculate_association_strength memory other = Ok p.2)
              result.
Proof.
  intros Hc Hrt Hm Ht Hk.
  rewrite (get_associated_memories_run _ _ _ _ _ Hm).
  rewrite touch_all_present.
  2:{ intros o Ho. apply (co_strength _ Hc). eauto. }
  rewrite filter_all.
  2:{ intros p Hp. apply in_map_iff in Hp as (o & <- & Ho). simpl.
      apply list_elem_of_In in Ho.
      destruct (association_strength_stored n memory_id o memory Hc Hrt Hm Ho)
        as (mo & v & _ & Hv & _ & Hgt).
      unfold strength_or_zero. rewrite Hv. simpl.
      apply Qle_bool_iff. lra. }
  rewrite py_slice_to_all
    by (rewrite stable_sort_length, length_map; exact Hk).
  eexists. split; [reflexivity|]. split.
  - rewrite (stable_sort_perm strength_desc_leb), map_map. simpl.
    now rewrite map_id.
  - apply Forall_forall. intros p Hp.
    rewrite (stable_sort_perm strength_desc_leb) in Hp.
    apply list_elem_of_fmap in Hp as (o & -> & Ho). simpl.
    destruct (association_strength_stored n memory_id o memory Hc Hrt Hm Ho)
      as (mo & v & Hmo & Hv & Hs & _).
    exists mo. unfold strength_or_zero. rewrite Hv. simpl. auto.
Qed.

(** In a store reached without identifier reuse, [get_associated_memories]
    with a threshold of at most 0.3 (the default) and [max_results] not
    below the number of associations returns every association of the
    record, each with the strength of the two stored records, and leaves
    the store as it is. *)
Theorem get_associated_memories_returns_all
        `{StringHash} (n : MemoryNetwork) (memory_id : string)
        (memory : MemoryTrace) (strength_threshold : Q) (max_results : Z) :
  reachable n ->
  dict_get memory_id (memories n) = Some memory ->
  (strength_threshold <= 3 # 10)%Q ->
  Z.of_nat (length (associations memory)) <= max_results ->
  exists result,
    get_associated_memories memory_id strength_threshold max_results n
    = (Ok result, n)
    /\ map fst result ≡ₚ associations memory
    /\ Forall (fun p => exists other,
                 dict_get p.1 (memories n) = Some other
                 /\ association_strength n !! (memory_id, p.1) = Some p.2
                 /\ _calculate_association_strength memory other = Ok p.2)
              result.
Proof.
  intros Hr. apply get_associated_memories_all;
    [now apply reachable_consistent|now apply rated_reachable].
Qed.

Lemma get_associated_memories_returns_all_witness :
  exists result,
    get_associated_memories "mem_0_98" (3 # 10) 10 sample_store
    = (Ok result, sample_store)
    /\ map fst result ≡ₚ associations (stored_record "mem_0_98" sample_store)
    /\ Forall (fun p => exists other,
                 dict_get p.1 (memories sample_store) = Some other
                 /\ association_strength sample_store !! ("mem_0_98"%string, p.1)
                    = Some p.2
                 /\ _calculate_association_strength
                      (stored_record "mem_0_98" sample_store) other = Ok p.2)
              result.
Proof.
  apply (get_associated_memories_returns_all sample_store "mem_0_98");
    [exact sample_store_reachable|vm_compute; reflexivity
    |vm_compute; discriminate|vm_compute; discriminate].
Defined.

(** ** Counting associations *)

Lemma dict_get_elem_of {V} (k : string) (v : V) (d : list (string * V)) :
  NoDup (dict_keys d) -> (dict_get k d = Some v <-> (k, v) ∈ d).
Proof.
  induction d as [|[k' v'] d IH]; simpl; intros Hnd.
  - split; [discriminate|]. intros Hin. inversion Hin.
  - apply NoDup_cons in Hnd as [Hk' Hnd]. rewrite elem_of_cons.
    destruct (String.eqb_spec k k') as [->|Hne].
    + split; [intros [= ->]; now left|].
      intros [[= ->]|Hin]; [reflexivity|].
      exfalso. apply Hk'. apply list_elem_of_fmap. now exists (k', v).
    + rewrite (IH Hnd). split; [now right|].
      intros [[= -> _]|Hin]; [contradiction|exact Hin].
Qed.

Lemma elem_of_association_pairs (a b : string)
      (ms : list (string * MemoryTrace)) :
  (a, b) ∈ association_pairs ms
  <-> exists m, (a, m) ∈ ms /\ b ∈ associations m.
Proof.
  induction ms as [|[a' m'] ms IH].
  - split; [intros Hin; inversion Hin|intros (m & Hin & _); inversion Hin].
  - change (association_pairs ((a', m') :: ms))
      with (map (fun b => (a', b)) (associations m') ++ association_pairs ms).
    rewrite elem_of_app, IH, list_elem_of_fmap. split.
    + intros [(b' & [= -> ->] & Hb)|(m & Hm & Hb)].
      * exists m'. split; [left|exact Hb].
      * exists m. split; [now right|exact Hb].
    + intros (m & Hm & Hb). apply elem_of_cons in Hm as [[= -> ->]|Hm].
      * left. eauto.
      * right. eauto.
Qed.

Lemma association_pairs_NoDup (ms : list (string * MemoryTrace)) :
  NoDup (dict_keys ms) ->
  (forall a m, (a, m) ∈ ms -> NoDup (associations m)) ->
  NoDup (association_pairs ms).
Proof.
  induction ms as [|[a m] ms IH]; intros Hk Hnd; [constructor|].
  apply NoDup_cons in Hk as [Ha Hk].
  change (association_pairs ((a, m) :: ms))
    with (map (fun b => (a, b)) (associations m) ++ association_pairs ms).
  apply NoDup_app. split; [|split].
  - apply NoDup_fmap_2; [intros b b' [= ->]; reflexivity|].
    apply (Hnd a m). left.
  - intros [a' b] Hin Hin'.
    apply list_elem_of_fmap in Hin as (b' & [= -> ->] & _).
    apply elem_of_association_pairs in Hin' as (m' & Hm' & _).
    apply Ha. apply list_elem_of_fmap. now exists (a, m').
  - apply IH; [exact Hk|]. intros a' m' Hin. apply (Hnd a' m'). now right.
Qed.

Lemma association_pairs_length (ms : list (string * MemoryTrace)) :
  Z.of_nat (length (association_pairs ms))
  = foldr Z.add 0
      (map (fun m => Z.of_nat (length (associations m))) (map snd ms)).
Proof.
  induction ms as [|[a m] ms IH]; [reflexivity|].
  change (association_pairs ((a, m) :: ms))
    with (map (fun b => (a, b)) (associations m) ++ association_pairs ms).
  rewrite length_app, length_map, Nat2Z.inj_add, IH. reflexivity.
Qed.

(** A finite relation that is symmetric and irreflexive has an even number
    of pairs. *)
Lemma symmetric_irreflexive_even (E : gset (string * string)) :
  (forall a b, (a, b) ∈ E -> (b, a) ∈ E) ->
  (forall a, (a, a) ∉ E) ->
  exists k, size E = (2 * k)%nat.
Proof.
  remember (size E) as sz eqn:Hsz. revert E Hsz.
  induction sz as [sz IH] using lt_wf_ind. intros E Hsz Hsym Hirr.
  destruct (decide (E = ∅)) as [->|Hne].
  { exists 0%nat. rewrite Hsz. apply size_empty. }
  apply set_choose_L in Hne as [[a b] Hab].
  assert (Hba : (b, a) ∈ E) by now apply Hsym.
  assert (Hneq : (a, b) <> (b, a)).
  { intros [= -> _]. now apply (Hirr b). }
  set (two := {[(a, b); (b, a)]} : gset (string * string)).
  assert (Htwo : size two = 2%nat).
  { unfold two. rewrite size_union.
    - now rewrite !size_singleton.
    - apply disjoint_singleton_l. rewrite elem_of_singleton. exact Hneq. }
  assert (Hsub : two ⊆ E).
  { intros p Hp. apply elem_of_union in Hp as [Hp|Hp];
      apply elem_of_singleton in Hp; now subst p. }
  pose proof (size_difference _ _ Hsub) as Hdiff.
  pose proof (subseteq_size two E Hsub) as Hle.
  destruct (IH (size (E ∖ two)) ltac:(lia) (E ∖ two) eq_refl) as [k Hk].
  - intros c d Hcd. apply elem_of_difference in Hcd as [Hcd Hout].
    apply elem_of_difference. split; [now apply Hsym|].
    intros Hin. apply Hout. unfold two in *.
    apply elem_of_union in Hin as [Hin|Hin];
      apply elem_of_singleton in Hin; injection Hin as -> ->;
      apply elem_of_union; [right|left]; now apply elem_of_singleton.
  - intros c Hc. apply elem_of_difference in Hc as [Hc _]. now apply (Hirr c).
  - exists (S k). lia.
Qed.

(** On a consistent store the association lists hold exactly the keys of
    the stored strengths, once each, and their number is even. *)
Lemma association_count (n : MemoryNetwork) :
  consistent n ->
  Z.of_nat (size (dom (association_strength n)))
  = foldr Z.add 0
      (map (fun m => Z.of_nat (length (associations m)))
           (map snd (memories n)))
  /\ exists k, size (dom (association_strength n)) = (2 * k)%nat.
Proof.
  intros Hc.
  assert (Hdom : dom (association_strength n)
                 = list_to_set (association_pairs (memories n))).
  { apply set_eq. intros [a b].
    rewrite (co_strength _ Hc), elem_of_list_to_set,
      elem_of_association_pairs.
    split; intros (m & Hm & Hb); exists m; (split; [|exact Hb]);
      apply (dict_get_elem_of a m (memories n) (co_keys _ Hc)); exact Hm. }
  split.
  - rewrite Hdom, size_list_to_set, association_pairs_length; [reflexivity|].
    apply association_pairs_NoDup; [apply Hc|].
    intros a m Hm. apply (co_nodup _ Hc a m).
    now apply (dict_get_elem_of a m (memories n) (co_keys _ Hc)).
  - apply symmetric_irreflexive_even.
    + intros a b Hab. apply (co_strength _ Hc) in Hab as (ma & Hma & Hb).
      destruct (co_sym _ Hc a ma b Hma Hb) as (mb & Hmb & Ha).
      apply (co_strength _ Hc). eauto.
    + intros a Ha. apply (co_strength _ Hc) in Ha as (ma & Hma & Hin).
      now apply (co_irrefl _ Hc a ma).
Qed.

(** In a store reached without identifier reuse, [total_associations]
    counts each associated pair once: twice its value is the sum of the
    lengths of the association lists and the number of stored strengths. *)
Theorem total_associations_counts_pairs `{StringHash} (n : MemoryNetwork) :
  reachable n ->
  2 * total_associations (get_memory_statistics n)
  = Z.of_nat (size (dom (association_strength n)))
  /\ 2 * total_associations (get_memory_statistics n)
     = Z.of_nat (length (association_pairs (memories n))).
Proof.
  intros Hr. apply reachable_consistent in Hr.
  destruct (association_count n Hr) as [Hsum [k Hk]].
  rewrite association_pairs_length, <- Hsum.
  unfold get_memory_statistics. cbn [total_associations].
  rewrite <- Hsum, Hk.
  replace (Z.of_nat (2 * k)) with (Z.of_nat k * 2) by lia.
  rewrite Z.div_mul by lia. lia.
Qed.

Lemma total_associations_counts_pairs_witness :
  2 * total_associations (get_memory_statistics sample_store)
  = Z.of_nat (size (dom (association_strength sample_store)))
  /\ 2 * total_associations (get_memory_statistics sample_store)
     = Z.of_nat (length (association_pairs (memories sample_store))).
Proof.
  apply (total_associations_counts_pairs sample_store).
  exact sample_store_reachable.
Defined.

(** ** What a query returns *)














(** ** Identifiers while the store has room *)

Lemma pretty_N_char_free (x : N) :
  Ascii.eqb (pretty_N_char x) "_" = false.
Proof. unfold pretty_N_char. repeat case_match; reflexivity. Qed.

Lemma pretty_N_go_free (x : N) (s : string) :
  free_of "_" s = true -> free_of "_" (pretty_N_go x s) = true.
Proof.
  revert s. induction (N.lt_wf_0 x) as [x _ IH]; intros s Hs.
  destruct (N.eq_dec x 0%N) as [->|Hx]; [now rewrite pretty_N_go_0|].
  rewrite pretty_N_go_step by lia. apply IH; [apply N.div_lt; lia|].
  simpl. now rewrite pretty_N_char_free.
Qed.

Lemma pretty_N_free (x : N) : free_of "_" (pretty x) = true.
Proof.
  unfold pretty, pretty_N. destruct (decide (x = 0%N)); [reflexivity|].
  now apply pretty_N_go_free.
Qed.

Lemma pretty_nat_free (j : nat) : free_of "_" (pretty (Z.of_nat j)) = true.
Proof.
  destruct (Z.of_nat j) as [|p|p] eqn:E; [reflexivity| |lia].
  apply (pretty_N_free (Npos p)).
Qed.

Lemma append_split (c : ascii) (d1 d2 r1 r2 : string) :
  free_of c d1 = true -> free_of c d2 = true ->
  d1 +:+ String c r1 = d2 +:+ String c r2 -> d1 = d2.
Proof.
  revert d2. induction d1 as [|a d1 IH]; intros [|b d2]; simpl;
    intros H1 H2 Heq; [reflexivity|..].
  - injection Heq as <- _. now rewrite Ascii.eqb_refl in H2.
  - injection Heq as -> _. now rewrite Ascii.eqb_refl in H1.
  - injection Heq as -> Heq.
    apply andb_true_iff in H1 as [_ H1], H2 as [_ H2].
    f_equal. now apply IH.
Qed.

(** Identifiers made for different positions differ. *)
Lemma memory_id_position (j j' : nat) (r r' : string) :
  "mem_" +:+ pretty (Z.of_nat j) +:+ "_" +:+ r
  = "mem_" +:+ pretty (Z.of_nat j') +:+ "_" +:+ r' ->
  j = j'.
Proof.
  intros Heq. simpl in Heq. injection Heq as Heq.
  apply append_split in Heq; [|apply pretty_nat_free..].
  apply (inj pretty) in Heq. lia.
Qed.

Lemma numbered_fresh `{StringHash} (n : MemoryNetwork) (memory : MemoryTrace) :
  numbered n -> dict_get (memory_id_of n memory) (memories n) = None.
Proof.
  intros Hnum.
  destruct (dict_get (memory_id_of n memory) (memories n)) as [m|] eqn:Hm;
    [exfalso|reflexivity].
  assert (Hin : memory_id_of n memory ∈ dict_keys (memories n)).
  { apply list_elem_of_In, dict_get_in_keys. congruence. }
  apply list_elem_of_lookup in Hin as [j Hj].
  pose proof (lookup_lt_Some _ _ _ Hj) as Hlt.
  destruct (Hnum j _ Hj) as (m' & _ & Heq).
  unfold memory_id_of, dict_len in Heq.
  apply memory_id_position in Heq.
  unfold dict_keys in Hlt. rewrite length_map in Hlt. lia.
Qed.

Lemma dict_set_fresh {V} (i : string) (v : V) (d : list (string * V)) :
  dict_get i d = None -> dict_set i v d = d ++ [(i, v)].
Proof.
  induction d as [|[k w] d IH]; simpl; [reflexivity|].
  destruct (String.eqb i k); [discriminate|]. intros Hd. now rewrite IH.
Qed.

Lemma set_associations_content (l : list string) (m : MemoryTrace) :
  content (set_associations l m) = content m.
Proof. reflexivity. Qed.

(** A call of [store_memory] on a numbered store with room keeps it
    numbered, and is a step without identifier reuse. *)
Lemma numbered_store_memory `{StringHash} (now : datetime)
      (memory : MemoryTrace) (n : MemoryNetwork) :
  numbered n -> dict_len (memories n) < capacity n ->
  numbered (store_memory now memory n).2
  /\ capacity (store_memory now memory n).2 = capacity n
  /\ (length (memories (store_memory now memory n).2)
      = S (length (memories n)))%nat.
Proof.
  intros Hnum Hroom.
  pose proof (numbered_fresh n memory Hnum) as Hfresh.
  pose proof (keeps_capacity_store_memory now memory n) as Hcap.
  destruct (store_memory_with_room_run now memory n _ Hroom eq_refl)
    as (b & n3 & Hrun & _ & (l & Hself) & _ & Hkeys & Hothers).
  rewrite Hrun in Hcap |- *. cbn [snd] in Hcap |- *.
  rewrite (dict_set_fresh _ _ _ Hfresh) in Hkeys.
  unfold dict_keys in Hkeys. rewrite map_app in Hkeys. simpl in Hkeys.
  split; [|split; [exact Hcap|]].
  - intros j k Hj. unfold dict_keys in Hj. rewrite Hkeys in Hj.
    destruct (decide (j < length (memories n))%nat) as [Hlt|Hge].
    + rewrite lookup_app_l in Hj by now rewrite length_map.
      destruct (Hnum j k Hj) as (m & Hm & Heq).
      assert (Hne : k <> memory_id_of n memory) by congruence.
      destruct (Hothers k m Hne Hm) as (l' & Hm').
      exists (set_associations l' m). split; [exact Hm'|exact Heq].
    + rewrite lookup_app_r in Hj by (rewrite length_map; lia).
      rewrite length_map in Hj.
      destruct (j - length (memories n))%nat as [|d] eqn:Ed;
        [|destruct d; discriminate].
      injection Hj as <-. exists (set_associations l memory).
      split; [exact Hself|]. unfold memory_id_of, dict_len.
      replace j with (length (memories n)) by lia. reflexivity.
  - rewrite <- (length_map fst (memories n3)), Hkeys, length_app, length_map.
    simpl. lia.
Qed.

(** Two dictionaries with the same keys in the same order hold related
    values at each position when they hold related values under each key. *)
Lemma entries_by_keys {V} (R : V -> V -> Prop) (d d' : list (string * V)) :
  NoDup (dict_keys d) ->
  dict_keys d' = dict_keys d ->
  (forall k v, dict_get k d = Some v ->
     exists v', dict_get k d' = Some v' /\ R v v') ->
  Forall2 R (map snd d) (map snd d').
Proof.
  revert d'. induction d as [|[k v] d IH]; intros [|[k' v'] d'] Hnd Hk Hget;
    try discriminate; [constructor|].
  simpl in Hk. injection Hk as -> Hk. simpl in Hnd.
  apply NoDup_cons in Hnd as [Hnk Hnd]. simpl. constructor.
  - destruct (Hget k v) as (v2 & Hv2 & HR);
      [simpl; now rewrite String.eqb_refl|].
    simpl in Hv2. rewrite String.eqb_refl in Hv2. congruence.
  - apply IH; [exact Hnd|exact Hk|]. intros k2 v2 Hk2.
    assert (Hne : k2 <> k).
    { intros ->. apply Hnk, list_elem_of_In, dict_get_in_keys. congruence. }
    apply String.eqb_neq in Hne.
    destruct (Hget k2 v2) as (v3 & Hv3 & HR); [simpl; now rewrite Hne|].
    simpl in Hv3. rewrite Hne in Hv3. eauto.
Qed.

(** A call of [store_memory] on a store with room, under an identifier not
    in use, puts the record after the records stored before and leaves
    these in place. *)
Lemma store_memory_with_room_records `{StringHash} (now : datetime)
      (memory : MemoryTrace) (n : MemoryNetwork) :
  NoDup (dict_keys (memories n)) ->
  dict_get (memory_id_of n memory) (memories n) = None ->
  dict_len (memories n) < capacity n ->
  Forall2 up_to_associations
          (map snd (memories n) ++ [memory])
          (map snd (memories (store_memory now memory n).2)).
Proof.
  intros Hnd Hfresh Hroom.
  destruct (store_memory_with_room_run now memory n _ Hroom eq_refl)
    as (b & n3 & Hrun & _ & (l & Hself) & _ & Hkeys & Hothers).
  rewrite Hrun. cbn [snd].
  replace (map snd (memories n) ++ [memory])
    with (map snd (dict_set (memory_id_of n memory) memory (memories n)))
    by (rewrite (dict_set_fresh _ _ _ Hfresh), map_app; reflexivity).
  apply entries_by_keys;
    [now apply dict_set_keys_NoDup|exact Hkeys|].
  intros k v. rewrite dict_get_set.
  destruct (String.eqb_spec k (memory_id_of n memory)) as [->|Hne].
  - intros [= <-]. exists (set_associations l memory).
    split; [exact Hself|reflexivity].
  - intros Hv. destruct (Hothers k v Hne Hv) as (l' & Hv').
    exists (set_associations l' v). split; [exact Hv'|reflexivity].
Qed.

(** While no more records are stored than the capacity, every call is a
    step without identifier reuse, and every record whose constructor
    returned is put after the records stored before. *)
Lemma store_all_within_capacity `{StringHash}
      (calls : list (datetime * MemoryTrace)) (n : MemoryNetwork) :
  reachable n -> numbered n ->
  Forall (fun call => associations call.2 = []) calls ->
  Z.of_nat (length (memories n)) + Z.of_nat (length calls) <= capacity n ->
  reachable (store_all calls n) /\ numbered (store_all calls n)
  /\ Forall2 up_to_associations
             (map snd (memories n) ++ accepted calls)
             (map snd (memories (store_all calls n))).
Proof.
  revert n. induction calls as [|[now fields] calls IH];
    intros n Hr Hnum Hnil Hcap.
  { split; [exact Hr|]. split; [exact Hnum|].
    unfold accepted. simpl. rewrite app_nil_r.
    apply Forall_Forall2_diag, Forall_forall.
    intros m _. apply up_to_associations_refl. }
  apply Forall_cons in Hnil as [Hnil0 Hnil]. simpl in Hnil0.
  cbn [store_all]. change (length ((now, fields) :: calls))
    with (S (length calls)) in Hcap. rewrite Nat2Z.inj_succ in Hcap.
  unfold accepted. cbn [List.filter snd].
  unfold construct_and_store, bind, lift.
  destruct (MemoryTrace_post_init fields) as [memory|e] eqn:Hinit.
  2:{ cbn [is_ok]. apply IH; [exact Hr|exact Hnum|exact Hnil|]. simpl. lia. }
  apply post_init_ok_inv in Hinit as [-> _]. cbn [is_ok map snd].
  assert (Hroom : dict_len (memories n) < capacity n)
    by (unfold dict_len; lia).
  pose proof (numbered_fresh n fields Hnum) as Hfresh.
  destruct (numbered_store_memory now fields n Hnum Hroom)
    as (Hnum' & Hcap' & Hlen').
  pose proof (store_memory_with_room_records now fields n
                (co_keys _ (reachable_consistent n Hr)) Hfresh Hroom) as Hstep.
  destruct (IH (store_memory now fields n).2) as (Hr' & Hn' & Hall);
    [now apply reach_store|exact Hnum'|exact Hnil
    |rewrite Hcap', Hlen'; lia|].
  split; [exact Hr'|]. split; [exact Hn'|].
  rewrite cons_middle, app_assoc.
  eapply Forall2_trans; [apply up_to_associations_trans| |exact Hall].
  apply Forall2_app; [exact Hstep|].
  apply Forall_Forall2_diag, Forall_forall.
  intros m _. apply up_to_associations_refl.
Qed.

(** As long as no more records are stored than the capacity, no identifier
    is reused and nothing is evicted or overwritten: the store is one
    reached without identifier reuse, it holds exactly the records whose
    constructor returned, in call order and each as it was passed apart
    from its association list, and the record at position [j] is stored
    under the identifier made of [j] and the hash of its content. *)
Theorem no_identifier_reuse_within_capacity
        `{StringHash} (c : Z) (calls : list (datetime * MemoryTrace)) :
  Z.of_nat (length calls) <= c ->
  Forall (fun call => associations call.2 = []) calls ->
  reachable (store_all calls (MemoryNetwork_init c))
  /\ consistent (store_all calls (MemoryNetwork_init c))
  /\ numbered (store_all calls (MemoryNetwork_init c))
  /\ holds_in_order (accepted calls) (store_all calls (MemoryNetwork_init c)).
Proof.
  intros Hlen Hnil.
  destruct (store_all_within_capacity calls (MemoryNetwork_init c))
    as (Hr & Hnum & Hall); [apply reach_init| |exact Hnil|simpl; lia|].
  { intros j k Hj. destruct j; discriminate. }
  split; [exact Hr|]. split; [apply reachable_consistent, Hr|].
  split; [exact Hnum|exact Hall].
Qed.

Lemma no_identifier_reuse_within_capacity_witness :
  reachable (store_all sample_calls (MemoryNetwork_init 4))
  /\ consistent (store_all sample_calls (MemoryNetwork_init 4))
  /\ numbered (store_all sample_calls (MemoryNetwork_init 4))
  /\ holds_in_order (accepted sample_calls)
                    (store_all sample_calls (MemoryNetwork_init 4)).
Proof.
  apply (no_identifier_reuse_within_capacity 4 sample_calls).
  - vm_compute. discriminate.
  - repeat constructor.
Defined.

(** ** Which records are evicted *)

Lemma dict_del_keys {V} (x : string) (d : list (string * V)) :
  NoDup (dict_keys d) -> dict_keys (dict_del x d) = without x (dict_keys d).
Proof.
  induction d as [|[k v] d IH]; intros Hnd; [reflexivity|].
  apply NoDup_cons in Hnd as [Hk Hnd]. simpl.
  rewrite (String.eqb_sym k x). destruct (String.eqb_spec x k) as [->|Hne].
  - simpl. symmetry. now apply without_absent.
  - simpl. f_equal. now apply IH.
Qed.

Lemma remove_memory_keys (x : string) (n n' : MemoryNetwork) :
  NoDup (dict_keys (memories n)) ->
  _remove_memory x n = (Ok tt, n') ->
  dict_keys (memories n') = without x (dict_keys (memories n)).
Proof.
  intros Hnd. unfold _remove_memory. unfold bind at 1. unfold get.
  destruct (dict_get x (memories n)) as [memory|] eqn:Hget; [|discriminate].
  generalize (length (associations memory)). intros fuel.
  repeat (unfold bind at 1; unfold modify at 1).
  match goal with
  | |- context [remove_associations fuel 0 x ?s] =>
      pose proof (keeps_keys_remove_associations fuel 0 x s) as Hk;
      destruct (remove_associations fuel 0 x s) as [[[]|e] n1]
  end; [|discriminate].
  destruct Hk as [Hkeys _]. simpl in Hkeys.
  unfold modify. intros [= <-]. simpl.
  rewrite dict_del_keys by now rewrite Hkeys. now rewrite Hkeys.
Qed.

Lemma filter_without (x : string) (l ks : list string) :
  List.filter (fun y => negb (bool_decide (y ∈ l))) (without x ks)
  = List.filter (fun y => negb (bool_decide (y ∈ x :: l))) ks.
Proof.
  unfold without. induction ks as [|k ks IH]; [reflexivity|]. simpl.
  destruct (String.eqb_spec k x) as [->|Hne]; simpl.
  - rewrite (bool_decide_eq_true_2 (x ∈ x :: l)) by left. exact IH.
  - destruct (bool_decide (k ∈ l)) eqn:E.
    + apply bool_decide_eq_true in E.
      rewrite (bool_decide_eq_true_2 (k ∈ x :: l)) by now right. exact IH.
    + apply bool_decide_eq_false in E.
      rewrite (bool_decide_eq_false_2 (k ∈ x :: l)).
      * simpl. now rewrite IH.
      * intros Hin. apply elem_of_cons in Hin as [?|?]; contradiction.
Qed.

(** Evicting distinct stored records from a consistent store takes out
    exactly their keys. *)
Lemma remove_each_keys (l : list (string * Q)) (s : MemoryNetwork) :
  consistent s -> NoDup (map fst l) ->
  (forall x, x ∈ map fst l -> dict_get x (memories s) <> None) ->
  exists s', for_each l (fun x => _remove_memory x.1) s = (Ok tt, s')
             /\ consistent s'
             /\ dict_keys (memories s')
                = List.filter (fun y => negb (bool_decide (y ∈ map fst l)))
                              (dict_keys (memories s)).
Proof.
  revert s. induction l as [|x l IH]; intros s Hc Hnd Hstored; simpl.
  - exists s. split; [reflexivity|]. split; [exact Hc|].
    symmetry. apply filter_all. intros y _. reflexivity.
  - apply NoDup_cons in Hnd as [Hx Hnd].
    destruct (dict_get x.1 (memories s)) as [m|] eqn:Hm.
    2:{ exfalso. apply (Hstored x.1); [left|exact Hm]. }
    destruct (remove_memory_consistent x.1 m s Hc Hm)
      as (s1 & Hrun & _ & Hc1 & Hfr).
    pose proof (remove_memory_keys x.1 s s1 (co_keys _ Hc) Hrun) as Hkeys.
    unfold bind. rewrite Hrun.
    destruct (IH s1 Hc1 Hnd) as (s' & Hrun' & Hc' & Hkeys').
    + intros x' Hx'. assert (Hne : x' <> x.1) by (intros ->; contradiction).
      pose proof (fr_records _ _ _ Hfr x' Hne) as Hr.
      pose proof (Hstored x' ltac:(now right)) as Hs.
      destruct (dict_get x' (memories s)); [|contradiction].
      destruct (dict_get x' (memories s1)); [discriminate|contradiction].
    + exists s'. split; [exact Hrun'|]. split; [exact Hc'|].
      rewrite Hkeys', Hkeys. apply filter_without.
Qed.

Lemma sublist_List_filter {A} (p : A -> bool) (l : list A) :
  sublist (List.filter p l) l.
Proof.
  induction l as [|x l IH]; simpl; [constructor|].
  destruct (p x); now constructor.
Qed.

Lemma score_leb_total (a b : string * Q) :
  score_leb a b = true \/ score_leb b a = true.
Proof.
  unfold score_leb. rewrite !Qle_bool_iff.
  destruct (Qlt_le_dec a.2 b.2); [left; lra|right; lra].
Qed.

Lemma score_leb_trans (a b c : string * Q) :
  score_leb a b = true -> score_leb b c = true -> score_leb a c = true.
Proof. unfold score_leb. rewrite !Qle_bool_iff. lra. Qed.

Lemma StronglySorted_app_le {A} (R : A -> A -> Prop) (l1 l2 : list A) :
  StronglySorted R (l1 ++ l2) ->
  forall a b, In a l1 -> In b l2 -> R a b.
Proof.
  induction l1 as [|x l1 IH]; intros Hs a b Ha Hb; [contradiction|].
  simpl in Hs. inversion Hs as [|? ? Hl Hx]; subst.
  destruct Ha as [->|Ha]; [|now apply IH].
  rewrite List.Forall_forall in Hx. apply Hx, in_or_app. now right.
Qed.

Lemma NoDup_fst_functional {A B} (l : list (A * B)) (x : A) (a b : B) :
  NoDup (map fst l) -> (x, a) ∈ l -> (x, b) ∈ l -> a = b.
Proof.
  induction l as [|[k v] l IH]; intros Hnd Ha Hb; [inversion Ha|].
  simpl in Hnd. apply NoDup_cons in Hnd as [Hk Hnd].
  apply elem_of_cons in Ha as [Ea|Ha], Hb as [Eb|Hb].
  - congruence.
  - exfalso. apply Hk. apply list_elem_of_fmap. exists (x, b).
    split; [simpl; congruence|exact Hb].
  - exfalso. apply Hk. apply list_elem_of_fmap. exists (x, a).
    split; [simpl; congruence|exact Ha].
  - now apply IH.
Qed.

(** On a consistent store that holds more records than its capacity,
    [_manage_capacity] brings the number of records down to the capacity
    by evicting records of lowest score: no evicted record has a higher
    score than a record that stays. *)
Lemma manage_capacity_lowest (now : datetime) (n : MemoryNetwork)
      (scores : list (string * Q)) :
  consistent n ->
  0 <= capacity n < dict_len (memories n) ->
  memory_scores now (memories n) = Ok scores ->
  exists n',
    _manage_capacity now n = (Ok tt, n')
    /\ consistent n'
    /\ dict_len (memories n') = capacity n
    /\ sublist (dict_keys (memories n')) (dict_keys (memories n))
    /\ forall x sx y sy,
         (x, sx) ∈ scores -> (y, sy) ∈ scores ->
         x ∉ dict_keys (memories n') -> y ∈ dict_keys (memories n') ->
         (sx <= sy)%Q.
Proof.
  intros Hc [Hcap Hover] Hs.
  pose proof (memory_scores_keys _ _ _ Hs) as Hkeys.
  pose proof (memory_scores_length _ _ _ Hs) as Hlen.
  unfold _manage_capacity. unfold bind at 1, get.
  destruct (Z.ltb_spec (capacity n) (dict_len (memories n))); [|lia].
  unfold bind at 1, lift. rewrite Hs.
  set (sorted := stable_sort score_leb scores).
  set (k := Z.to_nat (dict_len (memories n) - capacity n)).
  assert (Hperm : sorted ≡ₚ scores) by apply stable_sort_perm.
  assert (Hnd : NoDup (map fst sorted)).
  { rewrite Hperm, Hkeys. apply Hc. }
  destruct (remove_each_keys (take k sorted) n Hc) as (n' & Hrun & Hc' & Hk').
  { rewrite <- firstn_map. eapply sublist_NoDup; [exact Hnd|apply sublist_take]. }
  { intros x Hx. rewrite <- firstn_map in Hx.
    apply dict_get_in_keys. rewrite <- Hkeys. apply list_elem_of_In.
    rewrite <- Hperm. eapply elem_of_sublist; [exact Hx|apply sublist_take]. }
  exists n'. split; [exact Hrun|]. split; [exact Hc'|]. split; [|split].
  - apply remove_each_ok in Hrun as [Hl _].
    rewrite length_take in Hl. unfold sorted in Hl.
    rewrite stable_sort_length, Hlen in Hl. unfold dict_len in *. lia.
  - rewrite Hk'. apply sublist_List_filter.
  - intros x sx y sy Hx Hy Hgone Hkept.
    assert (Hsorted : StronglySorted (fun a b => score_leb a b = true)
                        (take k sorted ++ drop k sorted)).
    { rewrite take_drop. apply stable_sort_sorted;
        [apply score_leb_total|apply score_leb_trans]. }
    assert (Hxin : (x, sx) ∈ take k sorted).
    { assert (Hxk : x ∈ map fst (take k sorted)).
      { destruct (decide (x ∈ map fst (take k sorted))) as [Hin|Hout];
          [exact Hin|exfalso].
        apply Hgone. rewrite Hk'. apply list_elem_of_In, filter_In. split.
        - rewrite <- Hkeys. apply in_map_iff. exists (x, sx).
          split; [reflexivity|now apply list_elem_of_In].
        - now rewrite bool_decide_eq_false_2. }
      apply list_elem_of_fmap in Hxk as ([x' sx'] & -> & Hin). simpl in *.
      assert (sx' = sx); [|now subst].
      apply (NoDup_fst_functional sorted x' _ _ Hnd).
      - eapply elem_of_sublist; [exact Hin|apply sublist_take].
      - now rewrite Hperm. }
    assert (Hyin : (y, sy) ∈ drop k sorted).
    { assert (Hy' : (y, sy) ∈ take k sorted ++ drop k sorted)
        by (rewrite take_drop, Hperm; exact Hy).
      apply elem_of_app in Hy' as [Hy'|Hy']; [exfalso|exact Hy'].
      rewrite Hk' in Hkept. apply list_elem_of_In, filter_In in Hkept.
      destruct Hkept as [_ Hout]. apply negb_true_iff in Hout.
      apply bool_decide_eq_false in Hout. apply Hout.
      apply list_elem_of_fmap. now exists (y, sy). }
    pose proof (StronglySorted_app_le _ _ _ Hsorted (x, sx) (y, sy)) as Hle.
    unfold score_leb in Hle. simpl in Hle. apply Qle_bool_iff, Hle;
      now apply list_elem_of_In.
Qed.

(** On a consistent store that holds more records than its capacity (zero
    or more), [_manage_capacity] returns when the scores can be computed,
    leaves exactly as many records as the capacity, in their order, and
    evicts records of lowest score: no evicted record has a higher score
    than a record that stays. *)
Theorem manage_capacity_evicts_lowest_scores
        (now : datetime) (n : MemoryNetwork) (scores : list (string * Q)) :
  consistent n ->
  0 <= capacity n < dict_len (memories n) ->
  memory_scores now (memories n) = Ok scores ->
  exists n',
    _manage_capacity now n = (Ok tt, n')
    /\ consistent n'
    /\ dict_len (memories n') = capacity n
    /\ sublist (dict_keys (memories n')) (dict_keys (memories n))
    /\ forall x sx y sy,
         (x, sx) ∈ scores -> (y, sy) ∈ scores ->
         x ∉ dict_keys (memories n') -> y ∈ dict_keys (memories n') ->
         (sx <= sy)%Q.
Proof. apply manage_capacity_lowest. Qed.

Lemma overfull_store_reachable : reachable overfull_store.
Proof.
  replace overfull_store
    with (store_memory sample_now bare_reminder
            (store_memory sample_now bare_note (MemoryNetwork_init 1)).2).2
    by (vm_compute; reflexivity).
  repeat (apply reach_store; [|reflexivity|vm_compute; reflexivity]).
  apply reach_init.
Qed.

Lemma manage_capacity_evicts_lowest_scores_witness :
  exists n',
    _manage_capacity sample_now overfull_store = (Ok tt, n')
    /\ consistent n'
    /\ dict_len (memories n') = capacity overfull_store
    /\ sublist (dict_keys (memories n')) (dict_keys (memories overfull_store))
    /\ forall x sx y sy,
         (x, sx) ∈ returned_value
                     (memory_scores sample_now (memories overfull_store)) ->
         (y, sy) ∈ returned_value
                     (memory_scores sample_now (memories overfull_store)) ->
         x ∉ dict_keys (memories n') -> y ∈ dict_keys (memories n') ->
         (sx <= sy)%Q.
Proof.
  apply (manage_capacity_evicts_lowest_scores sample_now overfull_store).
  - apply reachable_consistent. exact overfull_store_reachable.
  - vm_compute. split; [discriminate|reflexivity].
  - vm_compute. reflexivity.
Defined.

(** ** Which records a new record is associated with *)

Lemma up_to_associations_facts (m m' : MemoryTrace) :
  up_to_associations m m' -> same_facts m m'.
Proof. intros ->. repeat split. Qed.

Lemma strong_up_to_associations (memory m m' : MemoryTrace) :
  up_to_associations m m' -> (strong memory m' <-> strong memory m).
Proof.
  intros Hu. unfold strong.
  rewrite (strength_same_facts memory memory m m' (same_facts_refl memory)
             (up_to_associations_facts m m' Hu)).
  reflexivity.
Qed.

(** A round of [_create_associations] that returns has linked the two
    records when the peer is another stored record that is strong with the
    new one, and has otherwise left the store as it is. *)
Lemma associate_with_ok (i y : string) (memory : MemoryTrace)
      (s s1 : MemoryNetwork) :
  associate_with i memory y s = (Ok tt, s1) ->
  (s1 = s /\ ~ (y <> i /\ exists my, dict_get y (memories s) = Some my
                                     /\ strong memory my))
  \/ (exists my v, y <> i /\ dict_get y (memories s) = Some my
                   /\ _calculate_association_strength memory my = Ok v
                   /\ Qgtb v (3 # 10) = true /\ s1 = link i y v s).
Proof.
  destruct (String.eqb_spec y i) as [->|Hne].
  { unfold associate_with. rewrite String.eqb_refl. intros [= <-].
    left. split; [reflexivity|]. intros [Hc _]. now apply Hc. }
  destruct (dict_get y (memories s)) as [my|] eqn:Hy.
  2:{ unfold associate_with, bind, get. apply String.eqb_neq in Hne.
      rewrite Hne, Hy. intros [= <-]. left. split; [reflexivity|].
      intros (_ & my & Hmy & _). discriminate. }
  destruct (_calculate_association_strength memory my) as [v|e] eqn:Hv.
  2:{ unfold associate_with, bind, get, lift. apply String.eqb_neq in Hne.
      rewrite Hne, Hy, Hv. discriminate. }
  destruct (Qgtb v (3 # 10)) eqn:Hg.
  - rewrite (associate_with_link i y memory my v s);
      [|now apply String.eqb_neq|exact Hy|exact Hv|exact Hg].
    intros [= <-]. right. exists my, v. auto 6.
  - unfold associate_with, bind, get, lift. pose proof Hne as Hne'.
    apply String.eqb_neq in Hne'. rewrite Hne', Hy, Hv, Hg.
    intros [= <-]. left. split; [reflexivity|].
    intros (_ & my' & [= <-] & v' & Hv' & Hg'). congruence.
Qed.

Lemma link_up_to_associations (i y : string) (v : Q) (s : MemoryNetwork)
      (z : string) :
  y <> i ->
  match dict_get z (memories s), dict_get z (memories (link i y v s)) with
  | Some mz, Some mz' =>
      up_to_associations mz mz'
      /\ associations mz' = associations mz ++ link_extra i y z
  | None, None => True
  | _, _ => False
  end.
Proof.
  intros Hne. unfold link, append_association, link_extra. simpl.
  rewrite !dict_get_update.
  destruct (dict_get z (memories s)) as [mz|];
    [|now destruct (String.eqb z y), (String.eqb z i)].
  destruct (String.eqb z y) eqn:Ey, (String.eqb z i) eqn:Ei; simpl;
    (split; [unfold up_to_associations; now destruct mz|]);
    rewrite ?app_nil_r; try reflexivity.
  apply String.eqb_eq in Ey, Ei. congruence.
Qed.

Lemma linked_by_nil (i : string) (memory : MemoryTrace) (s : MemoryNetwork) :
  linked_by i memory [] s s.
Proof.
  intros z. destruct (dict_get z (memories s)) as [mz|]; [|exact I].
  split; [apply up_to_associations_refl|]. intros w. split; [now left|].
  intros [Hw|[(_ & Hw & _)|(_ & Hz & _)]]; [exact Hw|inversion Hw|inversion Hz].
Qed.

(** The loop of [_create_associations], when it runs to its end. *)
Lemma create_loop_linked (i : string) (memory : MemoryTrace)
      (l : list string) (s s' : MemoryNetwork) :
  for_each l (associate_with i memory) s = (Ok tt, s') ->
  linked_by i memory l s s'.
Proof.
  revert s. induction l as [|y l IH]; intros s.
  { intros [= <-]. apply linked_by_nil. }
  simpl. unfold bind.
  destruct (associate_with i memory y s) as [[[]|e] s1] eqn:Hy; [|discriminate].
  intros Hrest. specialize (IH s1 Hrest).
  apply associate_with_ok in Hy
    as [[-> Hnot]|(my & v & Hne & Hmy & Hv & Hg & ->)].
  - (* the round changed nothing *)
    intros z. specialize (IH z).
    destruct (dict_get z (memories s)) as [mz|] eqn:Hz,
      (dict_get z (memories s')) as [mz'|]; try contradiction; [|exact I].
    destruct IH as [Hu IH]. split; [exact Hu|]. intros w. rewrite IH.
    split.
    + intros [Hw|[(-> & Hw & Hwi & Hmw)|(-> & Hzl & Hzi & Hs)]];
        [now left|right; left|right; right];
        (split; [reflexivity|]); (split; [now right|auto]).
    + intros [Hw|[(-> & Hw & Hwi & mw & Hmw & Hs)|(-> & Hzl & Hzi & Hs)]];
        [now left|right; left|right; right].
      * apply elem_of_cons in Hw as [->|Hw]; [exfalso; apply Hnot; eauto|].
        split; [reflexivity|]. split; [exact Hw|]. eauto.
      * apply elem_of_cons in Hzl as [->|Hzl]; [exfalso; apply Hnot; eauto|].
        auto.
  - (* the round linked [i] and [y] *)
    assert (Hstrong : strong memory my) by (exists v; auto).
    intros z. specialize (IH z).
    pose proof (link_up_to_associations i y v s z Hne) as Hl.
    destruct (dict_get z (memories s)) as [mz|] eqn:Hz,
      (dict_get z (memories (link i y v s))) as [mz1|] eqn:Hz1;
      try contradiction; [|destruct (dict_get z (memories s')); exact IH].
    destruct (dict_get z (memories s')) as [mz'|]; [|contradiction].
    destruct Hl as [Hu1 Hl]. destruct IH as [Hu IH].
    split; [eapply up_to_associations_trans; eauto|].
    assert (Hpeer : forall w,
              (exists mw, dict_get w (memories (link i y v s)) = Some mw
                          /\ strong memory mw)
              <-> (exists mw, dict_get w (memories s) = Some mw
                              /\ strong memory mw)).
    { intros w. pose proof (link_up_to_associations i y v s w Hne) as Hlw.
      destruct (dict_get w (memories s)) as [mw|],
        (dict_get w (memories (link i y v s))) as [mw1|];
        try contradiction.
      - destruct Hlw as [Huw _]. split; intros (m0 & [= <-] & Hs0);
          eexists; (split; [reflexivity|]);
          now apply (strong_up_to_associations memory mw mw1 Huw).
      - split; intros (m0 & Hm0 & _); discriminate. }
    intros w. rewrite IH, Hl, elem_of_app, elem_of_link_extra, Hpeer.
    rewrite (strong_up_to_associations memory mz mz1 Hu1).
    split.
    + intros [[Hw|[[-> ->]|[-> ->]]]|[(-> & Hw & Hwi & Hmw)
                                     |(-> & Hzl & Hzi & Hs)]].
      * now left.
      * right; left. split; [reflexivity|]. split; [left|]. eauto.
      * right; right. split; [reflexivity|]. split; [left|].
        split; [exact Hne|]. assert (mz = my) by congruence. now subst.
      * right; left. split; [reflexivity|]. split; [now right|]. auto.
      * right; right. split; [reflexivity|]. split; [now right|]. auto.
    + intros [Hw|[(-> & Hw & Hwi & Hmw)|(-> & Hzl & Hzi & Hs)]].
      * now left; left.
      * apply elem_of_cons in Hw as [->|Hw]; [left; right; left; auto|].
        right; left. auto.
      * apply elem_of_cons in Hzl as [->|Hzl]; [left; right; right; auto|].
        right; right. auto.
Qed.

Lemma create_loop_other_strengths (i : string) (memory : MemoryTrace)
      (l : list string) (s : MemoryNetwork) (a b : string) :
  a <> i -> b <> i ->
  association_strength (for_each l (associate_with i memory) s).2 !! (a, b)
  = association_strength s !! (a, b).
Proof.
  intros Ha Hb. revert s. induction l as [|y l IH]; intros s; [reflexivity|].
  simpl. unfold bind.
  destruct (associate_with_cases i y memory s)
    as [Hsame|(other & v & Hne & Hget & Hrun)].
  - destruct (associate_with i memory y s) as [[[]|e] s1]; simpl in Hsame;
      subst s1; [apply IH|reflexivity].
  - rewrite Hrun, IH. unfold link. simpl.
    rewrite !lookup_insert_ne by congruence. reflexivity.
Qed.

(** A call of [store_memory] that returns from a store with room has run
    the loop of [_create_associations] to its end and evicted nothing. *)
Lemma store_memory_with_room_loop
      `{StringHash} (now : datetime) (memory : MemoryTrace)
      (n n' : MemoryNetwork) (i memory_id : string) :
  dict_len (memories n) < capacity n ->
  i = memory_id_of n memory ->
  store_memory now memory n = (Ok memory_id, n') ->
  memory_id = i
  /\ for_each (dict_keys (dict_set i memory (memories n)))
              (associate_with i memory)
              (_update_indices i memory
                 (set_memories (dict_set i memory (memories n)) n)).2
     = (Ok tt, n').
Proof.
  intros Hroom Hi. unfold store_memory.
  unfold bind at 1, get. rewrite <- Hi.
  unfold bind at 1, modify at 1.
  set (n1 := set_memories (dict_set i memory (memories n)) n).
  destruct (update_indices_indexed i memory n1) as (Ho & Hm2 & Hc2 & _).
  unfold bind at 1.
  destruct (_update_indices i memory n1) as [o n2]; simpl in Ho, Hm2, Hc2.
  subst o. unfold bind at 1.
  unfold _create_associations. unfold bind at 1, get.
  rewrite Hm2. simpl snd.
  assert (He : same_entries n2
                 (for_each (dict_keys (dict_set i memory (memories n)))
                           (associate_with i memory) n2).2).
  { apply steps_for_each; [typeclasses eauto|].
    intros y. apply same_entries_associate_with. }
  destruct (for_each (dict_keys (dict_set i memory (memories n)))
              (associate_with i memory) n2) as [[[]|e] n3]; [|discriminate].
  simpl in He. unfold bind at 1.
  assert (Hfit : (capacity n3 <? dict_len (memories n3)) = false).
  { apply Z.ltb_ge. pose proof (same_entries_keys n2 n3 He) as Hk.
    destruct He as (_ & _ & Hc3).
    rewrite Hc3, Hc2. unfold dict_len in *.
    rewrite <- (length_map fst (memories n3)).
    change (map fst (memories n3)) with (dict_keys (memories n3)).
    rewrite Hk. unfold dict_keys. rewrite length_map, Hm2.
    pose proof (dict_set_length i memory (memories n)). lia. }
  unfold _manage_capacity. unfold bind at 1, get. rewrite Hfit.
  unfold ret. intros [= <- <-]. auto.
Qed.

(** In a store reached without identifier reuse and with room, a call of
    [store_memory] under a new identifier that returns has associated the
    new record with exactly the stored records whose strength with it is
    above 0.3: these are its associations, each of them has gained the new
    identifier, the strength of each pair is stored in both directions, and
    the other strengths are as before. *)
Theorem store_memory_associates_strong_peers
        `{StringHash} (now : datetime) (memory : MemoryTrace)
        (n n' : MemoryNetwork) (memory_id : string) :
  reachable n ->
  dict_len (memories n) < capacity n ->
  dict_get (memory_id_of n memory) (memories n) = None ->
  associations memory = [] ->
  store_memory now memory n = (Ok memory_id, n') ->
  (exists l,
     dict_get memory_id (memories n') = Some (set_associations l memory)
     /\ forall y, y ∈ l <-> exists my, dict_get y (memories n) = Some my
                                       /\ strong memory my)
  /\ (forall y my, dict_get y (memories n) = Some my ->
        exists l,
          dict_get y (memories n') = Some (set_associations l my)
          /\ forall w, w ∈ l <-> w ∈ associations my
                                 \/ (w = memory_id /\ strong memory my))
  /\ (forall y my v,
        dict_get y (memories n) = Some my ->
        _calculate_association_strength memory my = Ok v ->
        Qgtb v (3 # 10) = true ->
        association_strength n' !! (memory_id, y) = Some v
        /\ association_strength n' !! (y, memory_id) = Some v)
  /\ (forall a b, a <> memory_id -> b <> memory_id ->
        association_strength n' !! (a, b) = association_strength n !! (a, b)).
Proof.
  intros Hr Hroom Hfresh Hnil Hrun.
  assert (Hr' : reachable n').
  { replace n' with (store_memory now memory n).2 by now rewrite Hrun.
    now apply reach_store. }
  destruct (store_memory_with_room_loop now memory n n' _ memory_id
              Hroom eq_refl Hrun) as [-> Hloop].
  set (i := memory_id_of n memory) in *.
  set (n2 := (_update_indices i memory
                (set_memories (dict_set i memory (memories n)) n)).2) in *.
  assert (Hm2 : memories n2 = dict_set i memory (memories n)) by reflexivity.
  assert (Hs2 : association_strength n2 = association_strength n)
    by reflexivity.
  pose proof (create_loop_linked i memory _ n2 n' Hloop) as Hlink.
  assert (Hold : forall y my, dict_get y (memories n) = Some my ->
                   y <> i /\ dict_get y (memories n2) = Some my).
  { intros y my Hy. assert (Hne : y <> i) by congruence.
    split; [exact Hne|]. rewrite Hm2, dict_get_set.
    apply String.eqb_neq in Hne. now rewrite Hne. }
  assert (Hself : dict_get i (memories n2) = Some memory).
  { rewrite Hm2, dict_get_set. now rewrite String.eqb_refl. }
  assert (Hnew : exists l,
            dict_get i (memories n') = Some (set_associations l memory)
            /\ forall y, y ∈ l <-> exists my, dict_get y (memories n) = Some my
                                              /\ strong memory my).
  { pose proof (Hlink i) as Hi. rewrite Hself in Hi.
    destruct (dict_get i (memories n')) as [mi'|]; [|contradiction].
    destruct Hi as [Hu Hw]. exists (associations mi').
    split; [f_equal; exact Hu|]. intros y. rewrite Hw, Hnil. split.
    - intros [Hin|[(_ & Hy & Hne & my & Hmy & Hs)|(-> & _ & Hc & _)]];
        [inversion Hin| |contradiction].
      exists my. split; [|exact Hs].
      rewrite Hm2, dict_get_set in Hmy. apply String.eqb_neq in Hne.
      now rewrite Hne in Hmy.
    - intros (my & Hmy & Hs). destruct (Hold y my Hmy) as [Hne Hmy2].
      right; left. split; [reflexivity|]. split; [|eauto].
      apply list_elem_of_In, dict_get_in_keys.
      rewrite <- Hm2. congruence. }
  assert (Hpeers : forall y my, dict_get y (memories n) = Some my ->
            exists l,
              dict_get y (memories n') = Some (set_associations l my)
              /\ forall w, w ∈ l <-> w ∈ associations my
                                     \/ (w = i /\ strong memory my)).
  { intros y my Hy. destruct (Hold y my Hy) as [Hne Hy2].
    pose proof (Hlink y) as Hl. rewrite Hy2 in Hl.
    destruct (dict_get y (memories n')) as [my'|]; [|contradiction].
    destruct Hl as [Hu Hw]. exists (associations my').
    split; [f_equal; exact Hu|]. intros w. rewrite Hw. split.
    - intros [Hin|[(-> & _)|(-> & _ & _ & Hs)]]; [now left|contradiction|].
      now right.
    - intros [Hin|[-> Hs]]; [now left|]. right; right.
      split; [reflexivity|]. split; [|auto].
      apply list_elem_of_In, dict_get_in_keys. rewrite <- Hm2. congruence. }
  split; [exact Hnew|]. split; [exact Hpeers|]. split.
  - intros y my v Hy Hv Hg. destruct Hnew as (l & Hi' & Hl).
    assert (Hin : y ∈ l) by (apply Hl; exists my; split; [exact Hy|exists v; auto]).
    destruct (Hpeers y my Hy) as (ly & Hy' & _).
    pose proof (reachable_consistent n' Hr') as Hc'.
    destruct (association_strength_stored n' i y _ Hc'
                (rated_reachable n' Hr') Hi' Hin)
      as (my' & v' & Hmy' & Hv' & Hcalc & _).
    assert (my' = set_associations ly my) by congruence. subst my'.
    assert (Hsame : _calculate_association_strength
                      (set_associations l memory) (set_associations ly my)
                    = _calculate_association_strength memory my)
      by (apply strength_same_facts; repeat split).
    rewrite Hsame, Hv in Hcalc. injection Hcalc as <-.
    split; [exact Hv'|]. now rewrite <- (co_strength_sym _ Hc' i y).
  - intros a b Ha Hb.
    replace n' with (for_each (dict_keys (dict_set i memory (memories n)))
                              (associate_with i memory) n2).2
      by now rewrite Hloop.
    rewrite create_loop_other_strengths by assumption. now rewrite Hs2.
Qed.

Lemma store_memory_associates_strong_peers_witness :
  let n' := (store_memory sample_now followup sample_store).2 in
  (exists l,
     dict_get "mem_3_99" (memories n') = Some (set_associations l followup)
     /\ forall y, y ∈ l <-> exists my, dict_get y (memories sample_store) = Some my
                                       /\ strong followup my)
  /\ (forall y my, dict_get y (memories sample_store) = Some my ->
        exists l,
          dict_get y (memories n') = Some (set_associations l my)
          /\ forall w, w ∈ l <-> w ∈ associations my
                                 \/ (w = "mem_3_99"%string /\ strong followup my))
  /\ (forall y my v,
        dict_get y (memories sample_store) = Some my ->
        _calculate_association_strength followup my = Ok v ->
        Qgtb v (3 # 10) = true ->
        association_strength n' !! ("mem_3_99"%string, y) = Some v
        /\ association_strength n' !! (y, "mem_3_99"%string) = Some v)
  /\ (forall a b, a <> "mem_3_99"%string -> b <> "mem_3_99"%string ->
        association_strength n' !! (a, b)
        = association_strength sample_store !! (a, b)).
Proof.
  apply (store_memory_associates_strong_peers sample_now followup sample_store).
  - exact sample_store_reachable.
  - vm_compute. reflexivity.
  - vm_compute. reflexivity.
  - reflexivity.
  - apply run_eta. vm_compute. reflexivity.
Defined.

(** ** What an eviction leaves alone *)

#[local] Instance kept_apart_from_preorder (x : string) :
  PreOrder (kept_apart_from x).
Proof.
  split.
  - intros n y m _ Hm. exists (associations m). rewrite Hm. now destruct m.
  - intros a b c Hab Hbc y m Hy Hm.
    destruct (Hab y m Hy Hm) as (l & Hl).
    destruct (Hbc y _ Hy Hl) as (l' & Hl'). exists l'. now rewrite Hl'.
Qed.

(** A step that leaves [self.memories] alone keeps every record. *)
Lemma kept_apart_from_same_memories (x : string) (n n' : MemoryNetwork) :
  memories n' = memories n -> kept_apart_from x n n'.
Proof.
  intros Heq y m _ Hm. exists (associations m). rewrite Heq, Hm.
  now destruct m.
Qed.

Lemma kept_del_strength (x : string) (key : string * string) :
  steps (kept_apart_from x) (del_strength key).
Proof.
  unfold del_strength. apply steps_get. intros n.
  destruct (decide _); [|steps_leaf].
  apply steps_modify. intros n0. now apply kept_apart_from_same_memories.
Qed.

Lemma kept_unlink (x y : string) : steps (kept_apart_from x) (unlink x y).
Proof.
  intros n. unfold unlink, bind at 1, get.
  destruct (dict_get y (memories n)) as [other|] eqn:Ho; [|reflexivity].
  destruct (list_remove x (associations other)) as [l|] eqn:Hl; [|reflexivity].
  unfold bind at 1, modify at 1.
  etransitivity;
    [|apply (steps_bind (kept_apart_from x));
      [apply kept_del_strength|intros _; apply kept_del_strength]].
  intros z m _ Hm. simpl. rewrite dict_get_update, Hm.
  destruct (String.eqb z y); simpl.
  - exists l. reflexivity.
  - exists (associations m). now destruct m.
Qed.

Lemma kept_remove_associations (x : string) (fuel i : nat) :
  steps (kept_apart_from x) (remove_associations fuel i x).
Proof.
  revert i. induction fuel as [|fuel IH]; intros i; simpl; [steps_leaf|].
  apply steps_get. intros n.
  destruct (dict_get x (memories n)); [|steps_leaf].
  destruct (associations m !! i) as [y|]; [|steps_leaf].
  steps_seq; [apply kept_unlink|intros _; apply IH].
Qed.

(** An eviction, whether it returns or raises, leaves every record stored
    under another identifier as it is, apart from its association list. *)
Lemma kept_remove_memory (x : string) :
  steps (kept_apart_from x) (_remove_memory x).
Proof.
  unfold _remove_memory. apply steps_get. intros n.
  destruct (dict_get x (memories n)) as [m|]; [|steps_leaf].
  do 4 (steps_seq;
        [apply steps_modify; intros n0;
         now apply kept_apart_from_same_memories|intros _]).
  steps_seq; [apply kept_remove_associations|].
  intros _. apply steps_modify. intros n0 y my Hy Hmy. simpl.
  rewrite dict_get_del_ne by exact Hy. exists (associations my).
  rewrite Hmy. now destruct my.
Qed.

(** In a store reached without identifier reuse, evicting a stored record
    takes its key out of the dictionary and leaves every other record as
    it is, usage counters included, with its association list without the
    evicted identifier; strengths of pairs without the evicted identifier
    and index entries of other identifiers are as before. *)
Theorem eviction_leaves_other_records
        `{StringHash} (n : MemoryNetwork) (x : string) :
  reachable n ->
  In x (dict_keys (memories n)) ->
  exists n',
    _remove_memory x n = (Ok tt, n')
    /\ dict_keys (memories n') = without x (dict_keys (memories n))
    /\ (forall y m, y <> x -> dict_get y (memories n) = Some m ->
          dict_get y (memories n')
          = Some (set_associations (without x (associations m)) m))
    /\ (forall a b, a <> x -> b <> x ->
          association_strength n' !! (a, b) = association_strength n !! (a, b))
    /\ (forall z, z <> x ->
          (forall k, z ∈ dd_bucket k (context_index n')
                     <-> z ∈ dd_bucket k (context_index n))
          /\ (forall k, z ∈ dd_bucket k (temporal_index n')
                        <-> z ∈ dd_bucket k (temporal_index n))
          /\ (forall k, z ∈ dd_bucket k (emotional_index n')
                        <-> z ∈ dd_bucket k (emotional_index n))
          /\ (forall k, z ∈ dd_bucket k (tag_index n')
                        <-> z ∈ dd_bucket k (tag_index n))).
Proof.
  intros Hr Hx. apply reachable_consistent in Hr.
  apply dict_get_in_keys in Hx.
  destruct (dict_get x (memories n)) as [m|] eqn:Hm; [|contradiction].
  destruct (remove_memory_consistent x m n Hr Hm)
    as (n' & Hrun & Hfg & _ & Hfr).
  pose proof (kept_remove_memory x n) as Hkept. rewrite Hrun in Hkept.
  cbn [snd] in Hkept.
  exists n'. split; [exact Hrun|].
  split; [exact (remove_memory_keys x n n' (co_keys _ Hr) Hrun)|].
  split; [|split; [exact (fr_strength _ _ _ Hfr)|]].
  - intros y my Hy Hmy. pose proof (fr_records _ _ _ Hfr y Hy) as Hrec.
    destruct (Hkept y my Hy Hmy) as (l & Hl).
    rewrite Hmy, Hl in Hrec. destruct Hrec as [_ Hw]. simpl in Hw.
    rewrite Hl. do 2 f_equal. rewrite <- Hw. symmetry. apply without_absent.
    destruct Hfg as (_ & _ & _ & _ & _ & Hgone & _).
    apply (Hgone y (set_associations l my) Hl).
  - intros z Hz. repeat split; intros Hin;
      first [ now apply (fr_context _ _ _ Hfr k z Hz)
            | now apply (fr_temporal _ _ _ Hfr k z Hz)
            | now apply (fr_emotional _ _ _ Hfr k z Hz)
            | now apply (fr_tag _ _ _ Hfr k z Hz) ].
Qed.

Lemma eviction_leaves_other_records_witness :
  exists n',
    _remove_memory "mem_0_98" queried_store = (Ok tt, n')
    /\ dict_keys (memories n')
       = without "mem_0_98" (dict_keys (memories queried_store))
    /\ (forall y m, y <> "mem_0_98"%string ->
          dict_get y (memories queried_store) = Some m ->
          dict_get y (memories n')
          = Some (set_associations (without "mem_0_98" (associations m)) m))
    /\ (forall a b, a <> "mem_0_98"%string -> b <> "mem_0_98"%string ->
          association_strength n' !! (a, b)
          = association_strength queried_store !! (a, b))
    /\ (forall z, z <> "mem_0_98"%string ->
          (forall k, z ∈ dd_bucket k (context_index n')
                     <-> z ∈ dd_bucket k (context_index queried_store))
          /\ (forall k, z ∈ dd_bucket k (temporal_index n')
                        <-> z ∈ dd_bucket k (temporal_index queried_store))
          /\ (forall k, z ∈ dd_bucket k (emotional_index n')
                        <-> z ∈ dd_bucket k (emotional_index queried_store))
          /\ (forall k, z ∈ dd_bucket k (tag_index n')
                        <-> z ∈ dd_bucket k (tag_index queried_store))).
Proof.
  apply (eviction_leaves_other_records queried_store "mem_0_98");
    [apply reach_query, sample_store_reachable|vm_compute; auto].
Defined.

(** ** When storing returns *)

Lemma eviction_score_scorable (now : datetime) (m : MemoryTrace) :
  scorable now m -> exists score, eviction_score now m = Ok score.
Proof.
  intros Hs. unfold eviction_score, py_div.
  destruct (Qeq_bool (1 + total_seconds_between now (timestamp m)) 0) eqn:E.
  - exfalso. apply Hs. apply Qeq_bool_iff in E. lra.
  - eexists. reflexivity.
Qed.

Lemma memory_scores_scorable (now : datetime)
      (ms : list (string * MemoryTrace)) :
  Forall (fun im => scorable now im.2) ms ->
  exists scores, memory_scores now ms = Ok scores.
Proof.
  induction 1 as [|[x m] ms Hm _ [scores IH]]; [now exists []|].
  cbn [memory_scores]. destruct (eviction_score_scorable now m Hm) as [v ->].
  cbn [outcome_bind]. rewrite IH. cbn [outcome_bind]. eexists. reflexivity.
Qed.

Lemma dict_set_Forall {V} (P : string * V -> Prop) (i : string) (v : V)
      (d : list (string * V)) :
  (forall k, P (k, v)) -> Forall P d -> Forall P (dict_set i v d).
Proof.
  intros Hv. induction 1 as [|[k w] d Hk Hd IH]; simpl.
  - constructor; [apply Hv|constructor].
  - destruct (String.eqb i k); constructor; auto.
Qed.

Lemma same_entries_scorable (now : datetime) (s s' : MemoryNetwork) :
  same_entries s s' ->
  Forall (fun im => scorable now im.2) (memories s) ->
  Forall (fun im => scorable now im.2) (memories s').
Proof.
  intros (Hm & _). induction Hm as [|a b l l' (_ & Hu) _ IH];
    intros Hall; [constructor|].
  apply Forall_cons in Hall as [Ha Hall]. constructor; [|now apply IH].
  unfold scorable in *. now rewrite Hu.
Qed.

(** In a store reached without identifier reuse, [store_memory] of a record
    without associations under a new identifier returns that identifier
    unless the new record and a stored one both have an empty context, or
    a record is dated exactly one second after the clock reading. *)
Lemma store_memory_total `{StringHash} (now : datetime)
      (memory : MemoryTrace) (n : MemoryNetwork) :
  consistent n ->
  dict_get (memory_id_of n memory) (memories n) = None ->
  associations memory = [] ->
  ~ (context memory = ∅ /\ empty_context_peer (memory_id_of n memory) n) ->
  scorable now memory ->
  Forall (fun im => scorable now im.2) (memories n) ->
  exists n', store_memory now memory n = (Ok (memory_id_of n memory), n').
Proof.
  intros Hc Hfresh Hnil Hclash Hsm Hsn. unfold store_memory.
  unfold bind at 1, get.
  set (i := memory_id_of n memory) in *.
  unfold bind at 1, modify at 1.
  set (n1 := set_memories (dict_set i memory (memories n)) n).
  pose proof (consistent_insert i memory n Hc Hfresh Hnil) as Hc2.
  destruct (update_indices_indexed i memory n1) as (Ho & Hm2 & _ & _).
  fold n1 in Hc2. unfold bind at 1.
  destruct (_update_indices i memory n1) as [o n2]; simpl in Ho, Hm2, Hc2.
  subst o. unfold bind at 1.
  unfold _create_associations. unfold bind at 1, get.
  pose proof (create_loop_outcome i memory (dict_keys (memories n2)) n2)
    as Hout.
  assert (Hno : existsb (clash_at i memory n2) (dict_keys (memories n2))
                = false).
  { destruct (existsb _ _) eqn:E; [|reflexivity]. exfalso. apply Hclash.
    apply (existsb_clash_peer i memory n n2); [|exact E].
    intros y Hy. rewrite Hm2. simpl. rewrite dict_get_set.
    apply String.eqb_neq in Hy. now rewrite Hy. }
  rewrite Hno in Hout.
  assert (He : same_entries n2
                 (for_each (dict_keys (memories n2))
                           (associate_with i memory) n2).2).
  { apply steps_for_each; [typeclasses eauto|].
    intros y. apply same_entries_associate_with. }
  assert (Hc3 : consistent (for_each (dict_keys (memories n2))
                                     (associate_with i memory) n2).2).
  { apply consistent_create_loop; [exact Hc2|apply Hc2|].
    exists memory. split.
    - rewrite Hm2. simpl. rewrite dict_get_set. now rewrite String.eqb_refl.
    - intros y _. rewrite Hnil. apply not_elem_of_nil. }
  destruct (for_each (dict_keys (memories n2)) (associate_with i memory) n2)
    as [o3 n3]; simpl in Hout, He, Hc3. subst o3.
  unfold bind at 1. unfold _manage_capacity. unfold bind at 1, get.
  destruct (capacity n3 <? dict_len (memories n3)); [|eexists; reflexivity].
  assert (Hs3 : Forall (fun im => scorable now im.2) (memories n3)).
  { apply (same_entries_scorable now n2 n3 He). rewrite Hm2. simpl.
    apply dict_set_Forall; [intros k; exact Hsm|exact Hsn]. }
  destruct (memory_scores_scorable now (memories n3) Hs3) as [scores Hscores].
  unfold bind at 1, lift. rewrite Hscores.
  pose proof (memory_scores_keys _ _ _ Hscores) as Hkeys.
  match goal with
  | |- context [for_each ?l _ n3] =>
      destruct (remove_each_consistent l n3 Hc3) as (s' & Hrun & _)
  end.
  - rewrite <- firstn_map.
    eapply sublist_NoDup; [|apply sublist_take].
    rewrite (stable_sort_perm score_leb scores), Hkeys. apply Hc3.
  - intros x Hx. rewrite <- firstn_map in Hx.
    apply dict_get_in_keys. rewrite <- Hkeys.
    apply list_elem_of_In.
    rewrite <- (stable_sort_perm score_leb scores).
    eapply elem_of_sublist; [exact Hx|]. apply sublist_take.
  - rewrite Hrun. eexists. reflexivity.
Qed.

(** In a store reached without identifier reuse, [store_memory] of a record
    without associations under a new identifier returns that identifier
    unless the new record and a stored one both have an empty context, or
    a record is dated exactly one second after the clock reading: index
    updates, associations and evictions raise nothing else. *)
Theorem store_memory_returns_unless_zero_division
        `{StringHash} (now : datetime) (memory : MemoryTrace)
        (n : MemoryNetwork) :
  reachable n ->
  dict_get (memory_id_of n memory) (memories n) = None ->
  associations memory = [] ->
  ~ (context memory = ∅ /\ empty_context_peer (memory_id_of n memory) n) ->
  scorable now memory ->
  Forall (fun im => scorable now im.2) (memories n) ->
  exists n', store_memory now memory n = (Ok (memory_id_of n memory), n').
Proof.
  intros Hr. apply store_memory_total. now apply reachable_consistent.
Qed.

Lemma store_memory_returns_unless_zero_division_witness :
  exists n',
    store_memory sample_now old_note sample_store
    = (Ok (memory_id_of sample_store old_note), n').
Proof.
  apply (store_memory_returns_unless_zero_division
           sample_now old_note sample_store).
  - exact sample_store_reachable.
  - vm_compute. reflexivity.
  - reflexivity.
  - intros [Hc _]. exact (insert_non_empty _ _ _ Hc).
  - intros Hq. vm_compute in Hq. discriminate.
  - set (ms := memories sample_store). vm_compute in ms. subst ms.
    repeat (constructor; [intros Hq; vm_compute in Hq; discriminate|]).
    constructor.
Defined.

(** ** Stores in which every call has returned *)

Lemma strong_same_facts (a a' b b' : MemoryTrace) :
  same_facts a a' -> same_facts b b' -> (strong a' b' <-> strong a b).
Proof.
  intros Ha Hb. unfold strong.
  now rewrite (strength_same_facts a a' b b' Ha Hb).
Qed.

Lemma strong_comm (a b : MemoryTrace) : strong a b <-> strong b a.
Proof. unfold strong. now rewrite strength_comm. Qed.

Lemma settled_reachable `{StringHash} (n : MemoryNetwork) :
  settled n -> reachable n.
Proof.
  induction 1 as [c|n n' now memory memory_id _ IH Hnil Hfresh Hrun
                 |order n now q _ IH|n x _ IH].
  - apply reach_init.
  - replace n' with (store_memory now memory n).2 by now rewrite Hrun.
    now apply reach_store.
  - now apply reach_query.
  - now apply reach_evict.
Qed.

Lemma complete_forget (x : string) (n n' : MemoryNetwork) :
  complete n -> frame x n n' -> forgotten x n' -> complete n'.
Proof.
  intros Hcp Hfr (Hgone & _) a b ma' mb' Hab Ha Hb Hs.
  assert (Hax : a <> x) by (intros ->; congruence).
  assert (Hbx : b <> x) by (intros ->; congruence).
  pose proof (fr_records _ _ _ Hfr a Hax) as Hra. rewrite Ha in Hra.
  pose proof (fr_records _ _ _ Hfr b Hbx) as Hrb. rewrite Hb in Hrb.
  destruct (dict_get a (memories n)) as [ma|] eqn:Hma; [|contradiction].
  destruct (dict_get b (memories n)) as [mb|] eqn:Hmb; [|contradiction].
  destruct Hra as [Hfa Hwa]. destruct Hrb as [Hfb _].
  apply (strong_same_facts ma ma' mb mb' Hfa Hfb) in Hs.
  pose proof (Hcp a b ma mb Hab Hma Hmb Hs) as Hin.
  assert (Hin' : b ∈ without x (associations ma'))
    by (rewrite Hwa; now apply elem_of_without).
  now apply elem_of_without in Hin'.
Qed.

Lemma complete_same_graph (n n' : MemoryNetwork) :
  complete n -> same_graph n n' -> complete n'.
Proof.
  intros Hcp Hg a b ma' mb' Hab Ha Hb Hs.
  pose proof (same_graph_lookup n n' a Hg) as Hla. rewrite Ha in Hla.
  pose proof (same_graph_lookup n n' b Hg) as Hlb. rewrite Hb in Hlb.
  destruct (dict_get a (memories n)) as [ma|] eqn:Hma; [|contradiction].
  destruct (dict_get b (memories n)) as [mb|] eqn:Hmb; [|contradiction].
  destruct Hla as [Hfa Hwa]. destruct Hlb as [Hfb _].
  apply (strong_same_facts ma ma' mb mb' Hfa Hfb) in Hs.
  rewrite Hwa. now apply (Hcp a b ma mb).
Qed.

(** The parts of a call of [store_memory] that returns. *)
Lemma store_memory_parts `{StringHash} (now : datetime)
      (memory : MemoryTrace) (n n' : MemoryNetwork) (i memory_id : string) :
  i = memory_id_of n memory ->
  store_memory now memory n = (Ok memory_id, n') ->
  exists n3,
    for_each (dict_keys (dict_set i memory (memories n)))
             (associate_with i memory)
             (_update_indices i memory
                (set_memories (dict_set i memory (memories n)) n)).2
    = (Ok tt, n3)
    /\ _manage_capacity now n3 = (Ok tt, n').
Proof.
  intros Hi. unfold store_memory.
  unfold bind at 1, get. rewrite <- Hi.
  unfold bind at 1, modify at 1.
  set (n1 := set_memories (dict_set i memory (memories n)) n).
  destruct (update_indices_indexed i memory n1) as (Ho & Hm2 & _ & _).
  unfold bind at 1.
  destruct (_update_indices i memory n1) as [o n2]; simpl in Ho, Hm2.
  subst o. cbn [snd]. unfold bind at 1.
  unfold _create_associations. unfold bind at 1, get.
  rewrite Hm2.
  destruct (for_each (dict_keys (dict_set i memory (memories n)))
              (associate_with i memory) n2) as [[[]|e] n3] eqn:Hloop;
    [|discriminate].
  unfold bind at 1.
  destruct (_manage_capacity now n3) as [[[]|e] n4] eqn:Hman; [|discriminate].
  unfold ret. intros [= _ <-]. exists n3. auto.
Qed.

(** After the loop of [_create_associations] has run to its end for a new
    record, every two strong records are associated again. *)
Lemma complete_linked (i : string) (memory : MemoryTrace)
      (n n3 : MemoryNetwork) :
  complete n ->
  dict_get i (memories n) = None -> associations memory = [] ->
  linked_by i memory (dict_keys (dict_set i memory (memories n)))
            (_update_indices i memory
               (set_memories (dict_set i memory (memories n)) n)).2 n3 ->
  complete n3.
Proof.
  intros Hcp Hfresh Hnil Hlink a b ma' mb' Hab Ha Hb Hs.
  set (n2 := (_update_indices i memory
                (set_memories (dict_set i memory (memories n)) n)).2) in *.
  assert (Hm2 : memories n2 = dict_set i memory (memories n)) by reflexivity.
  assert (Hget : forall z, dict_get z (memories n2)
                           = if String.eqb z i then Some memory
                             else dict_get z (memories n)).
  { intros z. rewrite Hm2. apply dict_get_set. }
  assert (Hkeys : forall z m, dict_get z (memories n2) = Some m ->
                    z ∈ dict_keys (dict_set i memory (memories n))).
  { intros z m Hz. apply list_elem_of_In, dict_get_in_keys.
    rewrite <- Hm2. congruence. }
  pose proof (Hlink a) as Hla. rewrite Ha in Hla.
  pose proof (Hlink b) as Hlb. rewrite Hb in Hlb.
  destruct (dict_get a (memories n2)) as [ma|] eqn:Hma; [|contradiction].
  destruct (dict_get b (memories n2)) as [mb|] eqn:Hmb; [|contradiction].
  destruct Hla as [Hua Hwa]. destruct Hlb as [Hub _].
  apply (strong_same_facts ma ma' mb mb'
           (up_to_associations_facts _ _ Hua)
           (up_to_associations_facts _ _ Hub)) in Hs.
  apply Hwa. rewrite (Hget a) in Hma. rewrite (Hget b) in Hmb.
  destruct (String.eqb_spec a i) as [->|Hai];
    destruct (String.eqb_spec b i) as [->|Hbi]; [contradiction|..].
  - (* the new record and an old one *)
    injection Hma as <-. right; left. split; [reflexivity|].
    split; [apply (Hkeys b mb); rewrite Hget; now destruct (String.eqb_spec b i)|].
    split; [exact Hbi|]. exists mb. split; [|exact Hs].
    rewrite Hget. now destruct (String.eqb_spec b i).
  - (* an old record and the new one *)
    injection Hmb as <-. right; right. split; [reflexivity|].
    split; [apply (Hkeys a ma); rewrite Hget; now destruct (String.eqb_spec a i)|].
    split; [exact Hai|]. now apply strong_comm.
  - (* two old records *)
    left. now apply (Hcp a b ma mb).
Qed.

Lemma complete_settled `{StringHash} (n : MemoryNetwork) :
  settled n -> complete n.
Proof.
  induction 1 as [c|n n' now memory memory_id Hs IH Hnil Hfresh Hrun
                 |order n now q Hs IH|n x Hs IH].
  - intros a b ma mb _ Ha. discriminate.
  - pose proof (reachable_consistent n (settled_reachable n Hs)) as Hc.
    destruct (store_memory_parts now memory n n' _ memory_id eq_refl Hrun)
      as (n3 & Hloop & Hman).
    pose proof (create_loop_linked _ memory _ _ n3 Hloop) as Hlink.
    pose proof (complete_linked _ memory n n3 IH Hfresh Hnil Hlink) as Hcp3.
    assert (Hc3 : consistent n3).
    { replace n3 with
        (for_each (dict_keys (dict_set (memory_id_of n memory) memory
                                       (memories n)))
                  (associate_with (memory_id_of n memory) memory)
                  (_update_indices (memory_id_of n memory) memory
                     (set_memories
                        (dict_set (memory_id_of n memory) memory (memories n))
                        n)).2).2 by now rewrite Hloop.
      pose proof (consistent_insert _ memory n Hc Hfresh Hnil) as Hc2.
      apply consistent_create_loop; [exact Hc2|apply Hc2|].
      exists memory. split.
      - simpl. rewrite dict_get_set. now rewrite String.eqb_refl.
      - intros y _. rewrite Hnil. apply not_elem_of_nil. }
    replace n' with (_manage_capacity now n3).2 by now rewrite Hman.
    apply invariant_manage_capacity; [|exact Hc3|exact Hcp3].
    intros x0 s s' _. apply complete_forget.
  - eapply complete_same_graph; [exact IH|].
    apply (@same_graph_retrieve_memories order).
  - pose proof (reachable_consistent n (settled_reachable n Hs)) as Hc.
    destruct (dict_get x (memories n)) as [m|] eqn:Hx.
    + destruct (remove_memory_consistent x m n Hc Hx)
        as (n' & Hrun & Hfg & _ & Hfr).
      rewrite Hrun. eapply complete_forget; eauto.
    + unfold _remove_memory, bind, get. rewrite Hx. exact IH.
Qed.

Lemma Qlt_gtb (a b : Q) : (b < a)%Q -> Qgtb a b = true.
Proof.
  intros Hlt. unfold Qgtb. apply negb_true_iff.
  destruct (Qle_bool a b) eqn:E; [|reflexivity].
  apply Qle_bool_iff in E. lra.
Qed.

(** In a store reached without identifier reuse in which every call of
    [store_memory] has returned, two records stored under different
    identifiers are associated exactly when their strength is above 0.3. *)
Theorem associated_iff_strength_above_threshold
        `{StringHash} (n : MemoryNetwork) (a b : string)
        (ma mb : MemoryTrace) :
  settled n ->
  a <> b ->
  dict_get a (memories n) = Some ma ->
  dict_get b (memories n) = Some mb ->
  (b ∈ associations ma <-> strong ma mb).
Proof.
  intros Hs Hab Ha Hb. split.
  - intros Hin. pose proof (settled_reachable n Hs) as Hr.
    destruct (association_strength_stored n a b ma
                (reachable_consistent n Hr) (rated_reachable n Hr) Ha Hin)
      as (mb' & v & Hmb' & _ & Hcalc & Hgt).
    assert (mb' = mb) by congruence. subst mb'.
    exists v. split; [exact Hcalc|now apply Qlt_gtb].
  - now apply (complete_settled n Hs a b ma mb).
Qed.

Lemma settled_store_returned `{StringHash} (now : datetime)
      (memory : MemoryTrace) (n : MemoryNetwork) (memory_id : string) :
  settled n ->
  associations memory = [] ->
  dict_get (memory_id_of n memory) (memories n) = None ->
  (store_memory now memory n).1 = Ok memory_id ->
  settled (store_memory now memory n).2.
Proof.
  intros Hs Hnil Hfresh Hrun.
  apply (settled_store n _ now memory memory_id Hs Hnil Hfresh).
  now apply run_eta.
Qed.

Lemma sample_store_settled : settled sample_store.
Proof.
  replace sample_store
    with (store_memory sample_now later
            (store_memory sample_now followup
               (store_memory sample_now meeting (MemoryNetwork_init 10)).2).2).2
    by (vm_compute; reflexivity).
  apply (settled_store_returned _ _ _ "mem_2_101");
    [|reflexivity|vm_compute; reflexivity|vm_compute; reflexivity].
  apply (settled_store_returned _ _ _ "mem_1_99");
    [|reflexivity|vm_compute; reflexivity|vm_compute; reflexivity].
  apply (settled_store_returned _ _ _ "mem_0_98");
    [|reflexivity|vm_compute; reflexivity|vm_compute; reflexivity].
  apply settled_init.
Qed.

Lemma associated_iff_strength_above_threshold_witness :
  "mem_1_99"%string ∈ associations (stored_record "mem_0_98" sample_store)
  <-> strong (stored_record "mem_0_98" sample_store)
             (stored_record "mem_1_99" sample_store).
Proof.
  apply (associated_iff_strength_above_threshold
           sample_store "mem_0_98" "mem_1_99");
    [exact sample_store_settled|discriminate
    |vm_compute; reflexivity|vm_compute; reflexivity].
Defined.
